(** * SpuCo: the SpuCoMNIST dataset builder and EIIL group inference

    A shallow embedding of [spuco/datasets/spuco_mnist.py] and
    [spuco/group_inference/eiil.py].

    Conventions of the embedding.
    - Python lists are Rocq lists; a position in a list is a [nat], a label
      or a spurious class is a [Z] (the spurious vector starts at [-1]).
    - Python dicts are association lists in insertion order, because
      [partition.keys()] is iterated.
    - Floating-point values (pixels, colours, the correlation strength) are
      the rationals [Qc] that they denote.  Where the code stores a Python
      float in a tensor ([torch.tensor]), the value is rounded to single
      precision, and the arithmetic of [init_colors] on Python floats is
      rounded to double precision ([float32], [float64]); infinities and
      NaN are not represented.  The quantities of the optimisation loop of
      EIIL are kept abstract.
    - The random generators of the tensor library are inputs of the model:
      a Bernoulli sample is a list of booleans, [torch.randperm n] is a list
      of positions that the theorems assume to be a permutation of
      [0 .. n-1].
    - Exceptions are values of [exn]; a computation that can raise returns
      a [result]. *)

From Stdlib Require Import QArith Qcanon Qround Qabs Lqa String.
From stdpp Require Import base numbers list.

Open Scope Z_scope.

(** ** Exceptions *)

Inductive exn : Type :=
  | AssertionError (msg : string)
  | ValueError
  | ZeroDivisionError.

Inductive result (A : Type) : Type :=
  | Ok (a : A)
  | Err (e : exn).
Arguments Ok {A} a.
Arguments Err {A} e.

#[global] Instance result_ret : MRet result := λ A a, Ok a.
#[global] Instance result_bind : MBind result := λ A B f m,
  match m with
  | Ok a => f a
  | Err e => Err e
  end.

(** [assert c, msg] *)
Definition py_assert (c : bool) (msg : string) : result unit :=
  if c then Ok () else Err (AssertionError msg).

(** [a % b] on Python integers: the sign follows the divisor, as [Z.modulo]
    does, and a zero divisor raises. *)
Definition py_mod (a b : Z) : result Z :=
  if decide (b = 0) then Err ZeroDivisionError else Ok (a `mod` b).

(** A loop whose body can raise: [for x in xs: st = body x st]. *)
Fixpoint for_each {A S} (body : A → S → result S) (xs : list A) (st : S) : result S :=
  match xs with
  | [] => Ok st
  | x :: xs' => st' ← body x st ; for_each body xs' st'
  end.

(** A list comprehension whose element expression can raise. *)
Fixpoint comprehension {A B} (f : A → result B) (xs : list A) : result (list B) :=
  match xs with
  | [] => Ok []
  | x :: xs' => y ← f x ; ys ← comprehension f xs' ; Ok (y :: ys)
  end.

(** [enumerate(xs)] *)
Definition enumerate {A} (xs : list A) : list (nat * A) :=
  imap (λ i x, (i, x)) xs.

(** [xs[ps]] for an index tensor [ps], and [[xs[i] for i in ps]].  Every
    use below indexes in range (lemmas [kept_in_range] and the permutation
    hypotheses), where the default is never returned. *)
Definition take_at {A} `{Inhabited A} (xs : list A) (ps : list nat) : list A :=
  (λ p, xs !!! p) <$> ps.

(** ** Binary floating point *)

(** The integer nearest to [x]; at a tie, the even one of the two. *)
Definition round_half_even (x : Q) : Z :=
  let n := Qfloor x in
  match (x - inject_Z n ?= 1 # 2)%Q with
  | Lt => n
  | Gt => n + 1
  | Eq => if Z.even n then n else n + 1
  end.

(** [floor (log2 x)] for a positive [x]: the exponent of the binade
    [[2^e, 2^(e+1))] that holds [x]. *)
Definition binade (x : Q) : Z :=
  if Qle_bool 1 x then Z.log2 (Qfloor x) else - Z.log2_up (Qceiling (/ x)).

(** [x * 2^k] *)
Definition scale2 (x : Q) (k : Z) : Q :=
  if decide (0 ≤ k) then (x * inject_Z (2 ^ k))%Q else (x / inject_Z (2 ^ (- k)))%Q.

(** The multiple of [2^k] nearest to [x], ties to even. *)
Definition round_at (k : Z) (x : Q) : Q :=
  scale2 (inject_Z (round_half_even (scale2 x (- k)))) k.

(** Rounding to nearest, ties to even, in the binary format with [prec]
    significant bits and least normal exponent [emin]: the spacing of the
    format at [x] is [2^(e - (prec - 1))] for [e] the binade of [|x|], and
    [2^(emin - (prec - 1))] in the subnormal range.  A value beyond the
    largest finite one of the format, which the format rounds to an
    infinity, is rounded here as if the exponent range had no upper end. *)
Definition round_binary (prec emin : Z) (x : Qc) : Qc :=
  let e := Z.max (binade (Qabs x)) emin in
  Q2Qc (round_at (e - (prec - 1)) x).

(** Single precision (binary32), the default type of [torch.tensor] for
    Python floats, and double precision (binary64), the Python float. *)
Definition float32 : Qc → Qc := round_binary 24 (-126).
Definition float64 : Qc → Qc := round_binary 53 (-1022).

(** [1 + 2^-24], half way between 1 and the next value of single
    precision: the largest value that [float32] rounds to 1. *)
Definition float32_unit_max : Qc := Q2Qc (16777217 # 16777216).

(** The values that single precision rounds to a finite value: those
    below [2^128 - 2^103] in absolute value. *)
Definition float32_finite (x : Qc) : Prop :=
  (Qabs x < inject_Z (2 ^ 128 - 2 ^ 103))%Q.

(** ** Dictionaries with list values, in insertion order *)

Section dict.
Context {V : Type}.

(** [k in d] *)
Definition dict_mem (k : Z) (d : list (Z * V)) : bool :=
  bool_decide (k ∈ d.*1).

(** [d[k] = v] for a key that is absent: appended at the end. *)
Definition dict_new (k : Z) (v : V) (d : list (Z * V)) : list (Z * V) :=
  d ++ [(k, v)].

(** [d[k]] updated in place by [f] (as [d[k].append(i)] does). *)
Fixpoint dict_alter (f : V → V) (k : Z) (d : list (Z * V)) : list (Z * V) :=
  match d with
  | [] => []
  | (k', v) :: d' =>
      if decide (k' = k) then (k', f v) :: d' else (k', v) :: dict_alter f k d'
  end.

Fixpoint dict_get (k : Z) (d : list (Z * V)) : option V :=
  match d with
  | [] => None
  | (k', v) :: d' => if decide (k' = k) then Some v else dict_get k d'
  end.
End dict.

(** The loop shared by [load_data] and [infer_groups]:
<<
    partition = {}
    for i, label in enumerate(labels):
        if label not in partition:
            partition[label] = []
        partition[label].append(i)
>> *)
Definition partition_step (p : list (Z * list nat)) (il : nat * Z) : list (Z * list nat) :=
  let '(i, label) := il in
  let p1 := if dict_mem label p then p else dict_new label [] p in
  dict_alter (λ g, g ++ [i]) label p1.

Definition group_partition (labels : list Z) : list (Z * list nat) :=
  foldl partition_step [] (enumerate labels).

(** ** SpuCoMNIST: labels *)

Module SpuCoMNIST.

(** [validate_classes]: every class within [0..9], classes pairwise
    disjoint. *)
Fixpoint validate_classes (classes : list (list Z)) : bool :=
  match classes with
  | [] => true
  | s :: rest =>
      if existsb (λ x, (x <? 0) || (9 <? x)) s then false
      else if existsb (λ s', existsb (λ x, bool_decide (x ∈ s')) s) rest then false
      else validate_classes rest
  end.

(** The inner loop of "Get New Labels", for sample [i] with raw label
    [label]: [for class_idx, latent_class in enumerate(classes)]. *)
Definition relabel_class (label : Z) (i : nat)
    (st : list Z * list nat) (cl : nat * list Z) : list Z * list nat :=
  let '(class_idx, latent_class) := cl in
  if bool_decide (label ∈ latent_class)
  then (<[i := Z.of_nat class_idx]> st.1, st.2 ++ [i])
  else st.

(** The outer loop.  It iterates over the labels as they were when the
    loop reached them: position [i] is only written while [i] is the
    current position, after its value was read. *)
Definition relabel_sample (classes : list (list Z))
    (st : list Z * list nat) (il : nat * Z) : list Z * list nat :=
  let '(i, label) := il in
  foldl (relabel_class label i) st (enumerate classes).

Definition get_new_labels (classes : list (list Z)) (labels : list Z)
    : list Z * list nat :=
  foldl (relabel_sample classes) (labels, []) (enumerate labels).

(** ** SpuCoMNIST: tensors, masks and backgrounds *)

(** A [3 x 28 x 28] image: channels, rows, columns. *)
Abbreviation tensor3 := (list (list (list Qc))).

Definition tensor_zip_with (f : Qc → Qc → Qc) (a b : tensor3) : tensor3 :=
  zip_with (zip_with (zip_with f)) a b.
Definition tensor_map (f : Qc → Qc) (a : tensor3) : tensor3 :=
  (λ channel : list (list Qc), (λ row : list Qc, f <$> row) <$> channel) <$> a.

(** [a * b] and [a + b], elementwise on tensors of one shape. *)
Definition tensor_mul : tensor3 → tensor3 → tensor3 := tensor_zip_with Qcmult.
Definition tensor_add : tensor3 → tensor3 → tensor3 := tensor_zip_with Qcplus.

(** [x == 0], read as a number where it is multiplied. *)
Definition is_zero (x : Qc) : Qc := if decide (x = 0%Qc) then 1%Qc else 0%Qc.
Definition tensor_eq0 : tensor3 → tensor3 := tensor_map is_zero.

(** Modelled from the spec: the enumeration [SpuriousFeatureDifficulty] is
    imported from [spuco.datasets], which is not among the sources; its six
    members are the ones [create_background] compares with. *)
Inductive SpuriousFeatureDifficulty : Type :=
  | MAGNITUDE_EASY
  | MAGNITUDE_MEDIUM
  | MAGNITUDE_HARD
  | VARIANCE_EASY
  | VARIANCE_MEDIUM
  | VARIANCE_HARD.

(** [torch.tensor(rgb).unsqueeze(1).unsqueeze(2).repeat(1, 28, 28)]: the
    tensor holds the components of the colour in single precision. *)
Definition rgb_to_mnist_background (rgb : list Qc) : tensor3 :=
  (λ c, replicate 28 (replicate 28 (float32 c))) <$> rgb.

(** [torch.zeros((3,28,28))] *)
Definition zeros_3_28_28 : tensor3 :=
  replicate 3 (replicate 28 (replicate 28 0%Qc)).

(** [mask[:, r, c] = 1.] for one point. *)
Definition set_point (mask : tensor3) (rc : nat * nat) : tensor3 :=
  alter (<[rc.2 := 1%Qc]>) rc.1 <$> mask.

(** [compute_mask]: the index assignment [mask[:, rows, cols] = 1.] writes
    [mask[:, rows[n], cols[n]]] for every [n]. *)
Definition compute_mask (unmask_points : list (nat * nat)) : tensor3 :=
  let rows := unmask_points.*1 in
  let cols := unmask_points.*2 in
  foldl set_point zeros_3_28_28 (zip rows cols).

(** [list(itertools.product(range(a), range(b)))] *)
Definition product_range (a b : nat) : list (nat * nat) :=
  r ← seq 0 a; c ← seq 0 b; [(r, c)].

(** The points that [create_background] unmasks; [None] for
    [MAGNITUDE_EASY], which returns before any mask is made.  [randperm] is
    the value of [torch.randperm(len(all_points))]. *)
Definition unmask_points (d : SpuriousFeatureDifficulty) (randperm : list nat)
    : option (list (nat * nat)) :=
  match d with
  | MAGNITUDE_EASY => None
  | MAGNITUDE_MEDIUM => Some (product_range 4 4)
  | MAGNITUDE_HARD => Some (product_range 2 2)
  | VARIANCE_EASY => Some (product_range 7 7)
  | VARIANCE_MEDIUM =>
      let all_points := product_range 14 14 in
      Some (take_at all_points (take 49 randperm))
  | VARIANCE_HARD =>
      let all_points := product_range 28 28 in
      Some (take_at all_points (take 49 randperm))
  end.

Definition create_background (d : SpuriousFeatureDifficulty) (rgb : list Qc)
    (randperm : list nat) : tensor3 :=
  let background := rgb_to_mnist_background rgb in
  match unmask_points d randperm with
  | None => background
  | Some pts => tensor_mul background (compute_mask pts)
  end.

(** [(background * (x == 0)) + x] *)
Definition composite (background x : tensor3) : tensor3 :=
  tensor_add (tensor_mul background (tensor_eq0 x)) x.

(** ** SpuCoMNIST: the dataset object *)

(** [init_colors].  [color_map] stands for the matplotlib colour map, which
    returns an RGBA tuple.  The step [1 / k] is a Python float, and
    [cmap_vals[i]], entry [i] of [np.arange(0, 1, step)], is [i * step]
    computed in double precision. *)
Definition init_colors (color_map : Qc → list Qc) (classes : list (list Z))
    : result (list (list Qc)) :=
  let k := length classes in
  if decide (k = 0%nat) then Err ZeroDivisionError else
  let step := float64 (1 / Q2Qc (inject_Z (Z.of_nat k)))%Qc in
  let colors :=
    (λ i, take 3 (color_map (float64 (Q2Qc (inject_Z (Z.of_nat i)) * step)%Qc)))
    <$> seq 0 k in
  Ok (colors ++ [[0; 0; 0]%Qc]).

(** The fields of [self] that [load_data] reads.  [mnist] is the sequence
    of (image, raw label) pairs of the MNIST source after its transform. *)
Record t : Type := {
  spurious_feature_difficulty : SpuriousFeatureDifficulty;
  classes : list (list Z);
  spurious_correlation_strength : Qc;
  train : bool;
  colors : list (list Qc);
  mnist : list (tensor3 * Z)
}.

(** The default of the constructor: [spurious_correlation_strength = -1.] *)
Definition unset_strength : Qc := (-1)%Qc.

(** The random draws of one construction.  [bernoulli label i] is entry [i]
    of the Bernoulli sample drawn for the group of [label], [shuffle label]
    the value of [torch.randperm] for that group, and [mask_randperm idx]
    the value of [torch.randperm] inside [create_background] for sample
    [idx]. *)
Record rng : Type := {
  bernoulli : Z → nat → bool;
  shuffle : Z → list nat;
  mask_randperm : nat → list nat
}.

(** What [load_data] leaves in [self]. *)
Record loaded : Type := {
  data_X : list tensor3;
  data_labels : list Z;
  partition : list (Z * list nat);
  spurious : list Z
}.

(** [torch.distributions.Bernoulli(probs=torch.tensor(p))]: the tensor
    holds [p] in single precision.  With argument validation, which is the
    library's default whenever assertions are enabled, the constructor
    raises [ValueError] unless the value of the tensor is in the unit
    interval.  (A [p] beyond the finite range of single precision is an
    infinity in the tensor, and is refused there as its rounded value is
    here.) *)
Definition Bernoulli_init (p : Qc) : result Qc :=
  let probs := float32 p in
  if decide (0 ≤ probs ∧ probs ≤ 1)%Qc then Ok probs else Err ValueError.

(** [xs[z]] for a Python integer [z]: a negative index counts from the end. *)
Definition py_getitem {A} `{Inhabited A} (xs : list A) (z : Z) : A :=
  if decide (z < 0) then xs !!! Z.to_nat (Z.of_nat (length xs) + z)
  else xs !!! Z.to_nat z.

(** The body of [for i, idx in enumerate(self.partition[label])]. *)
Definition paint_sample (self : t) (r : rng) (background_label : list Z)
    (st : list Z * list tensor3) (ii : nat * nat) : list Z * list tensor3 :=
  let '(i, idx) := ii in
  let spurious := <[idx := background_label !!! i]> st.1 in
  let background :=
    create_background (spurious_feature_difficulty self)
      (py_getitem (colors self) (spurious !!! idx)) (mask_randperm r idx) in
  (spurious, <[idx := composite background (st.2 !!! idx)]> st.2).

Definition paint_group (self : t) (r : rng) (background_label : list Z)
    (group : list nat) (st : list Z * list tensor3) : list Z * list tensor3 :=
  foldl (paint_sample self r background_label) st (enumerate group).

(** [self.partition[label]]; the key is always present where it is used. *)
Definition group_of (p : list (Z * list nat)) (label : Z) : list nat :=
  default [] (dict_get label p).

(** The body of the training loop over [self.partition.keys()]. *)
Definition train_group (self : t) (r : rng) (p : list (Z * list nat))
    (label : Z) (st : list Z * list tensor3) : result (list Z * list tensor3) :=
  let group := group_of p label in
  let spurious_or_not := bernoulli r label in
  let other_labels :=
    filter (λ x, x ≠ label) (Z.of_nat <$> seq 0 (length (classes self))) in
  background_label ← comprehension (λ i : nat,
      if spurious_or_not i then Ok label
      else j ← py_mod (Z.of_nat i) (Z.of_nat (length other_labels));
           Ok (py_getitem other_labels j))
    (seq 0 (length group));
  let background_label := take_at background_label (shuffle r label) in
  Ok (paint_group self r background_label group st).

(** The body of the evaluation loop over [self.partition.keys()]. *)
Definition test_group (self : t) (r : rng) (p : list (Z * list nat))
    (label : Z) (st : list Z * list tensor3) : result (list Z * list tensor3) :=
  let group := group_of p label in
  background_label ← comprehension (λ i : nat,
      py_mod (Z.of_nat i) (Z.of_nat (length (classes self))))
    (seq 0 (length group));
  let background_label := take_at background_label (shuffle r label) in
  Ok (paint_group self r background_label group st).

(** "Get New Labels": the kept images and their new labels. *)
Definition kept_data (self : t) : list tensor3 * list Z :=
  let X := (mnist self).*1 in
  let labels := (mnist self).*2 in
  let '(labels, kept) := get_new_labels (classes self) labels in
  (take_at X kept, take_at labels kept).

(** "Partition indices by new labels": [self.partition]. *)
Definition true_partition (self : t) : list (Z * list nat) :=
  group_partition (kept_data self).2.

Definition load_data (self : t) (r : rng) : result loaded :=
  _ ← py_assert (validate_classes (classes self))
        "Classes should be disjoint and only contain elements 0<= label <= 9";
  let '(X, labels) := kept_data self in
  let p := true_partition self in
  let spurious := replicate (length X) (-1) in
  st ← (if train self then
          _ ← py_assert (bool_decide (0 ≤ spurious_correlation_strength self)%Qc)
                "spurious correlation strength must be specified for train=True";
          _ ← Bernoulli_init (spurious_correlation_strength self);
          for_each (train_group self r p) p.*1 (spurious, X)
        else
          for_each (test_group self r p) p.*1 (spurious, X));
  Ok {| data_X := st.2; data_labels := labels; partition := p; spurious := st.1 |}.

End SpuCoMNIST.

(** ** EIIL: group inference *)

Module EIIL.

(** The two leaf tensors of [infer_groups] that require gradients. *)
Inductive param : Type := scale | env_w.

#[global] Instance param_eq_dec : EqDecision param.
Proof. solve_decision. Defined.

Section infer_groups.
(** Floating-point numbers and the numeric library stay abstract:
    the claims about [infer_groups] do not depend on their values. *)
Context {F : Type}.
(** [1.] *)
Variable one : F.
(** Automatic differentiation of [npenalty], a function of the logits,
    the labels, [scale] and [env_w]: its gradient at entry [i] of [env_w],
    and its gradient at [scale]. *)
Variable d_npenalty_d_env_w : list (list F) → list Z → F → list F → nat → F.
Variable d_npenalty_d_scale : list (list F) → list Z → F → list F → F.
(** Accumulation of a gradient into [.grad]. *)
Variable fadd : F → F → F.
(** One entry of an Adam update: learning rate, step number, the two
    moment estimates, the parameter and its gradient. *)
Variable adam_entry : F → nat → F * F → F → F → F * F * F.
Variable adam_zero : F * F.
(** [sigmoid(w) > .5] *)
Variable sigmoid_gt_half : F → bool.

(** A leaf tensor: its value (flattened) and its [.grad]. *)
Record leaf : Type := { data : list F; grad : option (list F) }.

(** [optim.Adam(params, lr)]: the parameters it tracks and its state. *)
Record Adam : Type := {
  params : list param;
  lr : F;
  step_count : nat;
  moments : param → list (F * F)
}.

Record state : Type := {
  leaves : param → leaf;
  optimizer : Adam
}.

Definition set_leaf (p : param) (l : leaf) (ls : param → leaf) : param → leaf :=
  λ q, if decide (q = p) then l else ls q.

(** [optimizer.zero_grad()] clears [.grad] of the tracked parameters. *)
Definition zero_grad (st : state) : state :=
  {| leaves := foldl (λ ls p, set_leaf p {| data := data (ls p); grad := None |} ls)
                 (leaves st) (params (optimizer st));
     optimizer := optimizer st |}.

Definition accumulate (l : leaf) (g : list F) : leaf :=
  {| data := data l;
     grad := Some (match grad l with
                   | None => g
                   | Some g0 => zip_with fadd g0 g
                   end) |}.

(** [npenalty.backward(retain_graph=True)]: both leaves require
    gradients and [npenalty] depends on both, so both [.grad] fields
    receive a gradient. *)
Definition backward (logits : list (list F)) (labels : list Z) (st : state) : state :=
  let s := default one (head (data (leaves st scale))) in
  let w := data (leaves st env_w) in
  let g_w := imap (λ i _, d_npenalty_d_env_w logits labels s w i) w in
  let g_s := [d_npenalty_d_scale logits labels s w] in
  {| leaves := set_leaf scale (accumulate (leaves st scale) g_s)
                 (set_leaf env_w (accumulate (leaves st env_w) g_w) (leaves st));
     optimizer := optimizer st |}.

(** Adam on one tracked parameter; a parameter without [.grad] is
    skipped. *)
Definition adam_param (o : Adam) (ls : param → leaf) (p : param)
    : leaf * list (F * F) :=
  match grad (ls p) with
  | None => (ls p, moments o p)
  | Some g =>
      let upd := zip_with (λ mw gi, adam_entry (lr o) (S (step_count o)) mw.1 mw.2 gi)
                   (zip (moments o p) (data (ls p))) g in
      ({| data := upd.*2; grad := grad (ls p) |}, upd.*1)
  end.

(** [optimizer.step()] *)
Definition optimizer_step (st : state) : state :=
  let o := optimizer st in
  let '(ls, ms) :=
    foldl (λ (acc : (param → leaf) * (param → list (F * F))) p,
             let '(l, m) := adam_param o acc.1 p in
             (set_leaf p l acc.1, λ q, if decide (q = p) then m else acc.2 q))
      (leaves st, moments o) (params o) in
  {| leaves := ls;
     optimizer := {| params := params o; lr := lr o;
                     step_count := S (step_count o); moments := ms |} |}.

(** One iteration of the training loop.  The two calls of
    [torch.autograd.grad] return new tensors and write no [.grad]. *)
Definition train_step (logits : list (list F)) (labels : list Z) (st : state) : state :=
  optimizer_step (backward logits labels (zero_grad st)).

(** The state before the loop; [randn i] is entry [i] of
    [torch.randn(len(logits))]. *)
Definition initialize (logits : list (list F)) (learning_rate : F) (randn : nat → F)
    : state :=
  let w := randn <$> seq 0 (length logits) in
  {| leaves := λ p, match p with
                    | scale => {| data := [one]; grad := None |}
                    | env_w => {| data := w; grad := None |}
                    end;
     optimizer := {| params := [env_w]; lr := learning_rate; step_count := 0;
                     moments := λ _, replicate (length w) adam_zero |} |}.

Definition train_assignment (logits : list (list F)) (labels : list Z)
    (num_steps : nat) (learning_rate : F) (randn : nat → F) : state :=
  Nat.iter num_steps (train_step logits labels) (initialize logits learning_rate randn).

(** [(env_w.sigmoid() > .5).int()] *)
Definition harden (w : list F) : list Z :=
  (λ x, if sigmoid_gt_half x then 1 else 0) <$> w.

(** [group_labels[self.labels==1] += 2] *)
Definition refine (group_labels labels : list Z) : list Z :=
  zip_with (λ g l, if decide (l = 1) then g + 2 else g) group_labels labels.

Definition group_labels_of (logits : list (list F)) (labels : list Z)
    (num_steps : nat) (learning_rate : F) (randn : nat → F) : list Z :=
  let st := train_assignment logits labels num_steps learning_rate randn in
  refine (harden (data (leaves st env_w))) labels.

Definition infer_groups (logits : list (list F)) (labels : list Z)
    (num_steps : nat) (learning_rate : F) (randn : nat → F)
    : list (Z * list nat) :=
  group_partition (group_labels_of logits labels num_steps learning_rate randn).

End infer_groups.
End EIIL.

(** * Vocabulary of the statements *)

Import SpuCoMNIST EIIL.

(** [p] partitions [0 .. n-1] exactly: its keys are distinct and its
    lists, put end to end, are a rearrangement of [0; 1; ...; n-1], so that
    every index below [n] is in one list, once, and no list holds anything
    else. *)
Definition is_exact_partition (p : list (Z * list nat)) (n : nat) : Prop :=
  NoDup p.*1 ∧ mjoin p.*2 ≡ₚ seq 0 n.

(** The invariant of the relabelling loops over [n] samples and [k]
    classes: the labels keep their length, and a kept position holds the
    position of a class. *)
Definition relabel_inv (n k : nat) (st : list Z * list nat) : Prop :=
  length st.1 = n
  ∧ ∀ i, i ∈ st.2 →
      (i < n)%nat ∧ ∃ c : nat, st.1 !! i = Some (Z.of_nat c) ∧ (c < k)%nat.

(** The image that [paint_sample] stores for a sample that was [x] and
    received the spurious class [v]. *)
Definition painted (self : t) (r : rng) (v : Z) (idx : nat) (x : tensor3) : tensor3 :=
  composite
    (create_background (spurious_feature_difficulty self)
       (py_getitem (colors self) v) (mask_randperm r idx)) x.

(** Both loops have one shape: a list of spurious classes is made for the
    group, then written sample by sample. *)
Definition assign_group (self : t) (r : rng) (p : list (Z * list nat))
    (mk : Z → result (list Z)) (label : Z) (st : list Z * list tensor3)
    : result (list Z * list tensor3) :=
  background_label ← mk label;
  Ok (paint_group self r background_label (group_of p label) st).

(** The list [background_label] of the training loop for the group of
    [label], after the shuffle. *)
Definition train_background_label (self : t) (r : rng) (p : list (Z * list nat))
    (label : Z) : result (list Z) :=
  let other_labels :=
    filter (λ x, x ≠ label) (Z.of_nat <$> seq 0 (length (classes self))) in
  background_label ← comprehension (λ i : nat,
      if bernoulli r label i then Ok label
      else j ← py_mod (Z.of_nat i) (Z.of_nat (length other_labels));
           Ok (py_getitem other_labels j))
    (seq 0 (length (group_of p label)));
  Ok (take_at background_label (shuffle r label)).

(** The list [background_label] of the evaluation loop for the group of
    [label], after the shuffle. *)
Definition test_background_label (self : t) (r : rng) (p : list (Z * list nat))
    (label : Z) : result (list Z) :=
  background_label ← comprehension (λ i : nat,
      py_mod (Z.of_nat i) (Z.of_nat (length (classes self))))
    (seq 0 (length (group_of p label)));
  Ok (take_at background_label (shuffle r label)).

(** The spurious classes made for the group of [l], after the shuffle. *)
Definition background_label_of (self : t) (r : rng) (l : Z) : result (list Z) :=
  if train self then train_background_label self r (true_partition self) l
  else test_background_label self r (true_partition self) l.

(** How often the class [c] occurs in a list of spurious classes. *)
Definition count_class (c : Z) (vs : list Z) : nat :=
  length (filter (λ v, v = c) vs).

(** The random permutations of the groups are permutations. *)
Definition shuffle_valid (self : t) (r : rng) : Prop :=
  ∀ l g, (l, g) ∈ true_partition self → shuffle r l ≡ₚ seq 0 (length g).

(** A sample of a Bernoulli distribution with parameter [p]: all ones when
    [p] is one, all zeros when [p] is zero. *)
Definition bernoulli_valid (p : Qc) (r : rng) : Prop :=
  (p = 1%Qc → ∀ l i, bernoulli r l i = true)
  ∧ (p = 0%Qc → ∀ l i, bernoulli r l i = false).

(** The spurious classes of the samples of a group, in the group's order. *)
Definition spurious_in (d : loaded) (g : list nat) : list Z :=
  (λ idx, spurious d !!! idx) <$> g.

(** The message of the assertion on the correlation strength. *)
Definition strength_message : string :=
  "spurious correlation strength must be specified for train=True".

(** [mask[c, r, col] = 1.] in one channel [c]. *)
Definition set_channel_point (ch : list (list Qc)) (rc : nat * nat) : list (list Qc) :=
  alter (<[rc.2 := 1%Qc]>) rc.1 ch.

(** The number of entries of a channel that are one. *)
Definition count_ones (ch : list (list Qc)) : nat :=
  length (filter (λ v, v = 1%Qc) (mjoin ch)).

(** Every entry of the channel is 0 or 1. *)
Definition binary (ch : list (list Qc)) : Prop :=
  Forall (Forall (λ v, v = 0%Qc ∨ v = 1%Qc)) ch.

(** Entry [[r, col]] of a channel. *)
Definition channel_entry (ch : list (list Qc)) (rc : nat * nat) : option Qc :=
  ch !! rc.1 ≫= λ row, row !! rc.2.

(** The number of points that a difficulty unmasks in each channel. *)
Definition unmasked_count (d : SpuriousFeatureDifficulty) : nat :=
  match d with
  | MAGNITUDE_EASY => 28 * 28
  | MAGNITUDE_MEDIUM => 16
  | MAGNITUDE_HARD => 4
  | VARIANCE_EASY | VARIANCE_MEDIUM | VARIANCE_HARD => 49
  end.

(** The side of the grid that the points of a difficulty are taken from. *)
Definition grid_side (d : SpuriousFeatureDifficulty) : nat :=
  match d with
  | MAGNITUDE_EASY | VARIANCE_HARD => 28
  | MAGNITUDE_MEDIUM => 4
  | MAGNITUDE_HARD => 2
  | VARIANCE_EASY => 7
  | VARIANCE_MEDIUM => 14
  end.

(** [torch.randperm] inside [create_background] is a permutation of the
    positions of [all_points]. *)
Definition mask_randperm_valid (d : SpuriousFeatureDifficulty) (randperm : list nat) : Prop :=
  match d with
  | VARIANCE_MEDIUM => randperm ≡ₚ seq 0 (14 * 14)
  | VARIANCE_HARD => randperm ≡ₚ seq 0 (28 * 28)
  | _ => True
  end.

(** Entry [[c, i, j]] of a tensor. *)
Definition entry (a : tensor3) (c i j : nat) : option Qc :=
  a !! c ≫= λ channel, channel !! i ≫= λ row, row !! j.

(** Two tensors with as many channels, rows and columns. *)
Definition same_shape (a b : tensor3) : Prop :=
  Forall2 (Forall2 (λ r1 r2 : list Qc, length r1 = length r2)) a b.

(** No entry of the image is zero. *)
Definition no_zero_pixel (x : tensor3) : Prop :=
  Forall (Forall (Forall (λ v, v ≠ 0%Qc))) x.

(** A tensor of shape [3 x 28 x 28]. *)
Definition shape_3_28_28 (a : tensor3) : Prop :=
  length a = 3%nat
  ∧ Forall (λ channel : list (list Qc),
      length channel = 28%nat ∧ Forall (λ row : list Qc, length row = 28%nat) channel) a.

(** The compositing of one pixel, one row and one channel. *)
Definition composite_pixel (b v : Qc) : Qc := (b * is_zero v + v)%Qc.
Definition composite_row (rb rx : list Qc) : list Qc := zip_with composite_pixel rb rx.
Definition composite_channel (cb cx : list (list Qc)) : list (list Qc) :=
  zip_with composite_row cb cx.

(** The shape of [env_w] and of its Adam state stays the batch size. *)
Definition env_w_shape {F : Type} (n : nat) (st : state (F := F)) : Prop :=
  params (optimizer st) = [env_w]
  ∧ length (data (leaves st env_w)) = n
  ∧ length (moments (optimizer st) env_w) = n.

(** ** Concrete inputs *)


Definition example_image (v : Qc) : tensor3 :=
  replicate 3 (replicate 28 (replicate 28 v)).

Definition example_mnist : list (tensor3 * Z) :=
  [(example_image 0, 0); (example_image (Q2Qc (1 # 2)), 2); (example_image 0, 5);
   (example_image 1, 3); (example_image 0, 1)].

Definition example_dataset (tr : bool) (s : Qc) : t :=
  {| spurious_feature_difficulty := MAGNITUDE_HARD;
     classes := [[0; 1]; [2; 3]];
     spurious_correlation_strength := s;
     train := tr;
     colors := [[1; 0; 0]; [0; 1; 1]; [0; 0; 0]]%Qc;
     mnist := example_mnist |}.

Definition example_single_class : t :=
  {| spurious_feature_difficulty := MAGNITUDE_HARD;
     classes := [[0; 1]];
     spurious_correlation_strength := Q2Qc (1 # 2);
     train := true;
     colors := [[1; 0; 0]; [0; 0; 0]]%Qc;
     mnist := example_mnist |}.

Definition example_rng (draw : bool) : rng :=
  {| bernoulli := λ _ _, draw;
     shuffle := λ _, [1; 0]%nat;
     mask_randperm := λ _, [] |}.

Definition example_logits : list (list Z) := [[0; 0]; [0; 0]; [0; 0]].
Definition example_labels : list Z := [1; 0; 1].

Definition example_groups : list (Z * list nat) :=
  infer_groups (F := Z) 1 (λ _ _ _ _ _, 1) (λ _ _ _ _, 0) Z.add
    (λ lr _ m w g, (m, w - lr * g)) (0, 0) (λ w, bool_decide (0 < w))
    example_logits example_labels 2 1 (λ i, 2 * Z.of_nat i).

(** ** Vocabulary of the further properties *)


(** The classes are valid: labels within [0..9], classes pairwise
    disjoint. *)
Definition classes_valid (classes : list (list Z)) : Prop :=
  Forall (Forall (λ x, 0 ≤ x ≤ 9)) classes
  ∧ ∀ i j ci cj x, (i < j)%nat → classes !! i = Some ci → classes !! j = Some cj →
      x ∈ ci → x ∉ cj.


(** The positions that carry the label [l], in ascending order. *)
Definition positions_of (l : Z) (labels : list Z) : list nat :=
  filter (λ i, labels !! i = Some l) (seq 0 (length labels)).

(** The distinct labels, in the order of their first occurrence. *)
Definition first_occurrences (labels : list Z) : list Z :=
  foldl (λ ks l, if decide (l ∈ ks) then ks else ks ++ [l]) [] labels.


(** The position of the class that holds [label], if there is one. *)
Definition class_of (classes : list (list Z)) (label : Z) : option nat :=
  fst <$> list_find (λ c, label ∈ c) classes.

(** [label] is in one class at most. *)
Definition in_one_class (label : Z) (classes : list (list Z)) : Prop :=
  ∀ j1 j2 c1 c2, classes !! j1 = Some c1 → classes !! j2 = Some c2 →
    label ∈ c1 → label ∈ c2 → j1 = j2.


(** The labels other than [label], as the training loop lists them. *)
Definition other_labels_of (self : t) (label : Z) : list Z :=
  filter (λ x, x ≠ label) (Z.of_nat <$> seq 0 (length (classes self))).

(** The list [background_label] of the training loop before the shuffle:
    the label where the draw is one, and else the other labels in turn. *)
Definition train_cycle (self : t) (r : rng) (label : Z) (n : nat) : list Z :=
  (λ i : nat,
     if bernoulli r label i then label
     else py_getitem (other_labels_of self label)
            (Z.of_nat i `mod` Z.of_nat (length (other_labels_of self label))))
  <$> seq 0 n.


(** Whether [create_background] paints the point [(i, j)]. *)
Definition unmasked_at (d : SpuriousFeatureDifficulty) (randperm : list nat)
    (i j : nat) : bool :=
  match unmask_points d randperm with
  | None => true
  | Some pts => bool_decide ((i, j) ∈ pts)
  end.


(** Every entry of the tensor is zero. *)
Definition all_zero (a : list (list (list Qc))) : Prop :=
  Forall (Forall (Forall (λ v, v = 0%Qc))) a.

(** * Properties *)

(** ** Binary floating point *)

Lemma Qfloor_bounds (x : Q) :
  (inject_Z (Qfloor x) <= x)%Q ∧ (x < inject_Z (Qfloor x) + 1)%Q.
Proof.
  split; [apply Qfloor_le|].
  pose proof (Qlt_floor x) as H. by rewrite inject_Z_plus in H.
Qed.

Lemma inject_Z_lt_succ (n N : Z) : n < N → (inject_Z n + 1 <= inject_Z N)%Q.
Proof.
  intros H. change 1%Q with (inject_Z 1). rewrite <-inject_Z_plus.
  rewrite <-Zle_Qle. lia.
Qed.

Lemma inject_Z_le_inv (n N : Z) : (inject_Z n < inject_Z N + 1)%Q → n ≤ N.
Proof.
  change 1%Q with (inject_Z 1). rewrite <-inject_Z_plus, <-Zlt_Qlt. lia.
Qed.

Lemma round_half_even_cases (x : Q) :
  let n := Qfloor x in
  (round_half_even x = n ∧ (x - inject_Z n <= 1 # 2)%Q
     ∧ ((x - inject_Z n == 1 # 2)%Q → Z.even n = true))
  ∨ (round_half_even x = n + 1 ∧ (1 # 2 <= x - inject_Z n)%Q
     ∧ ((x - inject_Z n == 1 # 2)%Q → Z.even n = false)).
Proof.
  cbv zeta. unfold round_half_even.
  destruct (Qcompare_spec (x - inject_Z (Qfloor x)) (1 # 2)) as [He|Hl|Hg].
  - destruct (Z.even (Qfloor x)) eqn:Hev; [left|right]; (split_and!; [done|lra|done]).
  - left. split_and!; [done|lra|]. intros He. lra.
  - right. split_and!; [done|lra|]. intros He. lra.
Qed.

Lemma round_half_even_le (x : Q) (N : Z) :
  (x <= inject_Z N)%Q → round_half_even x ≤ N.
Proof.
  intros Hx. destruct (Qfloor_bounds x) as [H1 H2].
  assert (Qfloor x ≤ N) as Hn by (rewrite Zle_Qle; lra).
  destruct (round_half_even_cases x) as [(-> & _)|(-> & Hh & _)]; [done|].
  destruct (decide (Qfloor x = N)) as [He|Hne]; [|lia].
  rewrite He in Hh. lra.
Qed.

Lemma round_half_even_ge (x : Q) (N : Z) :
  (inject_Z N <= x)%Q → N ≤ round_half_even x.
Proof.
  intros Hx. destruct (Qfloor_bounds x) as [H1 H2].
  assert (N ≤ Qfloor x) as Hn.
  { apply inject_Z_le_inv. lra. }
  destruct (round_half_even_cases x) as [(-> & _)|(-> & _)]; lia.
Qed.

Lemma round_half_even_tie_le (x : Q) (N : Z) :
  Z.even N = true → (x <= inject_Z N + (1 # 2))%Q → round_half_even x ≤ N.
Proof.
  intros Hev Hx. destruct (Qfloor_bounds x) as [H1 H2].
  assert (Qfloor x ≤ N) as Hn.
  { apply inject_Z_le_inv. lra. }
  destruct (round_half_even_cases x) as [(-> & _)|(-> & Hh & Ht)]; [done|].
  destruct (decide (Qfloor x = N)) as [He|Hne]; [|lia].
  rewrite He in Hh, Ht. rewrite Ht in Hev; [done|]. lra.
Qed.

Lemma round_half_even_tie_gt (x : Q) (N : Z) :
  (inject_Z N + (1 # 2) < x)%Q → N + 1 ≤ round_half_even x.
Proof.
  intros Hx. destruct (Qfloor_bounds x) as [H1 H2].
  assert (N ≤ Qfloor x) as Hn.
  { apply inject_Z_le_inv. lra. }
  destruct (round_half_even_cases x) as [(-> & Hh & _)|(-> & _)]; [|lia].
  destruct (decide (Qfloor x = N)) as [He|Hne]; [|lia].
  rewrite He in Hh. lra.
Qed.

Lemma pow2_pos (k : Z) : 0 ≤ k → (0 < inject_Z (2 ^ k))%Q.
Proof.
  intros Hk. change 0%Q with (inject_Z 0). rewrite <-Zlt_Qlt.
  by apply Z.pow_pos_nonneg.
Qed.

Lemma round_at_neg (k : Z) (x : Q) :
  k < 0 →
  round_at k x
  = (inject_Z (round_half_even (x * inject_Z (2 ^ (- k)))) / inject_Z (2 ^ (- k)))%Q.
Proof.
  intros Hk. unfold round_at, scale2.
  rewrite (decide_False (P := 0 ≤ k)) by lia.
  by rewrite (decide_True (P := 0 ≤ - k)) by lia.
Qed.

Lemma round_at_pos (k : Z) (x : Q) :
  0 < k →
  round_at k x
  = (inject_Z (round_half_even (x / inject_Z (2 ^ k))) * inject_Z (2 ^ k))%Q.
Proof.
  intros Hk. unfold round_at, scale2.
  rewrite (decide_True (P := 0 ≤ k)) by lia.
  rewrite (decide_False (P := 0 ≤ - k)) by lia.
  by rewrite Z.opp_involutive.
Qed.

Lemma round_half_even_comp (x y : Q) :
  (x == y)%Q → round_half_even x = round_half_even y.
Proof.
  intros He. unfold round_half_even.
  rewrite (Qfloor_comp _ _ He).
  assert ((x - inject_Z (Qfloor y) ?= 1 # 2) = (y - inject_Z (Qfloor y) ?= 1 # 2))%Q
    as ->; [|done].
  apply Qcompare_comp; [by rewrite He|done].
Qed.

Lemma round_at_0 (x : Q) : (round_at 0 x == inject_Z (round_half_even x))%Q.
Proof.
  unfold round_at, scale2. change (- 0) with 0. rewrite !decide_True by lia.
  change (inject_Z (2 ^ 0)) with 1%Q.
  rewrite (round_half_even_comp (x * 1) x) by ring. ring.
Qed.

(** Rounding to a multiple of [2 ^ k] with [k ≤ 0] does not cross an
    integer. *)
Lemma round_at_le (k : Z) (x : Q) (M : Z) :
  k ≤ 0 → (x <= inject_Z M)%Q → (round_at k x <= inject_Z M)%Q.
Proof.
  intros Hk Hx. destruct (decide (k = 0)) as [->|Hk0].
  - rewrite round_at_0, <-Zle_Qle. by apply round_half_even_le.
  - rewrite round_at_neg by lia.
    pose proof (pow2_pos (- k) ltac:(lia)) as HN.
    apply Qle_shift_div_r; [done|].
    rewrite <-inject_Z_mult, <-Zle_Qle. apply round_half_even_le.
    rewrite inject_Z_mult. apply Qmult_le_compat_r; [done|]. by apply Qlt_le_weak.
Qed.

Lemma round_at_ge (k : Z) (x : Q) (M : Z) :
  k ≤ 0 → (inject_Z M <= x)%Q → (inject_Z M <= round_at k x)%Q.
Proof.
  intros Hk Hx. destruct (decide (k = 0)) as [->|Hk0].
  - rewrite round_at_0, <-Zle_Qle. by apply round_half_even_ge.
  - rewrite round_at_neg by lia.
    pose proof (pow2_pos (- k) ltac:(lia)) as HN.
    apply Qle_shift_div_l; [done|].
    rewrite <-inject_Z_mult, <-Zle_Qle. apply round_half_even_ge.
    rewrite inject_Z_mult. apply Qmult_le_compat_r; [done|]. by apply Qlt_le_weak.
Qed.

Lemma Qabs_nonneg_eq (x : Q) : (0 <= x)%Q → Qabs x = x.
Proof.
  destruct x as [n d]. unfold Qle, Qabs. cbn [Qnum Qden]. intros H.
  f_equal. apply Z.abs_eq. lia.
Qed.

Lemma binade_le_1 (x : Q) : (x <= 1)%Q → binade x ≤ 0.
Proof.
  intros Hx. unfold binade. destruct (Qle_bool 1 x) eqn:H1.
  - apply Qle_bool_iff in H1.
    assert (Qfloor x = 1) as ->; [|done].
    assert (x == inject_Z 1)%Q as -> by (apply Qle_antisym; done).
    apply Qfloor_Z.
  - pose proof (Z.log2_up_nonneg (Qceiling (/ x))). lia.
Qed.

Lemma binade_1_2 (x : Q) : (1 <= x)%Q → (x < 2)%Q → binade x = 0.
Proof.
  intros H1 H2. unfold binade.
  rewrite (proj2 (Qle_bool_iff 1 x) H1).
  destruct (Qfloor_bounds x) as [Hf1 Hf2].
  assert (Qfloor x = 1) as ->; [|done].
  assert (1 ≤ Qfloor x).
  { apply inject_Z_le_inv. change (inject_Z 1) with 1%Q. lra. }
  assert (Qfloor x < 2); [|lia].
  rewrite Zlt_Qlt. change (inject_Z 2) with 2%Q. lra.
Qed.

Lemma binade_ge_2 (x : Q) :
  (2 <= x)%Q → 1 ≤ binade x ∧ (inject_Z (2 ^ binade x) <= x)%Q.
Proof.
  intros H2. unfold binade.
  rewrite (proj2 (Qle_bool_iff 1 x)) by lra.
  destruct (Qfloor_bounds x) as [Hf1 Hf2].
  assert (2 ≤ Qfloor x) as Hf.
  { apply inject_Z_le_inv. change (inject_Z 2) with 2%Q. lra. }
  split.
  - change 1 with (Z.log2 2). by apply Z.log2_le_mono.
  - eapply Qle_trans; [|exact Hf1]. rewrite <-Zle_Qle.
    apply Z.log2_spec. lia.
Qed.

Lemma round_binary_this (prec emin : Z) (x : Qc) :
  (this (round_binary prec emin x)
   == round_at (Z.max (binade (Qabs x)) emin - (prec - 1)) x)%Q.
Proof. unfold round_binary. cbn [this Q2Qc]. apply Qred_correct. Qed.

(** Single precision keeps the unit interval. *)
Lemma float32_unit (s : Qc) :
  (0 ≤ s)%Qc → (s ≤ 1)%Qc → (0 ≤ float32 s)%Qc ∧ (float32 s ≤ 1)%Qc.
Proof.
  unfold Qcle. change (this 0%Qc) with (inject_Z 0). change (this 1%Qc) with (inject_Z 1).
  intros H0 H1. unfold float32. rewrite !round_binary_this.
  rewrite (Qabs_nonneg_eq s) by done.
  pose proof (binade_le_1 s H1) as Hb.
  split; [apply round_at_ge|apply round_at_le]; (done || lia).
Qed.

(** Above one, single precision gives 1 up to the half-way point
    [1 + 2^-24], and more than 1 beyond it. *)
Lemma float32_above_1 (s : Qc) :
  (1 < s)%Qc → (float32 s ≤ 1)%Qc ↔ (s ≤ float32_unit_max)%Qc.
Proof.
  unfold Qclt, Qcle. change (this 1%Qc) with 1%Q.
  change (this float32_unit_max) with (16777217 # 16777216)%Q.
  intros H1. unfold float32. rewrite round_binary_this.
  rewrite (Qabs_nonneg_eq s) by lra.
  destruct (Qlt_le_dec s 2) as [H2|H2].
  - rewrite (binade_1_2 s) by lra.
    change (Z.max 0 (-126) - (24 - 1)) with (-23).
    rewrite round_at_neg by lia. change (2 ^ (- -23)) with 8388608.
    split.
    + intros Hr. apply Qnot_lt_le. intros Hs.
      assert (8388608 + 1 ≤ round_half_even (s * inject_Z 8388608)) as Hge.
      { apply round_half_even_tie_gt. change (inject_Z 8388608) with (8388608 # 1)%Q.
        lra. }
      apply (Qmult_le_compat_r _ _ (inject_Z 8388608)) in Hr; [|done].
      rewrite Qmult_1_l in Hr.
      assert (inject_Z (round_half_even (s * inject_Z 8388608)) / inject_Z 8388608
              * inject_Z 8388608
              == inject_Z (round_half_even (s * inject_Z 8388608)))%Q as He by (field; done).
      rewrite He, <-Zle_Qle in Hr. lia.
    + intros Hs. apply Qle_shift_div_r; [done|]. rewrite Qmult_1_l, <-Zle_Qle.
      apply round_half_even_tie_le; [done|].
      change (inject_Z 8388608) with (8388608 # 1)%Q. lra.
  - split; [intros Hr; exfalso|intros Hs; lra].
    destruct (binade_ge_2 s H2) as [Hb1 Hb2].
    revert Hr Hb2. generalize (binade s) Hb1. intros e He Hr Hpow.
    rewrite Z.max_l in Hr by lia.
    change (24 - 1) with 23 in Hr.
    destruct (decide (e - 23 ≤ 0)) as [Hk|Hk].
    + pose proof (round_at_ge (e - 23) s 2 Hk H2) as Hge.
      change (inject_Z 2) with 2%Q in Hge. lra.
    + rewrite round_at_pos in Hr by lia.
      pose proof (pow2_pos (e - 23) ltac:(lia)) as HN.
      assert (2 ^ 23 ≤ round_half_even (s / inject_Z (2 ^ (e - 23)))) as Hge.
      { apply round_half_even_ge. apply Qle_shift_div_l; [done|].
        rewrite <-inject_Z_mult, <-Z.pow_add_r by lia.
        by replace (23 + (e - 23)) with e by lia. }
      assert (inject_Z (2 ^ 23) * inject_Z (2 ^ (e - 23))
              <= inject_Z (round_half_even (s / inject_Z (2 ^ (e - 23))))
                 * inject_Z (2 ^ (e - 23)))%Q as Hm.
      { apply Qmult_le_compat_r; [by rewrite <-Zle_Qle|by apply Qlt_le_weak]. }
      assert (1 <= inject_Z (2 ^ (e - 23)))%Q as H1'.
      { change 1%Q with (inject_Z 1). rewrite <-Zle_Qle.
        pose proof (Z.pow_pos_nonneg 2 (e - 23)). lia. }
      change (inject_Z (2 ^ 23)) with (8388608 # 1)%Q in Hm.
      revert Hm Hr H1'. generalize (inject_Z (2 ^ (e - 23))).
      generalize (inject_Z (round_half_even (s / inject_Z (2 ^ (e - 23))))).
      intros a b Hm Hr Hb. nra.
Qed.

Lemma float32_0 : float32 0 = 0%Qc.
Proof. apply Qc_is_canon. reflexivity. Qed.

Lemma float32_1 : float32 1 = 1%Qc.
Proof. apply Qc_is_canon. reflexivity. Qed.


(** ** Partitions *)

Section dict_facts.
Context {V : Type}.
Implicit Types (d : list (Z * V)) (k : Z).

Lemma dict_alter_keys f k d : (dict_alter f k d).*1 = d.*1.
Proof.
  induction d as [|[k' v] d IH]; csimpl; [done|].
  case_decide; csimpl; [done|]. by rewrite IH.
Qed.

Lemma dict_alter_elem f k d l v :
  NoDup d.*1 →
  (l, v) ∈ dict_alter f k d →
  (l ≠ k ∧ (l, v) ∈ d) ∨ (l = k ∧ ∃ v0, (k, v0) ∈ d ∧ v = f v0).
Proof.
  induction d as [|[k' v'] d IH]; csimpl; [by intros _ ?%elem_of_nil|].
  intros [Hnotin Hnd]%NoDup_cons. case_decide as Hk; subst.
  - intros [Heq|Hin]%elem_of_cons.
    + inversion Heq; subst. right. split; [done|]. exists v'. split; [left|done].
    + left. split; [|by right]. intros ->. apply Hnotin.
      apply list_elem_of_fmap. eexists (_, _). split; [|exact Hin]. done.
  - intros [Heq|Hin]%elem_of_cons.
    + inversion Heq; subst. left. split; [done|left].
    + destruct (IH Hnd Hin) as [[? ?]|(-> & v0 & ? & ->)].
      * left. split; [done|by right].
      * right. split; [done|]. exists v0. split; [by right|done].
Qed.

Lemma dict_get_elem k d v : dict_get k d = Some v → (k, v) ∈ d.
Proof.
  induction d as [|[k' v'] d IH]; csimpl; [done|].
  case_decide; subst.
  - intros [= ->]. left.
  - intros ?. right. auto.
Qed.

Lemma dict_get_NoDup k d v : NoDup d.*1 → (k, v) ∈ d → dict_get k d = Some v.
Proof.
  induction d as [|[k' v'] d IH]; csimpl; [by intros _ ?%elem_of_nil|].
  intros [Hnotin Hnd]%NoDup_cons [Heq|Hin]%elem_of_cons.
  - inversion Heq; subst. by rewrite decide_True.
  - case_decide; subst; [|by auto].
    exfalso. apply Hnotin. apply list_elem_of_fmap. eexists (_, _). split; [|exact Hin]. done.
Qed.
End dict_facts.

Lemma dict_alter_snoc_join (n : nat) k (d : list (Z * list nat)) :
  k ∈ d.*1 →
  mjoin (dict_alter (λ g, g ++ [n]) k d).*2 ≡ₚ mjoin d.*2 ++ [n].
Proof.
  induction d as [|[k' g] d IH]; csimpl; [by intros ?%elem_of_nil|].
  intros Hin. case_decide as Hk; csimpl.
  - rewrite <-!(assoc_L (++)). f_equiv. apply Permutation_app_comm.
  - apply elem_of_cons in Hin as [?|Hin]; [congruence|].
    rewrite (IH Hin). by rewrite (assoc_L (++)).
Qed.

Lemma enumerate_snoc {A} (xs : list A) (x : A) :
  enumerate (xs ++ [x]) = enumerate xs ++ [(length xs, x)].
Proof.
  unfold enumerate. rewrite imap_app. csimpl. do 3 f_equal. lia.
Qed.

Lemma length_enumerate {A} (xs : list A) : length (enumerate xs) = length xs.
Proof. apply length_imap. Qed.

Lemma enumerate_lookup {A} (xs : list A) i :
  enumerate xs !! i = (λ x, (i, x)) <$> xs !! i.
Proof. unfold enumerate. by rewrite list_lookup_imap. Qed.

(** What one round of the partition loop does to the dictionary. *)
Lemma partition_step_spec (p : list (Z * list nat)) (n : nat) (x : Z) :
  NoDup p.*1 →
  let p' := partition_step p (n, x) in
  NoDup p'.*1
  ∧ mjoin p'.*2 ≡ₚ mjoin p.*2 ++ [n]
  ∧ x ∈ p'.*1
  ∧ (∀ l, l ∈ p.*1 → l ∈ p'.*1)
  ∧ (∀ l g, (l, g) ∈ p' →
       (l, g) ∈ p ∨ (l = x ∧ ∃ g0, g = g0 ++ [n] ∧ ((x, g0) ∈ p ∨ g0 = []))).
Proof.
  intros Hnd. cbv zeta. unfold partition_step, dict_mem, dict_new.
  case_bool_decide as Hin.
  - rewrite dict_alter_keys. split_and!; [done| |done|done|].
    + by apply dict_alter_snoc_join.
    + intros l g [[? ?]|(-> & g0 & ? & ->)]%dict_alter_elem; [by left| |done].
      right. split; [done|]. exists g0. auto.
  - assert (NoDup (p ++ [(x, [])]).*1) as Hnd'.
    { rewrite fmap_app. apply NoDup_app. split_and!; [done| |apply NoDup_singleton].
      intros y Hy ->%list_elem_of_singleton. done. }
    rewrite dict_alter_keys. split_and!.
    + done.
    + rewrite dict_alter_snoc_join.
      * rewrite fmap_app, join_app. csimpl. by rewrite !app_nil_r.
      * rewrite fmap_app. apply elem_of_app. right. csimpl. left.
    + rewrite fmap_app. apply elem_of_app. right. left.
    + intros l Hl. rewrite fmap_app. apply elem_of_app. by left.
    + intros l g [[Hne Hl]|(-> & g0 & Hg0 & ->)]%dict_alter_elem; [| |done].
      * apply elem_of_app in Hl as [?|Hs%list_elem_of_singleton]; [by left|].
        simplify_eq.
      * right. split; [done|]. exists g0. split; [done|].
        apply elem_of_app in Hg0 as [?|Hs%list_elem_of_singleton]; [by left|].
        simplify_eq. by right.
Qed.

Lemma group_partition_snoc (labels : list Z) (x : Z) :
  group_partition (labels ++ [x])
  = partition_step (group_partition labels) (length labels, x).
Proof. unfold group_partition. by rewrite enumerate_snoc, foldl_app. Qed.

(** The dictionary that the partition loop builds. *)
Lemma group_partition_spec (labels : list Z) :
  let p := group_partition labels in
  NoDup p.*1
  ∧ mjoin p.*2 ≡ₚ seq 0 (length labels)
  ∧ (∀ l g i, (l, g) ∈ p → i ∈ g → labels !! i = Some l)
  ∧ (∀ l g, (l, g) ∈ p → g ≠ [])
  ∧ (∀ l, l ∈ labels → l ∈ p.*1).
Proof.
  induction labels as [|x labels IH] using rev_ind.
  - cbv zeta. unfold group_partition. csimpl. split_and!.
    + constructor.
    + done.
    + by intros l g i ?%elem_of_nil.
    + by intros l g ?%elem_of_nil.
    + by intros l ?%elem_of_nil.
  - cbv zeta in *. rewrite group_partition_snoc.
    destruct IH as (Hnd & Hperm & Hlab & Hne & Hkeys).
    destruct (partition_step_spec (group_partition labels) (length labels) x Hnd)
      as (Hnd' & Hperm' & Hx & Hmono & Hel).
    split_and!.
    + done.
    + rewrite Hperm', Hperm, length_app. csimpl.
      by rewrite Nat.add_1_r, seq_S.
    + intros l g i Hg Hi.
      destruct (Hel l g Hg) as [Hold|(-> & g0 & -> & Hg0)].
      * rewrite lookup_app_l; [by eapply Hlab|].
        eapply lookup_lt_Some, Hlab; done.
      * apply elem_of_app in Hi as [Hi| ->%list_elem_of_singleton].
        -- destruct Hg0 as [Hg0| ->]; [|by apply elem_of_nil in Hi].
           rewrite lookup_app_l; [by eapply Hlab|].
           eapply lookup_lt_Some, Hlab; done.
        -- by rewrite list_lookup_middle.
    + intros l g Hg. destruct (Hel l g Hg) as [Hold|(-> & g0 & -> & Hg0)].
      * by eapply Hne.
      * by destruct g0.
    + intros l [Hl| ->%list_elem_of_singleton]%elem_of_app; [|done].
      by apply Hmono, Hkeys.
Qed.

Lemma group_partition_exact (labels : list Z) :
  is_exact_partition (group_partition labels) (length labels).
Proof. split; apply group_partition_spec. Qed.

(** An exact partition, index by index: an index below [n] lies in the
    list of one key only, once, and the lists hold nothing else. *)
Lemma exact_partition_index (p : list (Z * list nat)) (n : nat) :
  is_exact_partition p n →
  (∀ i, (i < n)%nat → ∃ l g, (l, g) ∈ p ∧ i ∈ g)
  ∧ (∀ l g i, (l, g) ∈ p → i ∈ g → (i < n)%nat)
  ∧ (∀ l g, (l, g) ∈ p → NoDup g)
  ∧ (∀ l1 g1 l2 g2 i, (l1, g1) ∈ p → (l2, g2) ∈ p → i ∈ g1 → i ∈ g2 → l1 = l2).
Proof.
  intros [Hnd Hperm].
  assert (NoDup (mjoin p.*2)) as Hc by (rewrite Hperm; apply NoDup_seq).
  assert (∀ i, i ∈ mjoin p.*2 ↔ (i < n)%nat) as Hin.
  { intros i. rewrite Hperm, elem_of_seq. lia. }
  clear Hperm. split_and!.
  - intros i Hi. apply Hin in Hi. apply list_elem_of_join in Hi as (g & Hi & Hg).
    apply list_elem_of_fmap in Hg as ([l g'] & -> & Hg). by exists l, g'.
  - intros l g i Hg Hi. apply Hin. apply list_elem_of_join. exists g. split; [done|].
    apply list_elem_of_fmap. by exists (l, g).
  - clear Hin. induction p as [|[l' g'] p IH]; [by intros l g ?%elem_of_nil|].
    csimpl in *. apply NoDup_app in Hc as (Hg' & _ & Hrest).
    apply NoDup_cons in Hnd as [_ Hnd].
    intros l g [Heq|Hg]%elem_of_cons; [by simplify_eq|]. by eapply IH.
  - clear Hin. induction p as [|[l' g'] p IH]; [by intros ????? ?%elem_of_nil|].
    csimpl in *. apply NoDup_app in Hc as (Hg' & Hdisj & Hrest).
    apply NoDup_cons in Hnd as [Hnotin Hnd].
    assert (∀ l g i, (l, g) ∈ p → i ∈ g → i ∈ mjoin p.*2) as Hsub.
    { intros l g i Hg Hi. apply list_elem_of_join. exists g. split; [done|].
      apply list_elem_of_fmap. by exists (l, g). }
    intros l1 g1 l2 g2 i [H1|H1]%elem_of_cons [H2|H2]%elem_of_cons Hi1 Hi2;
      simplify_eq; [done| | |by eapply IH].
    + exfalso. eapply Hdisj; [exact Hi1|]. by eapply Hsub.
    + exfalso. eapply Hdisj; [exact Hi2|]. by eapply Hsub.
Qed.



(** ** Generic loop facts *)

Lemma foldl_invariant {A B} (P : A → Prop) (f : A → B → A) (xs : list B) (a : A) :
  P a → (∀ a x, x ∈ xs → P a → P (f a x)) → P (foldl f a xs).
Proof.
  revert a. induction xs as [|x xs IH]; intros a Ha Hstep; csimpl; [done|].
  apply IH.
  - apply Hstep; [left|done].
  - intros a' x' Hx'. apply Hstep. by right.
Qed.

Lemma bind_Ok_inv {A B} (m : result A) (f : A → result B) b :
  m ≫= f = Ok b → ∃ a, m = Ok a ∧ f a = Ok b.
Proof. destruct m as [a|e]; [by exists a|done]. Qed.

Lemma for_each_cons_inv {A S} (body : A → S → result S) x xs st st' :
  for_each body (x :: xs) st = Ok st' →
  ∃ st1, body x st = Ok st1 ∧ for_each body xs st1 = Ok st'.
Proof. apply bind_Ok_inv. Qed.

Lemma elem_of_enumerate {A} (xs : list A) i x :
  (i, x) ∈ enumerate xs ↔ xs !! i = Some x.
Proof.
  rewrite list_elem_of_lookup. split.
  - intros [j Hj]. rewrite enumerate_lookup in Hj.
    destruct (xs !! j) as [y|] eqn:Hy; csimpl in *; [|done].
    by simplify_eq.
  - intros Hx. exists i. by rewrite enumerate_lookup, Hx.
Qed.

Lemma length_take_at {A} `{Inhabited A} (xs : list A) ps :
  length (take_at xs ps) = length ps.
Proof. apply length_fmap. Qed.

Lemma elem_of_take_at {A} `{Inhabited A} (xs : list A) ps y :
  y ∈ take_at xs ps ↔ ∃ p, y = xs !!! p ∧ p ∈ ps.
Proof. apply list_elem_of_fmap. Qed.

(** ** New labels *)

Lemma relabel_class_inv n k label i st c latent_class :
  (i < n)%nat → (c < k)%nat →
  relabel_inv n k st → relabel_inv n k (relabel_class label i st (c, latent_class)).
Proof.
  intros Hi Hc [Hlen Hkept]. unfold relabel_class.
  case_bool_decide; [|done]. split; csimpl.
  - by rewrite length_insert.
  - intros j [Hj| ->%list_elem_of_singleton]%elem_of_app.
    + destruct (Hkept j Hj) as (Hjn & c' & Hc' & Hlt). split; [done|].
      destruct (decide (j = i)) as [->|Hne].
      * exists c. rewrite list_lookup_insert_eq by lia. done.
      * exists c'. rewrite list_lookup_insert_ne by done. done.
    + split; [done|]. exists c. rewrite list_lookup_insert_eq by lia. done.
Qed.

Lemma get_new_labels_inv (classes : list (list Z)) (labels : list Z) :
  relabel_inv (length labels) (length classes) (get_new_labels classes labels).
Proof.
  unfold get_new_labels. apply foldl_invariant.
  - split; [done|]. by intros i ?%elem_of_nil.
  - intros st [i label] Hil%elem_of_enumerate Hst. unfold relabel_sample.
    apply foldl_invariant; [done|].
    intros st' [c latent_class] Hc%elem_of_enumerate Hst'.
    apply relabel_class_inv; [|by eapply lookup_lt_Some|done].
    by eapply lookup_lt_Some.
Qed.

(** The positions read by [[labels[i] for i in kept]] exist. *)
Lemma kept_in_range (classes : list (list Z)) (labels : list Z) :
  Forall (λ i, (i < length labels)%nat) (get_new_labels classes labels).2.
Proof.
  apply Forall_forall. intros i Hi.
  by apply (get_new_labels_inv classes labels).
Qed.

Lemma kept_data_length (self : t) :
  length (kept_data self).1 = length (kept_data self).2.
Proof.
  unfold kept_data. destruct (get_new_labels _ _) as [labels kept]. csimpl.
  by rewrite !length_take_at.
Qed.

(** Every new label is the position of a latent class. *)
Lemma kept_labels_range (self : t) :
  Forall (λ l, 0 ≤ l < Z.of_nat (length (classes self))) (kept_data self).2.
Proof.
  unfold kept_data.
  pose proof (get_new_labels_inv (classes self) (mnist self).*2) as [Hlen Hkept].
  destruct (get_new_labels _ _) as [labels kept]. csimpl in *.
  apply Forall_forall. intros l (p & -> & Hp)%elem_of_take_at.
  destruct (Hkept p Hp) as (_ & c & Hc & Hlt).
  rewrite (list_lookup_total_correct _ _ _ Hc). lia.
Qed.

(** ** Writing the spurious classes of one group *)

Lemma paint_group_snoc self r bl group idx st :
  paint_group self r bl (group ++ [idx]) st
  = paint_sample self r bl (paint_group self r bl group st) (length group, idx).
Proof. unfold paint_group. by rewrite enumerate_snoc, foldl_app. Qed.

Lemma paint_group_spec self r bl group st :
  NoDup group →
  Forall (λ idx, (idx < length st.1)%nat) group →
  length st.2 = length st.1 →
  let st' := paint_group self r bl group st in
  length st'.1 = length st.1
  ∧ length st'.2 = length st.2
  ∧ (∀ j, j ∉ group → st'.1 !! j = st.1 !! j ∧ st'.2 !! j = st.2 !! j)
  ∧ (∀ i idx, group !! i = Some idx →
       st'.1 !! idx = Some (bl !!! i)
       ∧ st'.2 !! idx = Some (painted self r (bl !!! i) idx (st.2 !!! idx))).
Proof.
  induction group as [|x group IH] using rev_ind; intros Hnd Hrange Hlen.
  - cbv zeta. unfold paint_group. csimpl. split_and!; done.
  - cbv zeta in *. rewrite paint_group_snoc.
    apply NoDup_app in Hnd as (Hnd & Hdisj & _).
    apply Forall_app in Hrange as [Hrange Hx]. apply Forall_inv in Hx.
    destruct (IH Hnd Hrange Hlen) as (Hlen1 & Hlen2 & Hout & Hin).
    unfold paint_sample. csimpl. rewrite !length_insert. split_and!; [done|done| |].
    + intros j Hj.
      assert (x ≠ j) as Hne by (intros ->; apply Hj, elem_of_app; right; left).
      rewrite !list_lookup_insert_ne by done.
      apply Hout. intros ?. apply Hj, elem_of_app. by left.
    + intros i idx Hi. apply lookup_app_Some in Hi as [Hi|[Hge Hi]].
      * assert (x ≠ idx) as Hne.
        { intros ->. eapply Hdisj; [by eapply list_elem_of_lookup_2|left]. }
        rewrite !list_lookup_insert_ne by done. by apply Hin.
      * apply list_lookup_singleton_Some in Hi as [Hi ->].
        replace i with (length group) by lia.
        rewrite !list_lookup_insert_eq by lia. split; [done|].
        rewrite list_lookup_total_insert_eq by lia.
        destruct (Hout idx) as [_ HX]; [intros ?; by eapply Hdisj; [|left]|].
        do 2 f_equal. apply list_lookup_total_correct. rewrite HX.
        apply list_lookup_lookup_total_lt. lia.
Qed.

(** ** The loop over the keys of the partition *)

Lemma train_group_assign self r p label st :
  train_group self r p label st
  = assign_group self r p (train_background_label self r p) label st.
Proof.
  unfold train_group, assign_group, train_background_label.
  by destruct (comprehension _ _).
Qed.

Lemma test_group_assign self r p label st :
  test_group self r p label st
  = assign_group self r p (test_background_label self r p) label st.
Proof.
  unfold test_group, assign_group, test_background_label.
  by destruct (comprehension _ _).
Qed.

Lemma for_each_ext {A S} (f g : A → S → result S) xs st :
  (∀ x st, f x st = g x st) → for_each f xs st = for_each g xs st.
Proof.
  intros Hfg. revert st. induction xs as [|x xs IH]; intros st; csimpl; [done|].
  rewrite Hfg. destruct (g x st); csimpl; [apply IH|done].
Qed.

Section keys_loop.
Context (self : t) (r : rng) (p : list (Z * list nat)) (n : nat).
Context (mk : Z → result (list Z)).
Hypothesis Hp : is_exact_partition p n.

Lemma group_of_elem l g : (l, g) ∈ p → group_of p l = g.
Proof.
  intros Hg. unfold group_of. destruct Hp as [Hnd _].
  by rewrite (dict_get_NoDup _ _ _ Hnd Hg).
Qed.

Lemma key_has_group l : l ∈ p.*1 → (l, group_of p l) ∈ p.
Proof.
  intros ([l' g] & -> & Hg)%list_elem_of_fmap. csimpl.
  by rewrite (group_of_elem _ _ Hg).
Qed.

Lemma for_each_assign ks st st' :
  NoDup ks → (∀ l, l ∈ ks → l ∈ p.*1) → length st.1 = n → length st.2 = n →
  for_each (assign_group self r p mk) ks st = Ok st' →
  length st'.1 = n
  ∧ length st'.2 = n
  ∧ (∀ l, l ∈ ks → ∃ bl, mk l = Ok bl ∧
       ∀ i idx, group_of p l !! i = Some idx →
         st'.1 !! idx = Some (bl !!! i)
         ∧ st'.2 !! idx = Some (painted self r (bl !!! i) idx (st.2 !!! idx)))
  ∧ (∀ j, (∀ l, l ∈ ks → j ∉ group_of p l) →
       st'.1 !! j = st.1 !! j ∧ st'.2 !! j = st.2 !! j).
Proof.
  destruct (exact_partition_index p n Hp) as (_ & Hlt & Hndg & Hdisj).
  revert st. induction ks as [|k ks IH]; intros st Hnd Hkeys Hlen HlenX Hrun.
  - csimpl in Hrun. simplify_eq. split_and!; [done|done| |done].
    by intros l ?%elem_of_nil.
  - apply for_each_cons_inv in Hrun as (st1 & Hbody & Hrun).
    apply bind_Ok_inv in Hbody as (bl & Hmk & [= <-]).
    apply NoDup_cons in Hnd as [Hk Hnd].
    assert ((k, group_of p k) ∈ p) as Hgk by (apply key_has_group, Hkeys; left).
    destruct (paint_group_spec self r bl (group_of p k) st) as (Hl1 & Hl2 & Hout & Hin).
    { by eapply Hndg. }
    { apply Forall_forall. intros idx Hidx. rewrite Hlen. by eapply Hlt. }
    { congruence. }
    destruct (IH (paint_group self r bl (group_of p k) st)) as (Hl1' & Hl2' & Hin' & Hout').
    { done. }
    { intros l Hl. apply Hkeys. by right. }
    { congruence. }
    { congruence. }
    { done. }
    assert (∀ l idx, l ∈ ks → idx ∈ group_of p k → idx ∉ group_of p l) as Hsep.
    { intros l idx Hl Hidx Hidx'.
      assert (k = l) as ->; [|done].
      eapply (Hdisj _ _ _ _ idx); [exact Hgk| |exact Hidx|exact Hidx'].
      apply key_has_group, Hkeys. by right. }
    split_and!; [done|done| |].
    + intros l [->|Hl]%elem_of_cons.
      * exists bl. split; [done|]. intros i idx Hi.
        destruct (Hout' idx) as [-> ->].
        { intros l Hl. apply Hsep; [done|]. by eapply list_elem_of_lookup_2. }
        by apply Hin.
      * destruct (Hin' l Hl) as (bl' & Hmk' & Hw). exists bl'. split; [done|].
        intros i idx Hi. destruct (Hw i idx Hi) as [-> ->]. split; [done|].
        do 2 f_equal. apply list_lookup_total_correct.
        destruct (Hout idx) as [_ HX].
        { intros Hidx. eapply Hsep; [exact Hl|exact Hidx|].
          by eapply list_elem_of_lookup_2. }
        rewrite HX. apply list_lookup_lookup_total_lt. rewrite HlenX.
        eapply Hlt; [apply key_has_group, Hkeys; by right|].
        by eapply list_elem_of_lookup_2.
    + intros j Hj. destruct (Hout' j) as [-> ->].
      * intros l Hl. apply Hj. by right.
      * apply Hout. apply Hj. left.
Qed.

Lemma for_each_assign_total ks st :
  (∀ l, l ∈ ks → ∃ bl, mk l = Ok bl) →
  ∃ st', for_each (assign_group self r p mk) ks st = Ok st'.
Proof.
  revert st. induction ks as [|k ks IH]; intros st Hmk; [by eexists|].
  destruct (Hmk k) as [bl Hbl]; [left|].
  change (∃ st', assign_group self r p mk k st
                   ≫= for_each (assign_group self r p mk) ks = Ok st').
  assert (assign_group self r p mk k st
          = Ok (paint_group self r bl (group_of p k) st)) as ->.
  { unfold assign_group. by rewrite Hbl. }
  apply IH. intros l Hl. apply Hmk. by right.
Qed.
End keys_loop.

(** ** What [load_data] returns *)

Lemma true_partition_exact (self : t) :
  is_exact_partition (true_partition self) (length (kept_data self).2).
Proof. apply group_partition_exact. Qed.

Lemma py_assert_inv c msg u : py_assert c msg = Ok u → c = true.
Proof. by destruct c. Qed.

Lemma float32_unit_max_gt_1 : (1 < float32_unit_max)%Qc.
Proof. reflexivity. Qed.

Lemma round_at_nonneg (k : Z) (x : Q) : (0 <= x)%Q → (0 <= round_at k x)%Q.
Proof.
  intros Hx. destruct (decide (k ≤ 0)) as [Hk|Hk].
  - by apply (round_at_ge k x 0).
  - rewrite round_at_pos by lia.
    pose proof (pow2_pos k ltac:(lia)) as HN.
    apply Qmult_le_0_compat; [|by apply Qlt_le_weak].
    change 0%Q with (inject_Z 0). rewrite <-Zle_Qle.
    apply round_half_even_ge. by apply Qle_shift_div_l; [|rewrite Qmult_0_l].
Qed.

Lemma float32_nonneg (p : Qc) : (0 ≤ p)%Qc → (0 ≤ float32 p)%Qc.
Proof.
  unfold Qcle, float32. intros H0. rewrite round_binary_this.
  by apply round_at_nonneg.
Qed.

(** On a strength that passed the assertion, the constructor of the
    distribution accepts what single precision rounds to at most 1. *)
Lemma float32_accepted (p : Qc) :
  (0 ≤ p)%Qc →
  (0 ≤ float32 p ∧ float32 p ≤ 1)%Qc ↔ (p ≤ float32_unit_max)%Qc.
Proof.
  intros H0. destruct (Qclt_le_dec 1 p) as [H1|H1].
  - rewrite <-(float32_above_1 p H1). split; [by intros [_ ?]|].
    intros Hle. split; [by apply float32_nonneg|done].
  - split.
    + intros _. apply Qcle_trans with 1%Qc; [done|].
      apply Qclt_le_weak, float32_unit_max_gt_1.
    + intros _. by apply float32_unit.
Qed.

Lemma float32_rounds_to_1 (p : Qc) :
  (1 ≤ p)%Qc → (p ≤ float32_unit_max)%Qc → float32 p = 1%Qc.
Proof.
  intros H1 Hmax. apply Qcle_antisym.
  - apply float32_accepted; [|done]. by apply Qcle_trans with 1%Qc.
  - assert (p < 2)%Qc as H2 by (by apply Qcle_lt_trans with float32_unit_max).
    unfold Qcle, Qclt, float32 in *. rewrite round_binary_this.
    change (this 1%Qc) with (inject_Z 1) in *.
    rewrite (Qabs_nonneg_eq p) by (change (inject_Z 1) with 1%Q in H1; lra).
    apply round_at_ge; [|done].
    by rewrite (binade_1_2 p).
Qed.

Lemma Bernoulli_init_inv p q :
  Bernoulli_init p = Ok q → (0 ≤ float32 p ∧ float32 p ≤ 1)%Qc.
Proof. unfold Bernoulli_init. cbv zeta. by case_decide. Qed.

Lemma Bernoulli_init_accepts p :
  (0 ≤ p)%Qc → (p ≤ float32_unit_max)%Qc → Bernoulli_init p = Ok (float32 p).
Proof.
  intros H0 H1. unfold Bernoulli_init. cbv zeta.
  rewrite decide_True; [done|]. by apply float32_accepted.
Qed.

Lemma Bernoulli_init_rejects p :
  (float32_unit_max < p)%Qc → Bernoulli_init p = Err ValueError.
Proof.
  intros H1. unfold Bernoulli_init. cbv zeta.
  rewrite decide_False; [done|]. intros Hin.
  apply float32_accepted in Hin.
  - by apply Qcle_not_lt in Hin.
  - apply Qclt_le_weak, Qclt_trans with float32_unit_max; [done|done].
Qed.

Lemma load_data_loop (self : t) (r : rng) st :
  (if train self
   then for_each (train_group self r (true_partition self)) (true_partition self).*1
          (replicate (length (kept_data self).1) (-1), (kept_data self).1)
   else for_each (test_group self r (true_partition self)) (true_partition self).*1
          (replicate (length (kept_data self).1) (-1), (kept_data self).1)) = Ok st →
  length st.1 = length (kept_data self).2
  ∧ length st.2 = length (kept_data self).2
  ∧ ∀ l g, (l, g) ∈ true_partition self →
      ∃ bl, background_label_of self r l = Ok bl ∧
        ∀ i idx, g !! i = Some idx →
          st.1 !! idx = Some (bl !!! i)
          ∧ st.2 !! idx = Some (painted self r (bl !!! i) idx ((kept_data self).1 !!! idx)).
Proof.
  intros Hrun.
  pose proof (true_partition_exact self) as Hp.
  assert (for_each (assign_group self r (true_partition self) (background_label_of self r))
            (true_partition self).*1
            (replicate (length (kept_data self).1) (-1), (kept_data self).1) = Ok st) as Hrun'.
  { rewrite <-Hrun. unfold background_label_of. destruct (train self).
    - apply for_each_ext. intros. symmetry. apply train_group_assign.
    - apply for_each_ext. intros. symmetry. apply test_group_assign. }
  clear Hrun.
  apply (for_each_assign self r _ _ _ Hp) in Hrun' as (Hl1 & Hl2 & Hin & _).
  - split_and!; [done|done|].
    intros l g Hg. destruct (Hin l) as (bl & Hbl & Hw).
    { apply list_elem_of_fmap. by exists (l, g). }
    exists bl. split; [done|]. rewrite (group_of_elem _ _ Hp _ _ Hg) in Hw. done.
  - apply Hp.
  - done.
  - csimpl. by rewrite length_replicate, kept_data_length.
  - csimpl. by rewrite kept_data_length.
Qed.

(** What a successful [load_data] returns. *)
Lemma load_data_inv (self : t) (r : rng) (d : loaded) :
  load_data self r = Ok d →
  validate_classes (classes self) = true
  ∧ (train self = true →
       (0 ≤ spurious_correlation_strength self
        ∧ spurious_correlation_strength self ≤ float32_unit_max)%Qc)
  ∧ partition d = true_partition self
  ∧ data_labels d = (kept_data self).2
  ∧ length (spurious d) = length (data_labels d)
  ∧ length (data_X d) = length (data_labels d)
  ∧ ∀ l g, (l, g) ∈ partition d →
      ∃ bl, background_label_of self r l = Ok bl ∧
        ∀ i idx, g !! i = Some idx →
          spurious d !! idx = Some (bl !!! i)
          ∧ data_X d !! idx
            = Some (painted self r (bl !!! i) idx ((kept_data self).1 !!! idx)).
Proof.
  unfold load_data. intros Hrun.
  apply bind_Ok_inv in Hrun as (_u & Hvalid%py_assert_inv & Hrun).
  pose proof (load_data_loop self r) as Hloop.
  destruct (kept_data self) as [X labels] eqn:Hkd. csimpl in *.
  apply bind_Ok_inv in Hrun as (st & Hst & [= <-]). csimpl.
  assert (train self = true →
       (0 ≤ spurious_correlation_strength self
        ∧ spurious_correlation_strength self ≤ float32_unit_max)%Qc) as Hs.
  { intros Ht. rewrite Ht in Hst.
    apply bind_Ok_inv in Hst as (_u1 & H0%py_assert_inv%bool_decide_eq_true & Hst).
    apply bind_Ok_inv in Hst as (q & Hq%Bernoulli_init_inv & _).
    split; [done|]. by apply float32_accepted. }
  assert ((if train self
     then for_each (train_group self r (true_partition self)) (true_partition self).*1
            (replicate (length X) (-1), X)
     else for_each (test_group self r (true_partition self)) (true_partition self).*1
            (replicate (length X) (-1), X)) = Ok st) as Hst'.
  { destruct (train self); [|done].
    apply bind_Ok_inv in Hst as (_u1 & _ & Hst).
    apply bind_Ok_inv in Hst as (q & _ & Hst). done. }
  destruct (Hloop st Hst') as (Hl1 & Hl2 & Hw).
  split_and!; done.
Qed.

Lemma load_data_total (self : t) (r : rng) :
  validate_classes (classes self) = true →
  (train self = true →
     (0 ≤ spurious_correlation_strength self
      ∧ spurious_correlation_strength self ≤ float32_unit_max)%Qc) →
  (∀ l, l ∈ (true_partition self).*1 → ∃ bl, background_label_of self r l = Ok bl) →
  ∃ d, load_data self r = Ok d.
Proof.
  intros Hvalid Hs Hbl. unfold load_data. rewrite Hvalid. csimpl.
  destruct (kept_data self) as [X labels] eqn:Hkd.
  destruct (for_each_assign_total self r (true_partition self) (background_label_of self r)
              (true_partition self).*1 (replicate (length X) (-1), X) Hbl) as [st Hst].
  assert ((if train self
     then for_each (train_group self r (true_partition self)) (true_partition self).*1
            (replicate (length X) (-1), X)
     else for_each (test_group self r (true_partition self)) (true_partition self).*1
            (replicate (length X) (-1), X)) = Ok st) as Hst'.
  { rewrite <-Hst. unfold background_label_of. destruct (train self).
    - apply for_each_ext. intros. apply train_group_assign.
    - apply for_each_ext. intros. apply test_group_assign. }
  destruct (train self) eqn:Ht.
  - destruct (Hs eq_refl) as [H0 H1].
    rewrite bool_decide_true by done. csimpl.
    rewrite Bernoulli_init_accepts by done. csimpl. rewrite Hst'. by eexists.
  - rewrite Hst'. by eexists.
Qed.


(** ** Comprehensions *)

Lemma comprehension_Ok {A B} (f : A → result B) (g : A → B) xs :
  (∀ x, x ∈ xs → f x = Ok (g x)) → comprehension f xs = Ok (g <$> xs).
Proof.
  induction xs as [|x xs IH]; intros Hf; [done|].
  change (comprehension f (x :: xs))
    with (f x ≫= λ y, comprehension f xs ≫= λ ys, Ok (y :: ys)).
  rewrite Hf by left. rewrite IH; [done|]. intros y Hy. apply Hf. by right.
Qed.

Lemma comprehension_inv {A B} (f : A → result B) xs ys :
  comprehension f xs = Ok ys → Forall2 (λ x y, f x = Ok y) xs ys.
Proof.
  revert ys. induction xs as [|x xs IH]; intros ys Hrun.
  - injection Hrun as <-. constructor.
  - change (comprehension f (x :: xs))
      with (f x ≫= λ y, comprehension f xs ≫= λ ys, Ok (y :: ys)) in Hrun.
    apply bind_Ok_inv in Hrun as (y & Hy & Hrun).
    apply bind_Ok_inv in Hrun as (ys' & Hys & [= <-]).
    constructor; [done|by apply IH].
Qed.

Lemma comprehension_Err {A B} (f : A → result B) xs x e :
  x ∈ xs → f x = Err e → (∀ y e', y ∈ xs → f y = Err e' → e' = e) →
  comprehension f xs = Err e.
Proof.
  induction xs as [|y xs IH]; intros Hx Hfx Honly; [by apply elem_of_nil in Hx|].
  change (comprehension f (y :: xs))
    with (f y ≫= λ z, comprehension f xs ≫= λ zs, Ok (z :: zs)).
  destruct (f y) as [z|e'] eqn:Hfy.
  - apply elem_of_cons in Hx as [->|Hx]; [congruence|].
    rewrite IH; [done|done|done|]. intros y' e' Hy'. apply Honly. by right.
  - change (Err e' = Err e :> result (list B)). f_equal. eapply Honly; [left|done].
Qed.

Lemma for_each_Err {A S} (body : A → S → result S) xs st e (P : exn → Prop) :
  (∀ x st e, body x st = Err e → P e) → for_each body xs st = Err e → P e.
Proof.
  intros Hbody. revert st. induction xs as [|x xs IH]; intros st Hrun; [done|].
  change (for_each body (x :: xs) st) with (body x st ≫= for_each body xs) in Hrun.
  destruct (body x st) as [st1|e'] eqn:Hb.
  - by eapply IH.
  - injection Hrun as <-. by eapply Hbody.
Qed.

Lemma take_at_perm {A} `{Inhabited A} (xs : list A) (perm : list nat) :
  perm ≡ₚ seq 0 (length xs) → take_at xs perm ≡ₚ xs.
Proof.
  intros Hperm. unfold take_at. rewrite Hperm.
  assert ((λ p, xs !!! p) <$> seq 0 (length xs) = xs) as ->; [|done].
  apply list_eq. intros i. rewrite list_lookup_fmap.
  destruct (decide (i < length xs)%nat) as [Hi|Hi].
  - rewrite lookup_seq_lt by done. csimpl.
    symmetry. by apply list_lookup_lookup_total_lt.
  - rewrite lookup_seq_ge by lia. csimpl. symmetry. apply lookup_ge_None. lia.
Qed.

(** ** Counting the classes of [i % k] *)

Lemma count_class_perm c vs ws : vs ≡ₚ ws → count_class c vs = count_class c ws.
Proof. intros Hp. unfold count_class. by rewrite Hp. Qed.

Lemma count_class_cycle (k : Z) (n : nat) (c : Z) :
  0 ≤ c < k →
  Z.of_nat (count_class c ((λ i : nat, Z.of_nat i `mod` k) <$> seq 0 n))
  = Z.of_nat n `div` k + (if decide (c < Z.of_nat n `mod` k) then 1 else 0).
Proof.
  intros Hc. induction n as [|n IH].
  - unfold count_class. csimpl. rewrite Z.div_0_l, Z.mod_0_l by lia.
    by rewrite decide_False by lia.
  - rewrite seq_S, fmap_app. unfold count_class in *.
    rewrite filter_app, length_app, Nat2Z.inj_add, IH. csimpl. clear IH.
    pose proof (Z.div_mod (Z.of_nat n) k ltac:(lia)) as Hdm.
    pose proof (Z.mod_pos_bound (Z.of_nat n) k ltac:(lia)) as Hm.
    set (q := Z.of_nat n `div` k) in *. set (m := Z.of_nat n `mod` k) in *.
    destruct (decide (m + 1 < k)) as [Hlt|Hge].
    + assert (Z.of_nat (S n) `div` k = q) as ->.
      { symmetry. apply (Z.div_unique_pos _ _ _ (m + 1)); lia. }
      assert (Z.of_nat (S n) `mod` k = m + 1) as ->.
      { symmetry. apply (Z.mod_unique_pos _ _ q); lia. }
      rewrite filter_cons. repeat case_decide; csimpl; lia.
    + assert (Z.of_nat (S n) `div` k = q + 1) as ->.
      { symmetry. apply (Z.div_unique_pos _ _ _ 0); lia. }
      assert (Z.of_nat (S n) `mod` k = 0) as ->.
      { symmetry. apply (Z.mod_unique_pos _ _ (q + 1)); lia. }
      rewrite filter_cons. repeat case_decide; csimpl; lia.
Qed.


(** ** The spurious classes of a group *)

Lemma true_partition_key (self : t) l g :
  (l, g) ∈ true_partition self →
  g ≠ [] ∧ 0 ≤ l < Z.of_nat (length (classes self))
  ∧ ∀ idx, idx ∈ g → (kept_data self).2 !! idx = Some l.
Proof.
  intros Hg. unfold true_partition in Hg.
  destruct (group_partition_spec (kept_data self).2) as (_ & _ & Hlab & Hne & _).
  cbv zeta in *. split; [|split].
  - by eapply Hne.
  - destruct g as [|idx g]; [by exfalso; eapply Hne|].
    assert ((kept_data self).2 !! idx = Some l) as Hl by (eapply Hlab; [done|left]).
    apply list_elem_of_lookup_2 in Hl.
    pose proof (kept_labels_range self) as Hr.
    rewrite Forall_forall in Hr. by apply Hr.
  - intros idx Hidx. by eapply Hlab.
Qed.

Lemma group_of_true_partition (self : t) l g :
  (l, g) ∈ true_partition self → group_of (true_partition self) l = g.
Proof. apply group_of_elem with (n := length (kept_data self).2), true_partition_exact. Qed.

(** The evaluation loop makes [i % k] and shuffles it. *)
Lemma test_background_label_Ok (self : t) (r : rng) l g :
  (l, g) ∈ true_partition self →
  test_background_label self r (true_partition self) l
  = Ok (take_at ((λ i : nat, Z.of_nat i `mod` Z.of_nat (length (classes self)))
                   <$> seq 0 (length g)) (shuffle r l)).
Proof.
  intros Hg. unfold test_background_label.
  rewrite (group_of_true_partition _ _ _ Hg).
  destruct (true_partition_key _ _ _ Hg) as (_ & Hl & _).
  rewrite (comprehension_Ok _ (λ i : nat, Z.of_nat i `mod` Z.of_nat (length (classes self)))).
  - done.
  - intros i _. unfold py_mod. by rewrite decide_False by lia.
Qed.

Lemma other_labels_range (k : nat) (label : Z) :
  Forall (λ v, 0 ≤ v < Z.of_nat k)
    (filter (λ x, x ≠ label) (Z.of_nat <$> seq 0 k)).
Proof.
  apply Forall_forall. intros v [_ Hv]%list_elem_of_filter.
  apply list_elem_of_fmap in Hv as (i & -> & Hi%elem_of_seq). lia.
Qed.

Lemma py_getitem_nonneg {A} `{Inhabited A} (xs : list A) (z : Z) :
  0 ≤ z < Z.of_nat (length xs) → py_getitem xs z ∈ xs.
Proof.
  intros Hz. unfold py_getitem. rewrite decide_False by lia.
  apply list_elem_of_lookup_total_2. lia.
Qed.

(** Whatever the training loop makes for a group is a class position. *)
Lemma train_background_label_range (self : t) (r : rng) l g bl :
  (l, g) ∈ true_partition self → shuffle r l ≡ₚ seq 0 (length g) →
  train_background_label self r (true_partition self) l = Ok bl →
  length bl = length g
  ∧ Forall (λ v, 0 ≤ v < Z.of_nat (length (classes self))) bl.
Proof.
  intros Hg Hsh Hrun. unfold train_background_label in Hrun.
  rewrite (group_of_true_partition _ _ _ Hg) in Hrun.
  destruct (true_partition_key _ _ _ Hg) as (_ & Hl & _).
  apply bind_Ok_inv in Hrun as (bl0 & Hbl0%comprehension_inv & [= <-]).
  assert (length bl0 = length g) as Hlen.
  { apply Forall2_length in Hbl0. by rewrite length_seq in Hbl0. }
  split.
  - rewrite length_take_at, Hsh. by rewrite length_seq.
  - rewrite take_at_perm by (by rewrite Hlen).
    apply Forall_forall. intros v Hv.
    apply list_elem_of_lookup_1 in Hv as [i Hv].
    destruct (Forall2_lookup_r _ _ _ _ _ Hbl0 Hv) as (x & _ & Hx).
    destruct (bernoulli r l x); [by simplify_eq|].
    apply bind_Ok_inv in Hx as (j & Hj & [= <-]).
    unfold py_mod in Hj. case_decide as Hz; [done|]. simplify_eq.
    pose proof (other_labels_range (length (classes self)) l) as Hr.
    rewrite Forall_forall in Hr. apply Hr, py_getitem_nonneg.
    apply Z.mod_pos_bound. lia.
Qed.

(** With every draw equal to one, the training loop makes the label. *)
Lemma train_background_label_aligned (self : t) (r : rng) l g :
  (l, g) ∈ true_partition self → shuffle r l ≡ₚ seq 0 (length g) →
  (∀ i, bernoulli r l i = true) →
  ∃ bl, train_background_label self r (true_partition self) l = Ok bl
        ∧ length bl = length g ∧ Forall (λ v, v = l) bl.
Proof.
  intros Hg Hsh Hb. unfold train_background_label.
  rewrite (group_of_true_partition _ _ _ Hg).
  rewrite (comprehension_Ok _ (λ _, l)) by (intros i _; by rewrite Hb).
  eexists. split; [done|]. split.
  - rewrite length_take_at, Hsh. by rewrite length_seq.
  - rewrite take_at_perm by (by rewrite length_fmap, length_seq).
    apply Forall_fmap, Forall_forall. done.
Qed.

(** A sample of a successful construction, seen from its group. *)
Lemma load_data_sample (self : t) (r : rng) (d : loaded) idx :
  load_data self r = Ok d → (idx < length (data_labels d))%nat →
  ∃ l g i bl,
    (l, g) ∈ true_partition self ∧ g !! i = Some idx
    ∧ data_labels d !! idx = Some l
    ∧ background_label_of self r l = Ok bl
    ∧ spurious d !! idx = Some (bl !!! i)
    ∧ data_X d !! idx = Some (painted self r (bl !!! i) idx ((kept_data self).1 !!! idx)).
Proof.
  intros Hrun Hidx.
  destruct (load_data_inv _ _ _ Hrun) as (_ & _ & Hp & Hlab & _ & _ & Hw).
  rewrite Hlab in Hidx.
  destruct (exact_partition_index _ _ (true_partition_exact self)) as (Hcover & _).
  destruct (Hcover idx Hidx) as (l & g & Hg & Hin).
  apply list_elem_of_lookup_1 in Hin as [i Hi].
  rewrite Hp in Hw. destruct (Hw l g Hg) as (bl & Hbl & Hwr).
  destruct (Hwr i idx Hi) as [Hs HX].
  exists l, g, i, bl. split_and!; try done.
  rewrite Hlab. eapply true_partition_key; [done|].
  by eapply list_elem_of_lookup_2.
Qed.

Lemma spurious_in_group (d : loaded) (g : list nat) (bl : list Z) :
  (∀ i idx, g !! i = Some idx → spurious d !! idx = Some (bl !!! i)) →
  length bl = length g → spurious_in d g = bl.
Proof.
  intros Hw Hlen. apply list_eq. intros i. unfold spurious_in.
  rewrite list_lookup_fmap.
  destruct (g !! i) as [idx|] eqn:Hi; csimpl.
  - rewrite (list_lookup_total_correct _ _ _ (Hw i idx Hi)).
    symmetry. apply list_lookup_lookup_total_lt. rewrite Hlen.
    by eapply lookup_lt_Some.
  - symmetry. apply lookup_ge_None. rewrite Hlen. by apply lookup_ge_None.
Qed.

(** In evaluation mode a construction with valid classes returns. *)
Lemma load_data_test_total (self : t) (r : rng) :
  train self = false → validate_classes (classes self) = true →
  ∃ d, load_data self r = Ok d.
Proof.
  intros Ht Hv. apply load_data_total; [done|by rewrite Ht|].
  intros l ([l' g] & -> & Hg)%list_elem_of_fmap. csimpl.
  unfold background_label_of. rewrite Ht.
  rewrite (test_background_label_Ok _ _ _ _ Hg). by eexists.
Qed.

(** ** Evaluation mode, and the errors of [load_data] *)

Lemma spurious_in_test (self : t) (r : rng) (d : loaded) l g :
  train self = false → load_data self r = Ok d → shuffle_valid self r →
  (l, g) ∈ partition d →
  spurious_in d g
  ≡ₚ (λ i : nat, Z.of_nat i `mod` Z.of_nat (length (classes self))) <$> seq 0 (length g).
Proof.
  intros Ht Hrun Hsh Hg.
  destruct (load_data_inv _ _ _ Hrun) as (_ & _ & Hp & _ & _ & _ & Hw).
  destruct (Hw l g Hg) as (bl & Hbl & Hwr). rewrite Hp in Hg.
  unfold background_label_of in Hbl. rewrite Ht in Hbl.
  rewrite (test_background_label_Ok _ _ _ _ Hg) in Hbl. injection Hbl as <-.
  rewrite (spurious_in_group d g _ (λ i idx Hi, proj1 (Hwr i idx Hi))).
  - apply take_at_perm. rewrite length_fmap, length_seq. by apply Hsh.
  - rewrite length_take_at, (Hsh l g Hg). by rewrite length_seq.
Qed.

(** The exact counts of evaluation mode: [n / k], and one more for the
    first [n % k] classes. *)
Lemma spurious_in_test_count (self : t) (r : rng) (d : loaded) l g c :
  train self = false → load_data self r = Ok d → shuffle_valid self r →
  (l, g) ∈ partition d → 0 ≤ c < Z.of_nat (length (classes self)) →
  Z.of_nat (count_class c (spurious_in d g))
  = Z.of_nat (length g) `div` Z.of_nat (length (classes self))
    + (if decide (c < Z.of_nat (length g) `mod` Z.of_nat (length (classes self)))
       then 1 else 0).
Proof.
  intros Ht Hrun Hsh Hg Hc.
  rewrite (count_class_perm _ _ _ (spurious_in_test _ _ _ _ _ Ht Hrun Hsh Hg)).
  by apply count_class_cycle.
Qed.

Lemma for_each_assign_Err self r p mk ks st l e :
  l ∈ ks → mk l = Err e → (∀ l' e', l' ∈ ks → mk l' = Err e' → e' = e) →
  for_each (assign_group self r p mk) ks st = Err e.
Proof.
  revert st. induction ks as [|k ks IH]; intros st Hl Hmk Honly;
    [by apply elem_of_nil in Hl|].
  change (for_each (assign_group self r p mk) (k :: ks) st)
    with (assign_group self r p mk k st ≫= for_each (assign_group self r p mk) ks).
  destruct (mk k) as [bl|e'] eqn:Hk.
  - assert (assign_group self r p mk k st
            = Ok (paint_group self r bl (group_of p k) st)) as ->.
    { unfold assign_group. by rewrite Hk. }
    apply elem_of_cons in Hl as [->|Hl]; [congruence|].
    apply IH; [done|done|]. intros l' e' Hl'. apply Honly. by right.
  - assert (assign_group self r p mk k st = Err e') as ->.
    { unfold assign_group. by rewrite Hk. }
    change (Err e' = Err e :> result (list Z * list tensor3)).
    f_equal. eapply Honly; [left|done].
Qed.

Lemma comprehension_Err_only {A B} (f : A → result B) xs e (P : exn → Prop) :
  (∀ x e, f x = Err e → P e) → comprehension f xs = Err e → P e.
Proof.
  intros Hf. induction xs as [|x xs IH]; intros Hrun; [done|].
  change (comprehension f (x :: xs))
    with (f x ≫= λ y, comprehension f xs ≫= λ ys, Ok (y :: ys)) in Hrun.
  destruct (f x) as [y|e'] eqn:Hx.
  - destruct (comprehension f xs) as [ys|e'']; [done|].
    injection Hrun as <-. by apply IH.
  - injection Hrun as <-. by eapply Hf.
Qed.

Lemma py_mod_Err a b e : py_mod a b = Err e → e = ZeroDivisionError.
Proof. unfold py_mod. case_decide; [by intros [= <-]|done]. Qed.

Lemma train_group_Err self r p label st e :
  train_group self r p label st = Err e → e = ZeroDivisionError.
Proof.
  unfold train_group. intros Hrun.
  destruct (comprehension _ _) as [bl|e'] eqn:Hc; [done|].
  injection Hrun as <-.
  eapply (comprehension_Err_only _ _ _ (λ e, e = ZeroDivisionError)); [|exact Hc].
  intros i e. csimpl. destruct (bernoulli r label i); [done|].
  destruct (py_mod _ _) as [j|e''] eqn:Hm; [done|].
  intros [= <-]. by eapply py_mod_Err.
Qed.

Lemma test_group_Err self r p label st e :
  test_group self r p label st = Err e → e = ZeroDivisionError.
Proof.
  unfold test_group. intros Hrun.
  destruct (comprehension _ _) as [bl|e'] eqn:Hc; [done|].
  injection Hrun as <-.
  eapply (comprehension_Err_only _ _ _ (λ e, e = ZeroDivisionError)); [|exact Hc].
  intros i e. by apply py_mod_Err.
Qed.

(** The errors of [load_data], by the state of its configuration. *)
Lemma load_data_errors (self : t) (r : rng) :
  validate_classes (classes self) = true → train self = true →
  let s := spurious_correlation_strength self in
  ((s < 0)%Qc → load_data self r = Err (AssertionError strength_message))
  ∧ ((float32_unit_max < s)%Qc → load_data self r = Err ValueError)
  ∧ ((0 ≤ s ∧ s ≤ float32_unit_max)%Qc →
       ∀ e, load_data self r = Err e → e = ZeroDivisionError).
Proof.
  intros Hv Ht. cbv zeta. unfold load_data. rewrite Hv, Ht. csimpl.
  destruct (kept_data self) as [X labels]. split_and!.
  - intros Hs. rewrite bool_decide_false; [done|]. by apply Qclt_not_le.
  - intros Hs. rewrite bool_decide_true.
    + csimpl. by rewrite Bernoulli_init_rejects.
    + apply Qclt_le_weak. by apply Qclt_trans with float32_unit_max.
  - intros [H0 H1] e. rewrite bool_decide_true by done. csimpl.
    rewrite Bernoulli_init_accepts by done. csimpl.
    destruct (for_each _ _ _) as [st|e'] eqn:Hrun; [done|].
    intros [= <-].
    eapply (for_each_Err _ _ _ _ (λ e, e = ZeroDivisionError)); [|exact Hrun].
    intros ???. apply train_group_Err.
Qed.

Lemma partition_single_key (p : list (Z * list nat)) (n : nat) l g :
  is_exact_partition p n → (l, g) ∈ p → (∀ l' g', (l', g') ∈ p → l' = l) →
  length g = n.
Proof.
  intros Hp Hg Honly.
  destruct (exact_partition_index p n Hp) as (Hcover & Hlt & Hnd & _).
  transitivity (length (seq 0 n)); [|by rewrite length_seq].
  apply Permutation_length.
  apply NoDup_Permutation; [by eapply Hnd|apply NoDup_seq|].
  intros idx. rewrite elem_of_seq. split.
  - intros Hidx. split; [lia|]. by eapply Hlt.
  - intros [_ Hidx]. destruct (Hcover idx Hidx) as (l' & g' & Hg' & Hin).
    assert (l' = l) as -> by (by eapply Honly).
    destruct Hp as [Hkeys _].
    pose proof (dict_get_NoDup _ _ _ Hkeys Hg) as H1.
    pose proof (dict_get_NoDup _ _ _ Hkeys Hg') as H2.
    by simplify_eq.
Qed.

(** ** Masks *)

Lemma zip_fst_snd_id {A B} (l : list (A * B)) : zip l.*1 l.*2 = l.
Proof. induction l as [|[a b] l IH]; csimpl; [done|]. by rewrite IH. Qed.

Lemma foldl_set_point_replicate n ch pts :
  foldl set_point (replicate n ch) pts
  = replicate n (foldl set_channel_point ch pts).
Proof.
  revert ch. induction pts as [|rc pts IH]; intros ch; csimpl; [done|].
  unfold set_point at 2. rewrite fmap_replicate. apply IH.
Qed.

Lemma compute_mask_channels pts :
  compute_mask pts
  = replicate 3 (foldl set_channel_point (replicate 28 (replicate 28 0%Qc)) pts).
Proof.
  unfold compute_mask. rewrite zip_fst_snd_id. apply foldl_set_point_replicate.
Qed.

Lemma count_row_insert (row : list Qc) c :
  row !! c = Some 0%Qc →
  length (filter (λ v, v = 1%Qc) (<[c := 1%Qc]> row))
  = S (length (filter (λ v, v = 1%Qc) row)).
Proof.
  revert c. induction row as [|v row IH]; intros [|c] Hc; csimpl in *; try done.
  - injection Hc as ->.
    rewrite filter_cons_False; [done|].
    intros Heq. by apply Q_apart_0_1.
  - rewrite !filter_cons. case_decide; csimpl; by rewrite IH.
Qed.

Lemma count_ones_set ch rc :
  channel_entry ch rc = Some 0%Qc →
  count_ones (set_channel_point ch rc) = S (count_ones ch).
Proof.
  destruct rc as [r c]. unfold channel_entry, set_channel_point, count_ones. csimpl.
  revert r. induction ch as [|row ch IH]; intros [|r] Hrc; csimpl in *; try done.
  - rewrite !filter_app, !length_app. by rewrite count_row_insert.
  - rewrite !filter_app, !length_app, IH by done. lia.
Qed.

Lemma channel_entry_set ch rc rc' :
  rc ≠ rc' → channel_entry (set_channel_point ch rc) rc' = channel_entry ch rc'.
Proof.
  destruct rc as [r c], rc' as [r' c']. intros Hne.
  unfold channel_entry, set_channel_point. csimpl.
  destruct (decide (r = r')) as [<-|Hr].
  - rewrite list_lookup_alter_eq. destruct (ch !! r) as [row|]; csimpl; [|done].
    apply list_lookup_insert_ne. congruence.
  - by rewrite list_lookup_alter_ne.
Qed.

Lemma binary_set ch rc : binary ch → binary (set_channel_point ch rc).
Proof.
  destruct rc as [r c]. unfold binary, set_channel_point. csimpl.
  revert r. induction ch as [|row ch IH]; intros r Hb; [done|].
  apply Forall_cons in Hb as [Hrow Hb]. destruct r as [|r]; csimpl.
  - constructor; [|done]. clear -Hrow. revert c.
    induction Hrow as [|v row Hv Hrow IH]; intros [|c]; csimpl; try done.
    + constructor; [by right|done].
    + constructor; [done|apply IH].
  - constructor; [done|by apply IH].
Qed.

Lemma shape_set ch rc :
  length (set_channel_point ch rc) = length ch
  ∧ (Forall (λ row, length row = 28%nat) ch →
     Forall (λ row, length row = 28%nat) (set_channel_point ch rc)).
Proof.
  destruct rc as [r c]. unfold set_channel_point. csimpl. split.
  - apply length_alter.
  - revert r. induction ch as [|row ch IH]; intros r Hs; [done|].
    apply Forall_cons in Hs as [Hrow Hs]. destruct r as [|r]; csimpl.
    + constructor; [by rewrite length_insert|done].
    + constructor; [done|by apply IH].
Qed.

(** The channel after all points are written. *)
Lemma foldl_set_channel_spec pts ch :
  NoDup pts → binary ch → Forall (λ row, length row = 28%nat) ch →
  Forall (λ rc, channel_entry ch rc = Some 0%Qc) pts →
  let ch' := foldl set_channel_point ch pts in
  binary ch' ∧ length ch' = length ch
  ∧ Forall (λ row, length row = 28%nat) ch'
  ∧ count_ones ch' = (count_ones ch + length pts)%nat.
Proof.
  revert ch. induction pts as [|rc pts IH]; intros ch Hnd Hb Hs Hz; cbv zeta.
  - csimpl. split_and!; [done|done|done|lia].
  - csimpl. apply NoDup_cons in Hnd as [Hrc Hnd].
    apply Forall_cons in Hz as [Hz0 Hz].
    destruct (shape_set ch rc) as [Hlen Hrows].
    destruct (IH (set_channel_point ch rc)) as (Hb' & Hl' & Hs' & Hc'); [done| | | |].
    + by apply binary_set.
    + by apply Hrows.
    + rewrite Forall_forall in Hz |- *. intros rc' Hrc'.
      rewrite channel_entry_set; [by apply Hz|]. by intros ->.
    + split_and!; [done|congruence|done|].
      rewrite Hc', count_ones_set by done. lia.
Qed.

Lemma channel_entry_zeros rc :
  (rc.1 < 28)%nat → (rc.2 < 28)%nat →
  channel_entry (replicate 28 (replicate 28 0%Qc)) rc = Some 0%Qc.
Proof.
  intros Hr Hc. unfold channel_entry.
  rewrite lookup_replicate_2 by done. cbn [mbind option_bind].
  by rewrite lookup_replicate_2.
Qed.

Lemma count_ones_zeros : count_ones (replicate 28 (replicate 28 0%Qc)) = 0%nat.
Proof. by vm_compute. Qed.

(** [compute_mask] on distinct points of the canvas. *)
Lemma compute_mask_spec pts :
  NoDup pts → Forall (λ rc, (rc.1 < 28)%nat ∧ (rc.2 < 28)%nat) pts →
  ∃ ch, compute_mask pts = [ch; ch; ch]
        ∧ binary ch ∧ length ch = 28%nat ∧ Forall (λ row, length row = 28%nat) ch
        ∧ count_ones ch = length pts.
Proof.
  intros Hnd Hr. rewrite compute_mask_channels.
  eexists. split; [done|].
  destruct (foldl_set_channel_spec pts (replicate 28 (replicate 28 0%Qc)))
    as (Hb & Hl & Hs & Hc).
  - done.
  - apply Forall_replicate, Forall_replicate. by left.
  - apply Forall_replicate. by rewrite length_replicate.
  - eapply Forall_impl; [exact Hr|]. intros rc [? ?]. by apply channel_entry_zeros.
  - split_and!; [done| |done|].
    + by rewrite Hl, length_replicate.
    + by rewrite Hc, count_ones_zeros.
Qed.

Lemma elem_of_product_range a b rc :
  rc ∈ product_range a b ↔ (rc.1 < a)%nat ∧ (rc.2 < b)%nat.
Proof.
  unfold product_range. rewrite list_elem_of_bind. split.
  - intros (r & (c & ->%list_elem_of_singleton & Hc%elem_of_seq)%list_elem_of_bind
              & Hr%elem_of_seq). csimpl. lia.
  - intros [Hr Hc]. exists rc.1. split; [|apply elem_of_seq; lia].
    apply list_elem_of_bind. exists rc.2. split; [|apply elem_of_seq; lia].
    destruct rc. csimpl. left.
Qed.

Lemma length_bind_const {A B} (f : A → list B) (l : list A) m :
  (∀ x, length (f x) = m) → length (l ≫= f) = (length l * m)%nat.
Proof.
  intros Hf. induction l as [|x l IH]; csimpl; [done|].
  by rewrite length_app, Hf, IH.
Qed.

Lemma length_product_range a b : length (product_range a b) = (a * b)%nat.
Proof.
  unfold product_range. rewrite (length_bind_const _ _ b), length_seq; [done|].
  intros r. rewrite (length_bind_const _ _ 1%nat), length_seq; [lia|done].
Qed.

Lemma NoDup_product_range a b : NoDup (product_range a b).
Proof.
  unfold product_range. apply NoDup_bind.
  - intros r1 r2 rc _ _ (c1 & ->%list_elem_of_singleton & _)%list_elem_of_bind
      (c2 & [= -> _]%list_elem_of_singleton & _)%list_elem_of_bind. done.
  - intros r _. apply NoDup_bind.
    + intros c1 c2 rc _ _ ->%list_elem_of_singleton [= ->]%list_elem_of_singleton. done.
    + intros c _. apply NoDup_singleton.
    + apply NoDup_seq.
  - apply NoDup_seq.
Qed.

(** Points drawn through a permutation are distinct points of the grid. *)
Lemma take_at_randperm (all_points : list (nat * nat)) (randperm : list nat) n :
  NoDup all_points → randperm ≡ₚ seq 0 (length all_points) →
  (n ≤ length all_points)%nat →
  let pts := take_at all_points (take n randperm) in
  NoDup pts ∧ length pts = n ∧ Forall (λ rc, rc ∈ all_points) pts.
Proof.
  intros Hnd Hperm Hn. cbv zeta.
  assert (NoDup randperm) as Hndp by (rewrite Hperm; apply NoDup_seq).
  assert (∀ p, p ∈ take n randperm → (p < length all_points)%nat) as Hlt.
  { intros p Hp%elem_of_take. destruct Hp as (i & Hi & _).
    apply list_elem_of_lookup_2 in Hi. rewrite Hperm in Hi.
    apply elem_of_seq in Hi. lia. }
  split_and!.
  - unfold take_at. apply NoDup_fmap_2_strong; [|by eapply sublist_NoDup; [|apply sublist_take]].
    intros p1 p2 Hp1 Hp2 Heq.
    pose proof (list_lookup_lookup_total_lt _ _ (Hlt p1 Hp1)) as H1.
    pose proof (list_lookup_lookup_total_lt _ _ (Hlt p2 Hp2)) as H2.
    rewrite Heq in H1. exact (NoDup_lookup _ _ _ _ Hnd H1 H2).
  - rewrite length_take_at, length_take, Hperm, length_seq. lia.
  - apply Forall_forall. intros rc (p & -> & Hp)%elem_of_take_at.
    apply list_elem_of_lookup_total_2. by apply Hlt.
Qed.

(** The points that each difficulty unmasks. *)
Lemma unmask_points_spec d randperm :
  mask_randperm_valid d randperm →
  match unmask_points d randperm with
  | None => d = MAGNITUDE_EASY
  | Some pts =>
      NoDup pts ∧ length pts = unmasked_count d
      ∧ Forall (λ rc, (rc.1 < grid_side d)%nat ∧ (rc.2 < grid_side d)%nat) pts
  end.
Proof.
  intros Hperm.
  destruct d; cbn [unmask_points unmasked_count grid_side mask_randperm_valid] in *;
    [done| | | | |].
  1-3: split_and!; [apply NoDup_product_range|by rewrite length_product_range|];
       apply Forall_forall; intros rc; by rewrite elem_of_product_range.
  - destruct (take_at_randperm (product_range 14 14) randperm 49) as (H1 & H2 & H3).
    + apply NoDup_product_range.
    + by rewrite length_product_range.
    + rewrite length_product_range. lia.
    + split_and!; [done|done|]. eapply Forall_impl; [exact H3|].
      intros rc. by rewrite elem_of_product_range.
  - destruct (take_at_randperm (product_range 28 28) randperm 49) as (H1 & H2 & H3).
    + apply NoDup_product_range.
    + by rewrite length_product_range.
    + rewrite length_product_range. lia.
    + split_and!; [done|done|]. eapply Forall_impl; [exact H3|].
      intros rc. by rewrite elem_of_product_range.
Qed.

(** ** Compositing *)

Lemma zip_with_fuse {A B C D E} (f : C → B → D) (g : A → E → C) (h : B → E) a b :
  zip_with f (zip_with g a (h <$> b)) b = zip_with (λ x y, f (g x (h y)) y) a b.
Proof.
  revert b. induction a as [|x a IH]; intros [|y b]; csimpl; [done..|].
  by rewrite IH.
Qed.

Lemma composite_channels bg x : composite bg x = zip_with composite_channel bg x.
Proof.
  unfold composite, tensor_add, tensor_mul, tensor_eq0, tensor_zip_with, tensor_map.
  rewrite zip_with_fuse. apply zip_with_ext; [|done..]. intros cb cx.
  rewrite zip_with_fuse. apply zip_with_ext; [|done..]. intros rb rx.
  apply zip_with_fuse.
Qed.

Lemma composite_pixel_nonzero b v : v ≠ 0%Qc → composite_pixel b v = v.
Proof.
  intros Hv. unfold composite_pixel, is_zero. rewrite decide_False by done. ring.
Qed.

Lemma composite_pixel_zero b : composite_pixel b 0%Qc = b.
Proof. unfold composite_pixel, is_zero. rewrite decide_True by done. ring. Qed.

Lemma entry_composite bg x c i j :
  entry (composite bg x) c i j
  = b ← entry bg c i j; v ← entry x c i j; Some (composite_pixel b v).
Proof.
  rewrite composite_channels. unfold entry, composite_channel, composite_row.
  rewrite lookup_zip_with.
  destruct (bg !! c) as [cb|]; [|done]. destruct (x !! c) as [cx|]; csimpl.
  - rewrite lookup_zip_with.
    destruct (cb !! i) as [rb|]; [|done]. destruct (cx !! i) as [rx|]; csimpl.
    + rewrite lookup_zip_with.
      destruct (rb !! j) as [b|]; [|done]. by destruct (rx !! j) as [v|].
    + by destruct (rb !! j).
  - destruct (cb !! i) as [rb|]; csimpl; [|done]. by destruct (rb !! j).
Qed.

Lemma composite_row_id rb rx :
  length rb = length rx → Forall (λ v, v ≠ 0%Qc) rx → composite_row rb rx = rx.
Proof.
  revert rb. induction rx as [|v rx IH]; intros [|b rb] Hlen Hnz; try done.
  apply Forall_cons in Hnz as [Hv Hnz]. unfold composite_row in *. csimpl.
  rewrite composite_pixel_nonzero by done. f_equal. apply IH; [|done].
  by injection Hlen.
Qed.

Lemma composite_id bg x : same_shape bg x → no_zero_pixel x → composite bg x = x.
Proof.
  rewrite composite_channels. unfold same_shape, no_zero_pixel.
  induction 1 as [|cb cx bg x Hc _ IH]; intros Hnz; [done|].
  apply Forall_cons in Hnz as [Hcx Hnz]. csimpl. f_equal; [|by apply IH].
  clear -Hc Hcx. unfold composite_channel.
  induction Hc as [|rb rx cb cx Hr _ IH]; [done|].
  apply Forall_cons in Hcx as [Hrx Hcx]. csimpl. f_equal; [|by apply IH].
  by apply composite_row_id.
Qed.

Lemma same_shape_entry bg x c i j v :
  same_shape bg x → entry x c i j = Some v → ∃ b, entry bg c i j = Some b.
Proof.
  unfold entry. intros Hs Hv.
  destruct (x !! c) as [cx|] eqn:Hcx; [|done].
  destruct (Forall2_lookup_r _ _ _ _ _ Hs Hcx) as (cb & -> & Hc). csimpl in *.
  destruct (cx !! i) as [rx|] eqn:Hrx; [|done].
  destruct (Forall2_lookup_r _ _ _ _ _ Hc Hrx) as (rb & -> & Hr). csimpl in *.
  apply lookup_lt_Some in Hv. rewrite <-Hr in Hv.
  by apply lookup_lt_is_Some_2 in Hv as [b ->]; eexists.
Qed.

Lemma same_shape_3_28_28 a b : shape_3_28_28 a → shape_3_28_28 b → same_shape a b.
Proof.
  intros [Hla Ha] [Hlb Hb]. unfold same_shape.
  apply Forall2_same_length_lookup_2; [congruence|].
  intros c ca cb Hca Hcb.
  apply list_elem_of_lookup_2 in Hca, Hcb.
  rewrite Forall_forall in Ha, Hb.
  destruct (Ha ca Hca) as [Hlca Hra]. destruct (Hb cb Hcb) as [Hlcb Hrb].
  apply Forall2_same_length_lookup_2; [congruence|].
  intros i ra rb Hra' Hrb'.
  apply list_elem_of_lookup_2 in Hra', Hrb'.
  rewrite Forall_forall in Hra, Hrb.
  rewrite (Hra ra Hra'), (Hrb rb Hrb'). done.
Qed.

Lemma rgb_background_shape rgb :
  length rgb = 3%nat → shape_3_28_28 (rgb_to_mnist_background rgb).
Proof.
  intros Hl. unfold shape_3_28_28, rgb_to_mnist_background.
  rewrite length_fmap. split; [done|].
  apply Forall_fmap, Forall_forall. intros v _. cbn [compose].
  rewrite length_replicate. split; [done|].
  apply Forall_replicate. by rewrite length_replicate.
Qed.

Lemma tensor_mul_shape a b :
  shape_3_28_28 a → shape_3_28_28 b → shape_3_28_28 (tensor_mul a b).
Proof.
  intros [Hla Ha] [Hlb Hb]. unfold shape_3_28_28, tensor_mul, tensor_zip_with.
  rewrite length_zip_with, Hla, Hlb. split; [done|].
  apply Forall_lookup. intros c ch Hch.
  apply lookup_zip_with_Some in Hch as (ca & cb & -> & Hca & Hcb).
  apply list_elem_of_lookup_2 in Hca, Hcb.
  rewrite Forall_forall in Ha, Hb.
  destruct (Ha ca Hca) as [Hlca Hra]. destruct (Hb cb Hcb) as [Hlcb Hrb].
  rewrite length_zip_with, Hlca, Hlcb. split; [done|].
  apply Forall_lookup. intros i row Hrow.
  apply lookup_zip_with_Some in Hrow as (ra & rb & -> & Hra' & Hrb').
  apply list_elem_of_lookup_2 in Hra', Hrb'.
  rewrite Forall_forall in Hra, Hrb.
  rewrite length_zip_with, (Hra ra Hra'), (Hrb rb Hrb'). done.
Qed.

(** ** EIIL: the training loop *)

Section infer_groups_facts.
Context {F : Type}.
Context (one : F).
Context (d_npenalty_d_env_w : list (list F) → list Z → F → list F → nat → F).
Context (d_npenalty_d_scale : list (list F) → list Z → F → list F → F).
Context (fadd : F → F → F).
Context (adam_entry : F → nat → F * F → F → F → F * F * F).
Context (adam_zero : F * F).
Context (sigmoid_gt_half : F → bool).

Local Abbreviation train_step :=
  (train_step one d_npenalty_d_env_w d_npenalty_d_scale fadd adam_entry).
Local Abbreviation backward := (backward one d_npenalty_d_env_w d_npenalty_d_scale fadd).
Local Abbreviation optimizer_step := (optimizer_step adam_entry).
Local Abbreviation initialize := (initialize one adam_zero).
Local Abbreviation train_assignment :=
  (train_assignment one d_npenalty_d_env_w d_npenalty_d_scale fadd adam_entry adam_zero).

(** The optimizer writes the value of no parameter outside its list. *)
Lemma optimizer_step_frame (st : state (F := F)) (p : param) :
  p ∉ params (optimizer st) →
  data (leaves (optimizer_step st) p) = data (leaves st p).
Proof.
  unfold EIIL.optimizer_step.
  generalize (moments (optimizer st)) as ms. generalize (leaves st) as ls.
  induction (params (optimizer st)) as [|q qs IH]; intros ls ms Hp; [done|].
  apply not_elem_of_cons in Hp as [Hne Hp]. csimpl.
  destruct (adam_param adam_entry (optimizer st) ls q) as [l m] eqn:Hq. csimpl.
  specialize (IH (set_leaf q l ls) (λ q0, if decide (q0 = q) then m else ms q0) Hp).
  destruct (foldl _ _ qs) as [ls' ms'] eqn:Hf. csimpl in *.
  rewrite IH. unfold set_leaf. by rewrite decide_False.
Qed.

Lemma optimizer_step_params (st : state (F := F)) :
  params (optimizer (optimizer_step st)) = params (optimizer st).
Proof. unfold EIIL.optimizer_step. by destruct (foldl _ _ _). Qed.

Lemma zero_grad_data (st : state (F := F)) (p : param) :
  data (leaves (zero_grad st) p) = data (leaves st p).
Proof.
  unfold zero_grad. csimpl. generalize (leaves st) as ls.
  induction (params (optimizer st)) as [|q qs IH]; intros ls; [done|].
  csimpl. rewrite IH. unfold set_leaf. by case_decide; subst.
Qed.

Lemma backward_data logits labels (st : state (F := F)) (p : param) :
  data (leaves (backward logits labels st) p) = data (leaves st p).
Proof.
  unfold EIIL.backward, set_leaf. csimpl. by repeat case_decide; subst.
Qed.

Lemma train_step_frame logits labels (st : state (F := F)) (p : param) :
  p ∉ params (optimizer st) →
  data (leaves (train_step logits labels st) p) = data (leaves st p).
Proof.
  intros Hp. unfold EIIL.train_step.
  rewrite optimizer_step_frame by done.
  by rewrite backward_data, zero_grad_data.
Qed.

Lemma train_step_params logits labels (st : state (F := F)) :
  params (optimizer (train_step logits labels st)) = params (optimizer st).
Proof. unfold EIIL.train_step. by rewrite optimizer_step_params. Qed.

Lemma iter_params logits labels lr randn n :
  params (optimizer (Nat.iter n (train_step logits labels) (initialize logits lr randn)))
  = [env_w].
Proof. induction n as [|n IH]; [done|]. csimpl. by rewrite train_step_params. Qed.

Lemma zero_grad_env_w (st : state (F := F)) :
  params (optimizer st) = [env_w] → grad (leaves (zero_grad st) env_w) = None.
Proof.
  intros Hp. unfold zero_grad. rewrite Hp. cbn [foldl leaves].
  unfold set_leaf. by rewrite decide_True.
Qed.

Lemma backward_env_w logits labels (st : state (F := F)) :
  grad (leaves st env_w) = None →
  ∃ g, grad (leaves (backward logits labels st) env_w) = Some g
       ∧ length g = length (data (leaves st env_w)).
Proof.
  intros Hg. unfold EIIL.backward. cbn [leaves]. unfold set_leaf.
  rewrite decide_False by done. rewrite decide_True by done.
  unfold accumulate. rewrite Hg. cbn [grad]. eexists. split; [done|].
  by rewrite length_imap.
Qed.

Lemma optimizer_step_env_w n (st : state (F := F)) g :
  params (optimizer st) = [env_w] → grad (leaves st env_w) = Some g →
  length g = n → length (data (leaves st env_w)) = n →
  length (moments (optimizer st) env_w) = n →
  length (data (leaves (optimizer_step st) env_w)) = n
  ∧ length (moments (optimizer (optimizer_step st)) env_w) = n.
Proof.
  intros Hp Hg Hlg Hld Hlm. unfold EIIL.optimizer_step. rewrite Hp.
  cbn [foldl fst snd]. unfold adam_param. rewrite Hg.
  cbn [leaves optimizer moments fst snd]. unfold set_leaf.
  rewrite !decide_True by done. cbn [data].
  rewrite !length_fmap, !length_zip_with. lia.
Qed.

Lemma train_step_shape logits labels n (st : state (F := F)) :
  env_w_shape n st → env_w_shape n (train_step logits labels st).
Proof.
  intros (Hp & Hd & Hm). unfold env_w_shape.
  rewrite train_step_params. split; [done|].
  unfold EIIL.train_step.
  destruct (backward_env_w logits labels (zero_grad st) (zero_grad_env_w st Hp))
    as (g & Hg & Hlg).
  apply (optimizer_step_env_w n _ g); try done.
  - by rewrite Hlg, zero_grad_data.
  - by rewrite backward_data, zero_grad_data.
Qed.

Lemma train_assignment_shape logits labels num_steps lr randn :
  env_w_shape (length logits) (train_assignment logits labels num_steps lr randn).
Proof.
  unfold EIIL.train_assignment. induction num_steps as [|n IH].
  - csimpl. unfold env_w_shape. csimpl.
    by rewrite length_replicate, length_fmap, length_seq.
  - csimpl. by apply train_step_shape.
Qed.

Lemma length_harden (w : list F) : length (harden sigmoid_gt_half w) = length w.
Proof. apply length_fmap. Qed.

Lemma length_group_labels_of logits labels num_steps lr randn :
  length labels = length logits →
  length (group_labels_of one d_npenalty_d_env_w d_npenalty_d_scale fadd adam_entry
            adam_zero sigmoid_gt_half logits labels num_steps lr randn)
  = length logits.
Proof.
  intros Hlen. unfold group_labels_of, refine.
  rewrite length_zip_with, length_harden.
  destruct (train_assignment_shape logits labels num_steps lr randn) as (_ & -> & _).
  lia.
Qed.
End infer_groups_facts.

(** ** The claims about the dataset *)

(** Claim C1.  The group partition of each component is an exact partition
    of the index set: the true-label partition that [load_data] builds
    over its kept samples partitions [0 .. N-1] for [N] the number of kept
    samples, and it is the partition a successful [load_data] leaves in
    [self]; the partition that [infer_groups] returns for [N] samples
    partitions [0 .. N-1].  Exactness says that the keys are distinct and
    that the lists of all groups, put end to end, hold every index below
    [N] once and nothing else (read index by index in
    [exact_partition_index]). *)
Theorem C1_group_partition_exact :
  (∀ self : t,
     is_exact_partition (true_partition self) (length (kept_data self).1)
     ∧ ∀ r d, load_data self r = Ok d →
         partition d = true_partition self
         ∧ length (data_X d) = length (kept_data self).1)
  ∧ (∀ (F : Type) (one : F) dw ds fadd adam_entry adam_zero sigmoid_gt_half
       (logits : list (list F)) (labels : list Z) num_steps lr randn,
       length labels = length logits →
       is_exact_partition
         (infer_groups one dw ds fadd adam_entry adam_zero sigmoid_gt_half
            logits labels num_steps lr randn)
         (length logits)).
Proof.
  split.
  - intros self. split.
    + rewrite kept_data_length. apply true_partition_exact.
    + intros r d Hrun.
      destruct (load_data_inv _ _ _ Hrun) as (_ & _ & Hp & Hlab & _ & HX & _).
      split; [done|]. by rewrite HX, Hlab, kept_data_length.
  - intros F one dw ds fadd adam_entry adam_zero sigmoid_gt_half
      logits labels num_steps lr randn Hlen.
    unfold infer_groups.
    rewrite <-(length_group_labels_of one dw ds fadd adam_entry adam_zero sigmoid_gt_half
                 logits labels num_steps lr randn Hlen).
    apply group_partition_exact.
Qed.

(** Claim C2, amended.  In training mode, with valid classes, the
    construction fails with an error when the correlation strength is unset
    or negative, and when it exceeds one by more than [2^-24]: the unset
    default [-1] and every negative strength fail the assertion of
    [load_data]; any other strength is stored in a tensor of single
    precision, and the constructor of the Bernoulli distribution refuses it
    when the stored value is above one, which is when the strength is above
    [1 + 2^-24].  For a strength in [[0, 1]] neither error is raised; nor
    is one raised for a strength in [(1, 1 + 2^-24]], which single
    precision rounds to one.  The error is the whole result: no sample was
    changed. *)
Theorem C2_strength_checked (self : t) (r : rng) :
  train self = true → validate_classes (classes self) = true →
  let s := spurious_correlation_strength self in
  (s = unset_strength → load_data self r = Err (AssertionError strength_message))
  ∧ ((s < 0)%Qc → load_data self r = Err (AssertionError strength_message))
  ∧ ((float32_unit_max < s)%Qc → load_data self r = Err ValueError)
  ∧ ((0 ≤ s)%Qc → (1 < float32 s)%Qc ↔ (float32_unit_max < s)%Qc)
  ∧ ((0 ≤ s ∧ s ≤ 1)%Qc →
       load_data self r ≠ Err (AssertionError strength_message)
       ∧ load_data self r ≠ Err ValueError)
  ∧ ((1 < s ∧ s ≤ float32_unit_max)%Qc →
       float32 s = 1%Qc
       ∧ load_data self r ≠ Err (AssertionError strength_message)
       ∧ load_data self r ≠ Err ValueError).
Proof.
  intros Ht Hv. cbv zeta.
  destruct (load_data_errors self r Hv Ht) as (Hneg & Hbig & Hin). cbv zeta in *.
  split_and!; [|done|done| | |].
  - intros Hs. apply Hneg. rewrite Hs. done.
  - intros H0. split.
    + intros H1. apply Qcnot_le_lt. intros Hle.
      apply (float32_accepted _ H0) in Hle as [_ Hle]. by apply Qcle_not_lt in Hle.
    + intros Hmax. apply Qcnot_le_lt. intros Hle.
      assert (spurious_correlation_strength self ≤ float32_unit_max)%Qc as Hle'.
      { apply float32_accepted; [done|]. split; [by apply float32_nonneg|done]. }
      by apply Qcle_not_lt in Hle'.
  - intros [H0 H1].
    assert (0 ≤ spurious_correlation_strength self
            ∧ spurious_correlation_strength self ≤ float32_unit_max)%Qc as Hs.
    { split; [done|]. apply Qcle_trans with 1%Qc; [done|].
      apply Qclt_le_weak, float32_unit_max_gt_1. }
    split; intros He; by specialize (Hin Hs _ He).
  - intros [H1 Hmax].
    assert (0 ≤ spurious_correlation_strength self
            ∧ spurious_correlation_strength self ≤ float32_unit_max)%Qc as Hs.
    { split; [|done]. apply Qclt_le_weak. by apply Qclt_trans with 1%Qc. }
    split_and!.
    + apply float32_rounds_to_1; [by apply Qclt_le_weak|done].
    + intros He. by specialize (Hin Hs _ He).
    + intros He. by specialize (Hin Hs _ He).
Qed.

(** Claim C5.  In training mode with correlation strength one, valid
    classes and every Bernoulli draw equal to one, the construction returns
    the kept samples with their new labels, and the spurious class of every
    kept sample is its label; so a sample of latent class 0 has spurious
    class 0, not 1, and its image is composited with the background of
    [colors[0]]. *)
Theorem C5_full_correlation (self : t) (r : rng) :
  train self = true → spurious_correlation_strength self = 1%Qc →
  validate_classes (classes self) = true →
  shuffle_valid self r → bernoulli_valid (spurious_correlation_strength self) r →
  ∃ d, load_data self r = Ok d
       ∧ data_labels d = (kept_data self).2
       ∧ length (data_X d) = length (kept_data self).1
       ∧ spurious d = (kept_data self).2
       ∧ spurious d = data_labels d
       ∧ ∀ idx, (kept_data self).2 !! idx = Some 0 →
           spurious d !! idx = Some 0 ∧ spurious d !! idx ≠ Some 1
           ∧ data_X d !! idx
             = Some (composite
                       (create_background (spurious_feature_difficulty self)
                          (py_getitem (colors self) 0) (mask_randperm r idx))
                       ((kept_data self).1 !!! idx)).
Proof.
  intros Ht Hs Hv Hsh [Hb _]. specialize (Hb Hs).
  assert (∀ l g, (l, g) ∈ true_partition self →
            ∃ bl, background_label_of self r l = Ok bl
                  ∧ length bl = length g ∧ Forall (λ v, v = l) bl) as Hbl.
  { intros l g Hg. unfold background_label_of. rewrite Ht.
    apply train_background_label_aligned; [done|by apply Hsh|done]. }
  destruct (load_data_total self r) as [d Hrun]; [done| |..].
  { intros _. rewrite Hs. done. }
  { intros l ([l' g] & -> & Hg)%list_elem_of_fmap.
    destruct (Hbl l' g Hg) as (bl & ? & _). by exists bl. }
  exists d. split; [done|].
  destruct (load_data_inv _ _ _ Hrun) as (_ & _ & _ & Hkept & Hlen & HlenX & _).
  assert (∀ idx l, data_labels d !! idx = Some l →
            spurious d !! idx = Some l
            ∧ data_X d !! idx = Some (painted self r l idx ((kept_data self).1 !!! idx)))
    as Hsame.
  { intros idx l Hl.
    destruct (load_data_sample self r d idx Hrun) as (l' & g & i & bl & Hg & Hi & Hl' & Hmk & Hsp & HX).
    { by eapply lookup_lt_Some. }
    destruct (Hbl l' g Hg) as (bl' & Hmk' & Hlbl & Hall).
    assert (bl' = bl) as -> by congruence.
    assert (bl !!! i = l') as Hv'.
    { rewrite Forall_forall in Hall. apply Hall, list_elem_of_lookup_total_2.
      rewrite Hlbl. by eapply lookup_lt_Some. }
    rewrite Hv' in Hsp, HX. by simplify_eq. }
  assert (spurious d = data_labels d) as Heq.
  { apply list_eq. intros idx.
    destruct (data_labels d !! idx) as [l|] eqn:Hl.
    - by apply Hsame.
    - apply lookup_ge_None. rewrite Hlen. by apply lookup_ge_None. }
  split_and!; [done|by rewrite HlenX, Hkept, kept_data_length|congruence|done|].
  intros idx Hl. rewrite <-Hkept in Hl.
  destruct (Hsame idx 0 Hl) as [Hsp HX]. rewrite Hsp.
  split_and!; done.
Qed.

(** Claim C6.  In evaluation mode, with valid classes, the construction
    returns the true-label partition of the kept samples with a spurious
    class for each of them and, within every true-label group of [n]
    samples, each of the [k] spurious classes is given to [n / k] samples,
    and to one more for the first [n % k] classes; so the numbers of samples
    of any two spurious classes differ by at most one, whatever permutation
    shuffles the group. *)
Theorem C6_evaluation_balanced (self : t) (r : rng) :
  train self = false → validate_classes (classes self) = true →
  shuffle_valid self r →
  ∃ d, load_data self r = Ok d
       ∧ partition d = true_partition self
       ∧ length (spurious d) = length (kept_data self).1
       ∧ (∀ l g c, (l, g) ∈ partition d →
            0 ≤ c < Z.of_nat (length (classes self)) →
            Z.of_nat (count_class c (spurious_in d g))
            = Z.of_nat (length g) `div` Z.of_nat (length (classes self))
              + (if decide (c < Z.of_nat (length g) `mod` Z.of_nat (length (classes self)))
                 then 1 else 0))
       ∧ ∀ l g c1 c2, (l, g) ∈ partition d →
           0 ≤ c1 < Z.of_nat (length (classes self)) →
           0 ≤ c2 < Z.of_nat (length (classes self)) →
           (count_class c1 (spurious_in d g) ≤ count_class c2 (spurious_in d g) + 1)%nat.
Proof.
  intros Ht Hv Hsh. destruct (load_data_test_total self r Ht Hv) as [d Hrun].
  exists d. split; [done|].
  destruct (load_data_inv _ _ _ Hrun) as (_ & _ & Hp & Hkept & Hlen & _ & _).
  split_and!; [done|by rewrite Hlen, Hkept, kept_data_length| |].
  - intros l g c Hg Hc. by apply (spurious_in_test_count self r d l g c).
  - intros l g c1 c2 Hg Hc1 Hc2.
    pose proof (spurious_in_test_count self r d l g c1 Ht Hrun Hsh Hg Hc1) as H1.
    pose proof (spurious_in_test_count self r d l g c2 Ht Hrun Hsh Hg Hc2) as H2.
    repeat case_decide; lia.
Qed.

(** Claim C9.  After a construction in either mode the spurious vector
    has one entry for each kept sample, and every entry lies in [[0, k-1]]
    for [k] latent classes: none is [k], the position of the black entry
    that [init_colors] appends to the palette, and none is the placeholder
    [-1]. *)
Theorem C9_spurious_in_range :
  (∀ (self : t) (r : rng) (d : loaded),
     load_data self r = Ok d → shuffle_valid self r →
     length (spurious d) = length (kept_data self).1
     ∧ length (spurious d) = length (data_X d)
     ∧ Forall (λ v, 0 ≤ v ≤ Z.of_nat (length (classes self)) - 1
                    ∧ v ≠ Z.of_nat (length (classes self)) ∧ v ≠ -1)
         (spurious d))
  ∧ (∀ color_map classes,
       match init_colors color_map classes with
       | Ok colors =>
           length colors = S (length classes)
           ∧ colors !! length classes = Some [0; 0; 0]%Qc
       | Err _ => classes = []
       end).
Proof.
  split.
  - intros self r d Hrun Hsh.
    destruct (load_data_inv _ _ _ Hrun) as (_ & _ & Hp & Hlab & Hlen & HlenX & _).
    split_and!; [by rewrite Hlen, Hlab, kept_data_length|congruence|].
    apply Forall_lookup. intros idx v Hv.
    destruct (load_data_sample self r d idx Hrun) as (l & g & i & bl & Hg & Hi & _ & Hmk & Hsp & _).
    { rewrite <-Hlen. by eapply lookup_lt_Some. }
    assert (length bl = length g
            ∧ Forall (λ v, 0 ≤ v < Z.of_nat (length (classes self))) bl) as [Hlbl Hr].
    { unfold background_label_of in Hmk. destruct (train self).
      - by eapply train_background_label_range; [|apply Hsh|].
      - rewrite (test_background_label_Ok _ _ _ _ Hg) in Hmk. injection Hmk as <-.
        destruct (true_partition_key _ _ _ Hg) as (_ & Hl & _).
        split.
        + rewrite length_take_at, (Hsh l g Hg). by rewrite length_seq.
        + rewrite take_at_perm.
          * apply Forall_fmap, Forall_forall. intros j _. csimpl.
            apply Z.mod_pos_bound. lia.
          * rewrite length_fmap, length_seq. by apply Hsh. }
    assert (v = bl !!! i) as -> by congruence.
    rewrite Forall_forall in Hr.
    assert (0 ≤ bl !!! i < Z.of_nat (length (classes self))); [|lia].
    apply Hr, list_elem_of_lookup_total_2. rewrite Hlbl. by eapply lookup_lt_Some.
  - intros color_map classes. unfold init_colors. case_decide as Hk.
    + by destruct classes.
    + split.
      * rewrite length_app, length_fmap, length_seq. csimpl. lia.
      * rewrite lookup_app_r; rewrite length_fmap, length_seq; [|done].
        by rewrite Nat.sub_diag.
Qed.

(** Claim C10.  In training mode with one latent class and a correlation
    strength in [[0, 1)], a Bernoulli draw equal to zero for one of the kept
    samples makes the construction raise [ZeroDivisionError]: the list of
    other labels is empty and [i % 0] is evaluated. *)
Theorem C10_single_class_fails (self : t) (r : rng) (i : nat) :
  train self = true → length (classes self) = 1%nat →
  validate_classes (classes self) = true →
  (0 ≤ spurious_correlation_strength self ∧ spurious_correlation_strength self < 1)%Qc →
  (i < length (kept_data self).2)%nat → bernoulli r 0 i = false →
  load_data self r = Err ZeroDivisionError.
Proof.
  intros Ht Hk Hv [H0 H1] Hi Hb.
  pose proof (true_partition_exact self) as Hp.
  assert (∀ l g, (l, g) ∈ true_partition self → l = 0) as Hzero.
  { intros l g Hg. destruct (true_partition_key _ _ _ Hg) as (_ & Hl & _). lia. }
  destruct (exact_partition_index _ _ Hp) as (Hcover & _).
  destruct (Hcover i Hi) as (l & g & Hg & _).
  assert (l = 0) as -> by (by eapply Hzero).
  assert (length g = length (kept_data self).2) as Hlen.
  { eapply partition_single_key; [exact Hp|exact Hg|]. intros l' g' Hg'. by eapply Hzero. }
  assert (train_background_label self r (true_partition self) 0 = Err ZeroDivisionError) as Hmk.
  { unfold train_background_label. rewrite (group_of_true_partition _ _ _ Hg), Hk.
    rewrite (comprehension_Err _ _ i ZeroDivisionError); [done| | |].
    - apply elem_of_seq. lia.
    - by rewrite Hb.
    - intros j e _. destruct (bernoulli r 0 j); [done|].
      destruct (py_mod _ _) as [x|e'] eqn:Hm; [done|].
      intros [= <-]. by eapply py_mod_Err. }
  unfold load_data. rewrite Hv, Ht. csimpl.
  pose proof Hp as Hp'. unfold true_partition in Hg.
  destruct (kept_data self) as [X labels] eqn:Hkd.
  rewrite bool_decide_true by done. csimpl.
  rewrite Bernoulli_init_accepts;
    [|done|by apply Qclt_le_weak, Qclt_trans with 1%Qc; [|apply float32_unit_max_gt_1]].
  csimpl.
  rewrite (for_each_ext _ (assign_group self r (true_partition self)
                             (train_background_label self r (true_partition self))))
    by (intros; apply train_group_assign).
  rewrite (for_each_assign_Err _ _ _ _ _ _ 0 ZeroDivisionError); [done| |done|].
  - apply list_elem_of_fmap. exists (0, g). split; [done|].
    unfold true_partition. by rewrite Hkd.
  - intros l' e' _ Hl'. unfold train_background_label in Hl'.
    destruct (comprehension _ _) as [bl|e''] eqn:Hc; [done|].
    injection Hl' as <-.
    eapply (comprehension_Err_only _ _ _ (λ e, e = ZeroDivisionError)); [|exact Hc].
    intros j e. csimpl. destruct (bernoulli r l' j); [done|].
    destruct (py_mod _ _) as [x|e3] eqn:Hm; [done|].
    intros [= <-]. by eapply py_mod_Err.
Qed.



(** ** The claims about backgrounds and about EIIL *)

Lemma entry_rgb_background (rgb : list Qc) c i j :
  (i < 28)%nat → (j < 28)%nat →
  entry (rgb_to_mnist_background rgb) c i j = float32 <$> rgb !! c.
Proof.
  intros Hi Hj. unfold entry, rgb_to_mnist_background.
  rewrite list_lookup_fmap. destruct (rgb !! c) as [v|]; [|done].
  cbn [fmap option_fmap option_map mbind option_bind].
  rewrite lookup_replicate_2 by done. cbn [mbind option_bind].
  by rewrite lookup_replicate_2.
Qed.

(** The background that [load_data] composites has the shape of an
    image, so [same_shape] holds between it and an image of MNIST. *)
Lemma create_background_shape d rgb randperm :
  length rgb = 3%nat → mask_randperm_valid d randperm →
  shape_3_28_28 (create_background d rgb randperm).
Proof.
  intros Hl Hperm. unfold create_background.
  pose proof (unmask_points_spec d randperm Hperm) as Hpts.
  destruct (unmask_points d randperm) as [pts|]; [|by apply rgb_background_shape].
  destruct Hpts as (Hnd & _ & Hgrid).
  apply tensor_mul_shape; [by apply rgb_background_shape|].
  destruct (compute_mask_spec pts Hnd) as (ch & -> & _ & Hlen & Hrows & _).
  { eapply Forall_impl; [exact Hgrid|]. intros rc [H1 H2].
    assert (grid_side d ≤ 28)%nat by (destruct d; cbn [grid_side]; lia). lia. }
  split; [done|]. by repeat constructor.
Qed.

(** Claim C3.  Compositing a background onto an image of the same shape
    keeps every entry of the image that is not zero, puts the entry of the
    background where the image is zero, and returns the image unchanged
    when the image has no zero entry.  This is the step of [load_data]: the
    image it stores for a kept sample is the composite of the background
    of the sample's spurious class and of the image the sample had. *)
Theorem C3_composite_keeps_foreground :
  (∀ background x : tensor3,
     same_shape background x →
     (∀ c i j v, entry x c i j = Some v → v ≠ 0%Qc →
        entry (composite background x) c i j = Some v)
     ∧ (∀ c i j, entry x c i j = Some 0%Qc →
          entry (composite background x) c i j = entry background c i j)
     ∧ (no_zero_pixel x → composite background x = x))
  ∧ (∀ (self : t) (r : rng) (d : loaded) (idx : nat),
       load_data self r = Ok d → (idx < length (data_X d))%nat →
       data_X d !! idx
       = Some (composite
                 (create_background (spurious_feature_difficulty self)
                    (py_getitem (colors self) (spurious d !!! idx))
                    (mask_randperm r idx))
                 ((kept_data self).1 !!! idx))).
Proof.
  split.
  - intros background x Hs. split_and!.
    + intros c i j v Hv Hnz. rewrite entry_composite, Hv.
      destruct (same_shape_entry _ _ _ _ _ _ Hs Hv) as [b ->]. csimpl.
      by rewrite composite_pixel_nonzero.
    + intros c i j Hv. rewrite entry_composite, Hv.
      destruct (same_shape_entry _ _ _ _ _ _ Hs Hv) as [b ->]. csimpl.
      by rewrite composite_pixel_zero.
    + by apply composite_id.
  - intros self r d idx Hrun Hidx.
    destruct (load_data_inv _ _ _ Hrun) as (_ & _ & _ & _ & _ & HlenX & _).
    destruct (load_data_sample self r d idx Hrun)
      as (l & g & i & bl & _ & _ & _ & _ & Hsp & HX); [by rewrite <-HlenX|].
    by rewrite HX, (list_lookup_total_correct _ _ _ Hsp).
Qed.

(** Claim C4.  For every difficulty but [MAGNITUDE_EASY] the mask is
    made of three equal [28 x 28] channels with entries 0 or 1, and the
    entries equal to 1 are as many as the unmasked points, which are
    distinct points of the grid of the difficulty: 16 of the [4 x 4] grid,
    4 of the [2 x 2] grid, 49 of the [7 x 7] grid, 49 of the [14 x 14]
    grid, 49 of the [28 x 28] grid.  [MAGNITUDE_EASY] makes no mask and
    returns the colour, as single precision holds it, on the full canvas. *)
Theorem C4_mask_point_count (d : SpuriousFeatureDifficulty) (rgb : list Qc)
    (randperm : list nat) :
  mask_randperm_valid d randperm →
  match unmask_points d randperm with
  | None =>
      d = MAGNITUDE_EASY
      ∧ create_background d rgb randperm = rgb_to_mnist_background rgb
      ∧ ∀ c i j, (i < 28)%nat → (j < 28)%nat →
          entry (create_background d rgb randperm) c i j = float32 <$> rgb !! c
  | Some pts =>
      d ≠ MAGNITUDE_EASY
      ∧ NoDup pts
      ∧ length pts = unmasked_count d
      ∧ Forall (λ rc, (rc.1 < grid_side d)%nat ∧ (rc.2 < grid_side d)%nat) pts
      ∧ create_background d rgb randperm
        = tensor_mul (rgb_to_mnist_background rgb) (compute_mask pts)
      ∧ ∃ ch, compute_mask pts = [ch; ch; ch]
              ∧ binary ch
              ∧ length ch = 28%nat ∧ Forall (λ row, length row = 28%nat) ch
              ∧ count_ones ch = unmasked_count d
  end.
Proof.
  intros Hperm. pose proof (unmask_points_spec d randperm Hperm) as Hpts.
  unfold create_background.
  destruct (unmask_points d randperm) as [pts|] eqn:Hu.
  - destruct Hpts as (Hnd & Hlen & Hgrid).
    split_and!; [by intros ->|done|done|done|done|].
    destruct (compute_mask_spec pts Hnd) as (ch & Hch & Hb & Hl & Hrows & Hc).
    { eapply Forall_impl; [exact Hgrid|]. intros rc [H1 H2].
      assert (grid_side d ≤ 28)%nat by (destruct d; csimpl; lia). lia. }
    exists ch. split_and!; try done. congruence.
  - split_and!; [done|done|]. intros c i j Hi Hj. by apply entry_rgb_background.
Qed.

Section EIIL_claims.
Context {F : Type}.
Context (one : F).
Context (d_npenalty_d_env_w : list (list F) → list Z → F → list F → nat → F).
Context (d_npenalty_d_scale : list (list F) → list Z → F → list F → F).
Context (fadd : F → F → F).
Context (adam_entry : F → nat → F * F → F → F → F * F * F).
Context (adam_zero : F * F).
Context (sigmoid_gt_half : F → bool).

Local Abbreviation train_assignment' :=
  (train_assignment one d_npenalty_d_env_w d_npenalty_d_scale fadd adam_entry adam_zero).
Local Abbreviation group_labels_of' :=
  (group_labels_of one d_npenalty_d_env_w d_npenalty_d_scale fadd adam_entry adam_zero
     sigmoid_gt_half).
Local Abbreviation infer_groups' :=
  (infer_groups one d_npenalty_d_env_w d_npenalty_d_scale fadd adam_entry adam_zero
     sigmoid_gt_half).

(** Claim C7.  For every sample of [infer_groups], with [raw] the hardened
    assignment (1 when the sigmoid of the weight exceeds one half, else 0),
    the final group is [raw + 2] when the label is 1 and [raw] otherwise;
    it is one of 0, 1, 2, 3, each standing for one combination of the
    environment and of the label being 1, and the sample is listed in the
    group of that id in the returned partition. *)
Theorem C7_label_one_adds_two (logits : list (list F)) (labels : list Z)
    (num_steps : nat) (learning_rate : F) (randn : nat → F) :
  length labels = length logits →
  ∀ i, (i < length logits)%nat →
    ∃ w l,
      data (leaves (train_assignment' logits labels num_steps learning_rate randn) env_w) !! i
        = Some w
      ∧ labels !! i = Some l
      ∧ let raw := if sigmoid_gt_half w then 1 else 0 in
        let final := if decide (l = 1) then raw + 2 else raw in
        harden sigmoid_gt_half
          (data (leaves (train_assignment' logits labels num_steps learning_rate randn) env_w))
          !! i = Some raw
        ∧ group_labels_of' logits labels num_steps learning_rate randn !! i = Some final
        ∧ (final = 0 ∨ final = 1 ∨ final = 2 ∨ final = 3)
        ∧ (final = 0 ↔ sigmoid_gt_half w = false ∧ l ≠ 1)
        ∧ (final = 1 ↔ sigmoid_gt_half w = true ∧ l ≠ 1)
        ∧ (final = 2 ↔ sigmoid_gt_half w = false ∧ l = 1)
        ∧ (final = 3 ↔ sigmoid_gt_half w = true ∧ l = 1)
        ∧ ∃ g, (final, g) ∈ infer_groups' logits labels num_steps learning_rate randn
               ∧ i ∈ g.
Proof.
  intros Hlen i Hi.
  destruct (train_assignment_shape one d_npenalty_d_env_w d_npenalty_d_scale fadd
              adam_entry adam_zero logits labels num_steps learning_rate randn)
    as (_ & Hw & _).
  destruct (lookup_lt_is_Some_2 _ i (eq_ind_r (λ n, (i < n)%nat) Hi Hw)) as [w Hwi].
  destruct (lookup_lt_is_Some_2 labels i (eq_ind_r (λ n, (i < n)%nat) Hi Hlen)) as [l Hl].
  exists w, l. split; [done|]. split; [done|]. cbv zeta.
  assert (harden sigmoid_gt_half
            (data (leaves (train_assignment' logits labels num_steps learning_rate randn) env_w))
            !! i = Some (if sigmoid_gt_half w then 1 else 0)) as Hraw.
  { unfold harden. by rewrite list_lookup_fmap, Hwi. }
  assert (group_labels_of' logits labels num_steps learning_rate randn !! i
          = Some (if decide (l = 1)
                  then (if sigmoid_gt_half w then 1 else 0) + 2
                  else if sigmoid_gt_half w then 1 else 0)) as Hfinal.
  { unfold group_labels_of, refine. rewrite lookup_zip_with, Hraw. csimpl.
    by rewrite Hl. }
  split; [done|]. split; [done|].
  split; [destruct (sigmoid_gt_half w); case_decide; lia|].
  split; [destruct (sigmoid_gt_half w); case_decide; split; intros; try lia; naive_solver|].
  split; [destruct (sigmoid_gt_half w); case_decide; split; intros; try lia; naive_solver|].
  split; [destruct (sigmoid_gt_half w); case_decide; split; intros; try lia; naive_solver|].
  split; [destruct (sigmoid_gt_half w); case_decide; split; intros; try lia; naive_solver|].
  unfold infer_groups.
  destruct (group_partition_spec (group_labels_of' logits labels num_steps learning_rate randn))
    as (_ & _ & Hlab & _ & _). cbv zeta in Hlab.
  destruct (exact_partition_index _ _
              (group_partition_exact (group_labels_of' logits labels num_steps learning_rate randn)))
    as (Hcover & _).
  destruct (Hcover i) as (l' & g & Hg & Hin); [by eapply lookup_lt_Some|].
  exists g. split; [|done].
  pose proof (Hlab l' g i Hg Hin) as Hl'. rewrite Hfinal in Hl'. by simplify_eq.
Qed.

(** Claim C8.  After any number of iterations of the training loop the
    optimizer still tracks the single parameter [env_w], and the value of
    [scale] is its initial value 1. *)
Theorem C8_scale_never_updated (logits : list (list F)) (labels : list Z)
    (learning_rate : F) (randn : nat → F) (num_steps : nat) :
  let st := train_assignment one d_npenalty_d_env_w d_npenalty_d_scale fadd
              adam_entry adam_zero logits labels num_steps learning_rate randn in
  params (optimizer st) = [env_w] ∧ data (leaves st scale) = [one].
Proof.
  cbv zeta. unfold train_assignment. split; [apply iter_params|].
  induction num_steps as [|n IH]; [done|].
  rewrite Nat.iter_succ. rewrite train_step_frame; [done|].
  rewrite iter_params. by intros [= ]%list_elem_of_singleton.
Qed.

End EIIL_claims.


(** ** The claims at concrete inputs *)

Lemma example_true_partition tr s :
  true_partition (example_dataset tr s) = [(0, [0; 3]%nat); (1, [1; 2]%nat)].
Proof. by vm_compute. Qed.

Lemma example_shuffle_valid tr s draw :
  shuffle_valid (example_dataset tr s) (example_rng draw).
Proof.
  intros l g Hg. rewrite example_true_partition in Hg.
  apply elem_of_cons in Hg as [[= -> ->]|Hg]; [apply perm_swap|].
  apply elem_of_cons in Hg as [[= -> ->]|Hg]; [apply perm_swap|].
  by apply elem_of_nil in Hg.
Qed.

(** The partitions of the example dataset and of the example inference are exact. *)
Lemma C1_witness :
  is_exact_partition (true_partition (example_dataset false unset_strength)) 4
  ∧ is_exact_partition example_groups 3.
Proof.
  split.
  - exact (proj1 (proj1 C1_group_partition_exact (example_dataset false unset_strength))).
  - apply (proj2 C1_group_partition_exact). reflexivity.
Defined.

(** The example dataset in training mode: unset strength, strength 3/2,
    strength 1, and strength [1 + 2^-30]. *)
Lemma C2_witness :
  load_data (example_dataset true unset_strength) (example_rng true)
    = Err (AssertionError strength_message)
  ∧ load_data (example_dataset true (Q2Qc (3 # 2))) (example_rng true) = Err ValueError
  ∧ load_data (example_dataset true 1%Qc) (example_rng true) ≠ Err ValueError
  ∧ load_data (example_dataset true (Q2Qc (1073741825 # 1073741824))) (example_rng true)
    ≠ Err ValueError.
Proof.
  split_and!.
  - exact (proj1 (C2_strength_checked (example_dataset true unset_strength)
                    (example_rng true) eq_refl eq_refl) eq_refl).
  - exact (proj1 (proj2 (proj2 (C2_strength_checked (example_dataset true (Q2Qc (3 # 2)))
                                  (example_rng true) eq_refl eq_refl))) eq_refl).
  - destruct (C2_strength_checked (example_dataset true 1%Qc) (example_rng true)
                eq_refl eq_refl) as (_ & _ & _ & _ & Hin & _).
    apply Hin. split; by vm_compute.
  - destruct (C2_strength_checked (example_dataset true (Q2Qc (1073741825 # 1073741824)))
                (example_rng true) eq_refl eq_refl) as (_ & _ & _ & _ & _ & Hin).
    apply Hin. split; [reflexivity|by vm_compute].
Defined.

(** The claim as it was stated fails at the strength [1 + 2^-30], a Python
    float outside the unit interval: single precision rounds it to one, and
    the construction of the example dataset in training mode returns. *)
Lemma C2_counterexample :
  let self := example_dataset true (Q2Qc (1073741825 # 1073741824)) in
  train self = true ∧ validate_classes (classes self) = true
  ∧ (1 < spurious_correlation_strength self)%Qc
  ∧ float32 (spurious_correlation_strength self) = 1%Qc
  ∧ ∃ d, load_data self (example_rng true) = Ok d.
Proof.
  cbv zeta. split_and!; [reflexivity|reflexivity|reflexivity| |].
  - apply Qc_is_canon. reflexivity.
  - destruct (load_data _ _) as [d|e] eqn:Hd; [by exists d|].
    vm_compute in Hd. discriminate Hd.
Qed.

(** An image without zero entries is left as it is by a corner background. *)
Lemma C3_witness :
  composite (create_background MAGNITUDE_HARD [1; 0; 0]%Qc [])
    (example_image (Q2Qc (1 # 2)))
  = example_image (Q2Qc (1 # 2)).
Proof.
  apply (proj1 C3_composite_keeps_foreground
           (create_background MAGNITUDE_HARD [1; 0; 0]%Qc [])
           (example_image (Q2Qc (1 # 2)))).
  - unfold same_shape. apply (bool_decide_unpack _). by vm_compute.
  - unfold no_zero_pixel. apply (bool_decide_unpack _). by vm_compute.
Defined.

(** The mask of [VARIANCE_MEDIUM] under the reversed order of the grid. *)
Lemma C4_witness :
  ∃ pts ch, unmask_points VARIANCE_MEDIUM (rev (seq 0 196)) = Some pts
            ∧ compute_mask pts = [ch; ch; ch] ∧ binary ch ∧ count_ones ch = 49%nat.
Proof.
  pose proof (C4_mask_point_count VARIANCE_MEDIUM [] (rev (seq 0 196))
                (Permutation_sym (Permutation_rev (seq 0 196)))) as Hc.
  destruct (unmask_points VARIANCE_MEDIUM (rev (seq 0 196))) as [pts|].
  - destruct Hc as (_ & _ & _ & _ & _ & ch & Hch & Hb & _ & _ & Hcount).
    by exists pts, ch.
  - by destruct Hc as [[=] _].
Defined.

(** The example dataset in training mode with strength one. *)
Lemma C5_witness :
  ∃ d, load_data (example_dataset true 1%Qc) (example_rng true) = Ok d
       ∧ spurious d = data_labels d.
Proof.
  destruct (C5_full_correlation (example_dataset true 1%Qc) (example_rng true))
    as (d & Hd & _ & _ & _ & Hs & _).
  - reflexivity.
  - reflexivity.
  - reflexivity.
  - apply example_shuffle_valid.
  - split; [reflexivity|]. intros H01. exfalso. by apply Q_apart_0_1.
  - by exists d.
Defined.

(** The example dataset in evaluation mode. *)
Lemma C6_witness :
  ∃ d, load_data (example_dataset false unset_strength) (example_rng true) = Ok d
       ∧ length (spurious d) = 4%nat
       ∧ (∀ l g c, (l, g) ∈ partition d → 0 ≤ c < 2 →
            Z.of_nat (count_class c (spurious_in d g)) = 1)
       ∧ ∀ l g c1 c2, (l, g) ∈ partition d → 0 ≤ c1 < 2 → 0 ≤ c2 < 2 →
           (count_class c1 (spurious_in d g) ≤ count_class c2 (spurious_in d g) + 1)%nat.
Proof.
  destruct (C6_evaluation_balanced (example_dataset false unset_strength) (example_rng true))
    as (d & Hd & Hp & Hlen & Hcount & Hbal).
  - reflexivity.
  - reflexivity.
  - apply example_shuffle_valid.
  - exists d. split_and!; [exact Hd|exact Hlen| |exact Hbal].
    intros l g c Hg Hc. rewrite (Hcount l g c Hg Hc).
    rewrite Hp, example_true_partition in Hg.
    assert (Z.of_nat (length (classes (example_dataset false unset_strength))) = 2)
      as -> by reflexivity.
    apply elem_of_cons in Hg as [[= -> ->]|Hg].
    { change (Z.of_nat (length [0; 3]%nat)) with 2.
      change (2 `div` 2) with 1. change (2 `mod` 2) with 0. case_decide; lia. }
    apply elem_of_cons in Hg as [[= -> ->]|Hg].
    { change (Z.of_nat (length [1; 2]%nat)) with 2.
      change (2 `div` 2) with 1. change (2 `mod` 2) with 0. case_decide; lia. }
    by apply elem_of_nil in Hg.
Defined.

(** The first sample of the example inference has label 1 and ends in group 2. *)
Lemma C7_witness : ∃ g, (2, g) ∈ example_groups ∧ 0%nat ∈ g.
Proof.
  destruct (C7_label_one_adds_two (F := Z) 1 (λ _ _ _ _ _, 1) (λ _ _ _ _, 0) Z.add
              (λ lr _ m w g, (m, w - lr * g)) (0, 0) (λ w, bool_decide (0 < w))
              example_logits example_labels 2 1 (λ i, 2 * Z.of_nat i) eq_refl 0%nat)
    as (w & l & Hw & Hl & _ & _ & _ & _ & _ & _ & _ & g & Hg & Hin).
  - vm_compute. lia.
  - vm_compute in Hw. vm_compute in Hl. injection Hw as <-. injection Hl as <-.
    exists g. split; [exact Hg|exact Hin].
Defined.

(** The example dataset in training mode with strength one half and draws of zero. *)
Lemma C9_witness :
  match load_data (example_dataset true (Q2Qc (1 # 2))) (example_rng false) with
  | Ok d => Forall (λ v, 0 ≤ v ≤ 1 ∧ v ≠ 2 ∧ v ≠ -1) (spurious d)
  | Err _ => False
  end.
Proof.
  destruct (load_data (example_dataset true (Q2Qc (1 # 2))) (example_rng false))
    as [d|e] eqn:Hd.
  - apply (proj1 C9_spurious_in_range (example_dataset true (Q2Qc (1 # 2)))
             (example_rng false) d Hd).
    apply example_shuffle_valid.
  - vm_compute in Hd. discriminate Hd.
Defined.

(** One latent class, strength one half, draws of zero. *)
Lemma C10_witness :
  load_data example_single_class (example_rng false) = Err ZeroDivisionError.
Proof.
  apply (C10_single_class_fails example_single_class (example_rng false) 0%nat).
  - reflexivity.
  - reflexivity.
  - reflexivity.
  - split; by vm_compute.
  - vm_compute. lia.
  - reflexivity.
Defined.


(** * Further properties of the code *)

(** ** Valid classes *)

Lemma existsb_false_Forall {A} (f : A → bool) (l : list A) :
  existsb f l = false ↔ Forall (λ x, f x = false) l.
Proof.
  induction l as [|x l IH]; csimpl; [by split; [constructor|]|].
  rewrite orb_false_iff, IH, Forall_cons. done.
Qed.

Lemma validate_classes_cons s rest :
  validate_classes (s :: rest) = true
  ↔ Forall (λ x, 0 ≤ x ≤ 9) s
    ∧ Forall (λ s', Forall (λ x, x ∉ s') s) rest
    ∧ validate_classes rest = true.
Proof.
  cbn [validate_classes].
  destruct (existsb (λ x, (x <? 0) || (9 <? x)) s) eqn:Hr.
  - split; [done|]. intros (Hs & _ & _). exfalso.
    assert (existsb (λ x, (x <? 0) || (9 <? x)) s = false) as Hf; [|congruence].
    apply existsb_false_Forall. eapply Forall_impl; [exact Hs|].
    intros x Hx. cbv beta in Hx. apply orb_false_iff. split; apply Z.ltb_ge; lia.
  - apply existsb_false_Forall in Hr.
    assert (Forall (λ x, 0 ≤ x ≤ 9) s) as Hs.
    { eapply Forall_impl; [exact Hr|]. intros x [H1 H2]%orb_false_iff.
      apply Z.ltb_ge in H1. apply Z.ltb_ge in H2. lia. }
    destruct (existsb (λ s', existsb (λ x, bool_decide (x ∈ s')) s) rest) eqn:Hd.
    + split; [done|]. intros (_ & Hdis & _). exfalso.
      assert (existsb (λ s', existsb (λ x, bool_decide (x ∈ s')) s) rest = false) as Hf;
        [|congruence].
      apply existsb_false_Forall. eapply Forall_impl; [exact Hdis|].
      intros s' Hs'. apply existsb_false_Forall. eapply Forall_impl; [exact Hs'|].
      intros x Hx. by apply bool_decide_eq_false.
    + apply existsb_false_Forall in Hd. split.
      * intros Hv. split_and!; [done| |done].
        eapply Forall_impl; [exact Hd|]. intros s' Hs'%existsb_false_Forall.
        eapply Forall_impl; [exact Hs'|]. intros x Hx. by apply bool_decide_eq_false in Hx.
      * by intros (_ & _ & Hv).
Qed.

Lemma validate_classes_valid classes :
  validate_classes classes = true → classes_valid classes.
Proof.
  induction classes as [|s rest IH]; intros Hv.
  - split; [constructor|]. by intros i j ci cj x _ ?.
  - apply validate_classes_cons in Hv as (Hs & Hdis & Hv).
    destruct (IH Hv) as [Hrange Hrest]. split; [by constructor|].
    intros [|i] [|j] ci cj x Hij Hi Hj Hx; try lia; csimpl in *.
    + simplify_eq. rewrite Forall_forall in Hdis.
      pose proof (Hdis cj (list_elem_of_lookup_2 _ _ _ Hj)) as Hcj.
      rewrite Forall_forall in Hcj. by apply Hcj.
    + eapply Hrest; [|exact Hi|exact Hj|exact Hx]. lia.
Qed.

(** Property X1.  [validate_classes] answers whether the classes are valid:
    every label of every class within [0..9], and no label in two classes. *)
Theorem X1_validate_classes_iff (classes : list (list Z)) :
  validate_classes classes = true ↔ classes_valid classes.
Proof.
  split; [apply validate_classes_valid|].
  induction classes as [|s rest IH]; intros [Hrange Hdis]; [done|].
  apply Forall_cons in Hrange as [Hs Hrange].
  apply validate_classes_cons. split_and!; [done| |].
  - apply Forall_lookup. intros j cj Hj. apply Forall_forall. intros x Hx.
    by apply (Hdis 0%nat (S j) s cj x); [lia|..].
  - apply IH. split; [done|]. intros i j ci cj x Hij Hi Hj.
    apply (Hdis (S i) (S j)); [lia|done|done].
Qed.


(** ** The partition loop in closed form *)

Lemma filter_ext_elem {A} (P Q : A → Prop) `{∀ x, Decision (P x)} `{∀ x, Decision (Q x)}
    (l : list A) :
  (∀ x, x ∈ l → (P x ↔ Q x)) → filter P l = filter Q l.
Proof.
  induction l as [|x l IH]; intros Hpq; [done|].
  rewrite !filter_cons.
  destruct (decide (P x)) as [Hp|Hp], (decide (Q x)) as [Hq|Hq].
  - f_equal. apply IH. intros y Hy. apply Hpq. by right.
  - exfalso. apply Hq, Hpq; [left|done].
  - exfalso. apply Hp, Hpq; [left|done].
  - apply IH. intros y Hy. apply Hpq. by right.
Qed.

Lemma positions_of_snoc l labels x :
  positions_of l (labels ++ [x])
  = positions_of l labels ++ (if decide (x = l) then [length labels] else []).
Proof.
  unfold positions_of. rewrite length_app. csimpl.
  rewrite Nat.add_1_r, seq_S, filter_app. csimpl. f_equal.
  - apply filter_ext_elem. intros i Hi%elem_of_seq.
    by rewrite lookup_app_l by lia.
  - rewrite filter_cons, filter_nil. rewrite list_lookup_middle by done.
    destruct (decide (x = l)) as [->|Hne].
    + by rewrite decide_True.
    + rewrite decide_False; [done|]. by intros [= ?].
Qed.

Lemma positions_of_absent l labels : l ∉ labels → positions_of l labels = [].
Proof.
  intros Hl. unfold positions_of.
  induction (seq 0 (length labels)) as [|i ps IH]; [done|].
  rewrite filter_cons, decide_False; [done|].
  intros Hi. by apply Hl, (list_elem_of_lookup_2 _ i).
Qed.

Lemma first_occurrences_snoc labels x :
  first_occurrences (labels ++ [x])
  = if decide (x ∈ first_occurrences labels) then first_occurrences labels
    else first_occurrences labels ++ [x].
Proof. unfold first_occurrences. by rewrite foldl_app. Qed.

Lemma first_occurrences_spec labels :
  NoDup (first_occurrences labels)
  ∧ ∀ l, l ∈ first_occurrences labels ↔ l ∈ labels.
Proof.
  induction labels as [|x labels [Hnd Hin]] using rev_ind.
  - split; [constructor|done].
  - rewrite first_occurrences_snoc. case_decide as Hx.
    + split; [done|]. intros l. rewrite elem_of_app, list_elem_of_singleton, Hin.
      split; [by left|]. intros [Hl| ->]; [done|]. by apply Hin.
    + split.
      * apply NoDup_app. split_and!; [done| |apply NoDup_singleton].
        by intros l Hl ->%list_elem_of_singleton.
      * intros l. rewrite !elem_of_app, Hin. done.
Qed.

Lemma dict_alter_fmap_keys (G : Z → list nat) (f : list nat → list nat) x ks :
  NoDup ks →
  dict_alter f x ((λ l, (l, G l)) <$> ks)
  = (λ l, (l, if decide (l = x) then f (G l) else G l)) <$> ks.
Proof.
  induction ks as [|k ks IH]; intros Hnd; [done|].
  apply NoDup_cons in Hnd as [Hk Hnd]. csimpl. case_decide as Hkx.
  - subst. f_equal.
    apply list_fmap_ext. intros i l Hl. rewrite decide_False; [done|].
    intros ->. by apply Hk, (list_elem_of_lookup_2 _ i).
  - f_equal. by apply IH.
Qed.

(** The dictionary that the partition loop builds, in closed form. *)
Lemma group_partition_closed (labels : list Z) :
  group_partition labels
  = (λ l, (l, positions_of l labels)) <$> first_occurrences labels.
Proof.
  induction labels as [|x labels IH] using rev_ind; [done|].
  rewrite group_partition_snoc, IH.
  destruct (first_occurrences_spec labels) as [Hnd Hin].
  rewrite first_occurrences_snoc. unfold partition_step, dict_mem, dict_new.
  rewrite <-list_fmap_compose. unfold compose. csimpl. rewrite list_fmap_id.
  destruct (decide (x ∈ first_occurrences labels)) as [Hx|Hx].
  - rewrite bool_decide_true by done.
    rewrite dict_alter_fmap_keys by done.
    apply list_fmap_ext. intros i l Hl. rewrite positions_of_snoc.
    destruct (decide (l = x)) as [->|Hne].
    + by rewrite decide_True.
    + rewrite (decide_False (P := x = l)) by done. by rewrite app_nil_r.
  - rewrite bool_decide_false by done.
    assert (((λ l, (l, positions_of l labels)) <$> first_occurrences labels) ++ [(x, [])]
            = (λ l, (l, positions_of l labels)) <$> (first_occurrences labels ++ [x])) as ->.
    { rewrite fmap_app. csimpl. rewrite positions_of_absent; [done|]. by rewrite <-Hin. }
    rewrite dict_alter_fmap_keys.
    + apply list_fmap_ext. intros i l Hl. rewrite positions_of_snoc.
      destruct (decide (l = x)) as [->|Hne].
      * by rewrite decide_True.
      * rewrite (decide_False (P := x = l)) by done. by rewrite app_nil_r.
    + apply NoDup_app. split_and!; [done| |apply NoDup_singleton].
      by intros l Hl ->%list_elem_of_singleton.
Qed.



Lemma filter_seq_ascending (P : nat → Prop) `{∀ x, Decision (P x)} (n : nat) :
  ∀ i j a b, filter P (seq 0 n) !! i = Some a → filter P (seq 0 n) !! j = Some b →
    (i < j)%nat → (a < b)%nat.
Proof.
  induction n as [|n IH]; intros i j a b Ha Hb Hij; [done|].
  rewrite seq_S, filter_app in Ha, Hb. csimpl in *.
  assert (∀ k c, filter P (seq 0 n) !! k = Some c → (c < n)%nat) as Hlt.
  { intros k c Hc. apply list_elem_of_lookup_2, list_elem_of_filter in Hc as [_ Hc].
    apply elem_of_seq in Hc. lia. }
  assert (∀ k c, filter P [n] !! k = Some c → c = n ∧ k = 0%nat) as Hlast.
  { intros k c. rewrite filter_cons, filter_nil. case_decide; [|done].
    intros [-> ->]%list_lookup_singleton_Some. done. }
  apply lookup_app_Some in Ha as [Ha|[Hia Ha]], Hb as [Hb|[Hjb Hb]].
  - by eapply IH.
  - apply Hlast in Hb as [-> _]. by eapply Hlt.
  - apply lookup_lt_Some in Hb. lia.
  - apply Hlast in Ha as [_ Ha]. apply Hlast in Hb as [_ Hb]. lia.
Qed.

(** Property X2.  The partition loop of [load_data] and of [infer_groups], in closed
    form: the keys are the distinct labels in the order of their first
    occurrence, and the list of a key holds, in ascending order, the
    positions that carry the key and no other. *)
Theorem X2_partition_closed_form (labels : list Z) :
  group_partition labels
    = (λ l, (l, positions_of l labels)) <$> first_occurrences labels
  ∧ NoDup (first_occurrences labels)
  ∧ (∀ l, l ∈ first_occurrences labels ↔ l ∈ labels)
  ∧ (∀ l i, i ∈ positions_of l labels ↔ labels !! i = Some l)
  ∧ (∀ l i j a b, positions_of l labels !! i = Some a →
       positions_of l labels !! j = Some b → (i < j)%nat → (a < b)%nat).
Proof.
  split; [apply group_partition_closed|].
  split; [apply first_occurrences_spec|].
  split; [apply first_occurrences_spec|].
  split.
  - intros l i. unfold positions_of. rewrite list_elem_of_filter, elem_of_seq.
    split; [by intros [? _]|]. intros Hi. split; [done|].
    apply lookup_lt_Some in Hi. lia.
  - intros l. apply filter_seq_ascending.
Qed.


(** ** Relabelling *)

Lemma classes_valid_in_one_class label classes :
  classes_valid classes → in_one_class label classes.
Proof.
  intros [_ Hdis] j1 j2 c1 c2 H1 H2 Hl1 Hl2.
  destruct (Nat.lt_trichotomy j1 j2) as [Hlt|[?|Hlt]]; [|done|].
  - exfalso. by eapply (Hdis j1 j2 c1 c2 label).
  - exfalso. by eapply (Hdis j2 j1 c2 c1 label).
Qed.

Lemma relabel_classes_from label i off cls st :
  in_one_class label cls →
  foldl (relabel_class label i) st (imap (λ j c, ((off + j)%nat, c)) cls)
  = match list_find (λ c, label ∈ c) cls with
    | Some (j, _) => (<[i := Z.of_nat (off + j)]> st.1, st.2 ++ [i])
    | None => st
    end.
Proof.
  revert off st. induction cls as [|c cls IH]; intros off st Hone; [done|].
  assert (in_one_class label cls) as Hone'.
  { intros j1 j2 c1 c2 H1 H2 Hl1 Hl2.
    assert (S j1 = S j2) as Heq by (eapply (Hone (S j1) (S j2) c1 c2); done). lia. }
  cbn [imap foldl list_find].
  rewrite (imap_ext _ (λ j c', ((S off + j)%nat, c')))
    by (intros j c' _; cbn; f_equal; lia).
  rewrite (IH (S off) _ Hone'). unfold relabel_class at 1.
  destruct (decide (label ∈ c)) as [Hc|Hc].
  - rewrite bool_decide_true by done.
    destruct (list_find (λ c0, label ∈ c0) cls) as [[j c']|] eqn:Hf.
    + apply list_find_Some in Hf as (Hj & Hc' & _).
      assert (0%nat = S j) by (by eapply (Hone 0%nat (S j) c c')). lia.
    + cbn. rewrite ?bool_decide_true by done. by rewrite Nat.add_0_r.
  - rewrite bool_decide_false by done.
    destruct (list_find (λ c0, label ∈ c0) cls) as [[j c']|]; cbn;
      rewrite ?bool_decide_false by done; [|done].
    by rewrite Nat.add_succ_r.
Qed.

Lemma relabel_sample_valid classes st i label :
  classes_valid classes →
  relabel_sample classes st (i, label)
  = match class_of classes label with
    | Some c => (<[i := Z.of_nat c]> st.1, st.2 ++ [i])
    | None => st
    end.
Proof.
  intros Hv. unfold relabel_sample, enumerate, class_of.
  pose proof (relabel_classes_from label i 0 classes st
                (classes_valid_in_one_class label classes Hv)) as Hfold.
  cbn [Nat.add] in Hfold. rewrite Hfold.
  by destruct (list_find _ classes) as [[j c]|].
Qed.

(** What "Get New Labels" has done after a prefix of the samples. *)
Lemma get_new_labels_prefix classes (pre suf : list (list (list (list Qc)) * Z)) :
  classes_valid classes →
  let st := foldl (relabel_sample classes) ((pre ++ suf).*2, []) (enumerate pre.*2) in
  length st.1 = length (pre ++ suf)
  ∧ Forall (λ i, (i < length pre)%nat) st.2
  ∧ take_at st.1 st.2 = omap (λ xl, Z.of_nat <$> class_of classes xl.2) pre
  ∧ take_at (pre ++ suf).*1 st.2
    = omap (λ xl, (λ _, xl.1) <$> class_of classes xl.2) pre.
Proof.
  intros Hv. revert suf. induction pre as [|[x l] pre IH] using rev_ind; intros suf.
  - cbv zeta. csimpl. by rewrite length_fmap.
  - cbv zeta. rewrite (fmap_app snd pre [(x, l)]).
    change (snd <$> [(x, l)]) with [l].
    rewrite enumerate_snoc, foldl_app. cbn [foldl].
    specialize (IH ([(x, l)] ++ suf)). cbv zeta in IH.
    rewrite (assoc_L (++)) in IH. destruct IH as (Hlen & Hlt & Hlab & HX).
    rewrite length_fmap. rewrite relabel_sample_valid by done.
    rewrite !omap_app. cbn [omap list_omap fst snd].
    assert (((pre ++ [(x, l)]) ++ suf).*1 !!! length pre = x) as Hx.
    { apply list_lookup_total_correct.
      rewrite <-(assoc_L (++)), fmap_app.
      rewrite lookup_app_r by (by rewrite length_fmap).
      by rewrite length_fmap, Nat.sub_diag. }
    destruct (class_of classes l) as [c|]; cbn [fmap option_fmap option_map fst snd].
    + rewrite length_insert. split_and!.
      * done.
      * apply Forall_app. split.
        -- eapply Forall_impl; [exact Hlt|]. intros i Hi. rewrite length_app. cbn in *. lia.
        -- apply Forall_singleton. rewrite length_app. cbn. lia.
      * unfold take_at in *. rewrite fmap_app. cbn [fmap list_fmap]. f_equal.
        -- rewrite <-Hlab. apply Forall_fmap_ext. eapply Forall_impl; [exact Hlt|].
           intros i Hi. cbn beta in *. by rewrite list_lookup_total_insert_ne by lia.
        -- f_equal. apply list_lookup_total_insert_eq.
           rewrite Hlen, !length_app. cbn. lia.
      * unfold take_at in *. rewrite fmap_app, HX. cbn [fmap list_fmap].
        by rewrite Hx.
    + rewrite !app_nil_r. split_and!; [done| |done|done].
      eapply Forall_impl; [exact Hlt|]. intros i Hi. rewrite length_app. cbn in *. lia.
Qed.

Lemma class_of_Some classes label c :
  classes_valid classes →
  class_of classes label = Some c ↔ ∃ cl, classes !! c = Some cl ∧ label ∈ cl.
Proof.
  intros Hv. unfold class_of. split.
  - destruct (list_find _ classes) as [[j cl]|] eqn:Hf; [|done].
    intros [= <-]. apply list_find_Some in Hf as (Hj & Hl & _). by exists cl.
  - intros (cl & Hc & Hl).
    destruct (list_find (λ c0, label ∈ c0) classes) as [[j cl']|] eqn:Hf.
    + apply list_find_Some in Hf as (Hj & Hl' & _). csimpl. f_equal.
      by eapply (classes_valid_in_one_class label classes Hv j c cl' cl).
    + apply list_find_None in Hf. rewrite Forall_forall in Hf.
      exfalso. eapply Hf; [|exact Hl]. by eapply list_elem_of_lookup_2.
Qed.

(** Property X3.  With valid classes, relabelling is a stable filter: the kept samples
    are, in their order and once each, the samples whose raw label is in a
    class; a kept sample keeps its image until the backgrounds are
    composited, and its new label, which a construction returns, is the
    position of the class that holds its raw label. *)
Theorem X3_kept_data_stable_filter (self : t) :
  validate_classes (classes self) = true →
  (kept_data self).1
    = omap (λ xl, (λ _, xl.1) <$> class_of (classes self) xl.2) (mnist self)
  ∧ (kept_data self).2
    = omap (λ xl, Z.of_nat <$> class_of (classes self) xl.2) (mnist self)
  ∧ (∀ label c, class_of (classes self) label = Some c
                ↔ ∃ cl, classes self !! c = Some cl ∧ label ∈ cl)
  ∧ (∀ r d, load_data self r = Ok d →
       data_labels d
       = omap (λ xl, Z.of_nat <$> class_of (classes self) xl.2) (mnist self)).
Proof.
  intros Hv%validate_classes_valid.
  pose proof (get_new_labels_prefix (classes self) (mnist self) [] Hv) as Hpre.
  cbv zeta in Hpre. rewrite app_nil_r in Hpre.
  destruct Hpre as (_ & _ & Hlab & HX).
  assert ((kept_data self).2
          = omap (λ xl, Z.of_nat <$> class_of (classes self) xl.2) (mnist self)) as Hl.
  { unfold kept_data, get_new_labels. by destruct (foldl _ _ _) as [labels kept]. }
  split_and!.
  - unfold kept_data, get_new_labels. by destruct (foldl _ _ _) as [labels kept].
  - done.
  - intros label c. by apply class_of_Some.
  - intros r d Hrun.
    destruct (load_data_inv _ _ _ Hrun) as (_ & _ & _ & -> & _). done.
Qed.


(** ** The training loop *)

Lemma NoDup_class_range (k : nat) : NoDup (Z.of_nat <$> seq 0 k).
Proof. apply NoDup_fmap_2; [apply _|apply NoDup_seq]. Qed.

Lemma other_labels_of_spec (self : t) (label : Z) :
  NoDup (other_labels_of self label)
  ∧ (∀ c, c ∈ other_labels_of self label
          ↔ c ≠ label ∧ 0 ≤ c < Z.of_nat (length (classes self)))
  ∧ (length (classes self) - 1 ≤ length (other_labels_of self label))%nat.
Proof.
  unfold other_labels_of. split_and!.
  - apply NoDup_filter, NoDup_class_range.
  - intros c. rewrite list_elem_of_filter, list_elem_of_fmap. split.
    + intros (Hne & i & -> & Hi%elem_of_seq). split; [done|lia].
    + intros (Hne & Hc). split; [done|]. exists (Z.to_nat c).
      split; [lia|]. apply elem_of_seq. lia.
  - pose proof (filter_app_complement (λ x, x ≠ label)
                  (Z.of_nat <$> seq 0 (length (classes self)))) as Hperm.
    apply Permutation_length in Hperm.
    rewrite length_app, length_fmap, length_seq in Hperm.
    pose proof (NoDup_filter (λ x, ¬ x ≠ label) _ (NoDup_class_range (length (classes self))))
      as Hnd.
    assert (∀ x, x ∈ filter (λ x, ¬ x ≠ label)
                   (Z.of_nat <$> seq 0 (length (classes self))) → x = label) as Heq.
    { intros x [Hx _]%list_elem_of_filter. by destruct (decide (x = label)). }
    revert Hperm Hnd Heq.
    generalize (filter (λ x, ¬ x ≠ label) (Z.of_nat <$> seq 0 (length (classes self)))).
    intros [|a [|b rest]] Hperm Hnd Heq; cbn in Hperm; [lia|lia|].
    exfalso. apply NoDup_cons in Hnd as [Hab _]. apply Hab.
    rewrite (Heq a), (Heq b); [left|right; left|left].
Qed.

(** With an other label to turn to, the training loop makes its list. *)
Lemma train_background_label_cycle (self : t) (r : rng) l g :
  (l, g) ∈ true_partition self → other_labels_of self l ≠ [] →
  train_background_label self r (true_partition self) l
  = Ok (take_at (train_cycle self r l (length g)) (shuffle r l)).
Proof.
  intros Hg Hne. unfold train_background_label.
  rewrite (group_of_true_partition _ _ _ Hg).
  fold (other_labels_of self l). unfold train_cycle.
  rewrite (comprehension_Ok _ (λ i : nat,
     if bernoulli r l i then l
     else py_getitem (other_labels_of self l)
            (Z.of_nat i `mod` Z.of_nat (length (other_labels_of self l))))); [done|].
  intros i _. destruct (bernoulli r l i); [done|].
  unfold py_mod. rewrite decide_False; [done|].
  destruct (other_labels_of self l); [done|]. csimpl. lia.
Qed.

Lemma train_background_label_inv (self : t) (r : rng) l g bl :
  (l, g) ∈ true_partition self →
  train_background_label self r (true_partition self) l = Ok bl →
  bl = take_at (train_cycle self r l (length g)) (shuffle r l).
Proof.
  intros Hg Hrun.
  destruct (decide (other_labels_of self l = [])) as [Hnil|Hne].
  - unfold train_background_label in Hrun.
    rewrite (group_of_true_partition _ _ _ Hg) in Hrun.
    fold (other_labels_of self l) in Hrun.
    apply bind_Ok_inv in Hrun as (bl0 & Hc%comprehension_inv & [= <-]).
    f_equal. unfold train_cycle.
    apply list_eq. intros i. rewrite list_lookup_fmap.
    destruct (seq 0 (length g) !! i) as [j|] eqn:Hj.
    + destruct (Forall2_lookup_l _ _ _ _ _ Hc Hj) as (y & -> & Hy). csimpl.
      destruct (bernoulli r l j); [by simplify_eq|].
      rewrite Hnil in Hy. by cbn in Hy.
    + csimpl. apply lookup_ge_None. apply lookup_ge_None in Hj.
      by rewrite <-(Forall2_length _ _ _ Hc).
  - rewrite (train_background_label_cycle _ _ _ g) in Hrun by done. by injection Hrun.
Qed.

Lemma two_classes_other_labels (self : t) l :
  (2 ≤ length (classes self))%nat → other_labels_of self l ≠ [].
Proof.
  intros Hk Hnil. destruct (other_labels_of_spec self l) as (_ & _ & Hlen).
  rewrite Hnil in Hlen. csimpl in Hlen. lia.
Qed.

(** How many entries of the training list are the label. *)
Lemma count_class_train_cycle (self : t) (r : rng) l n :
  other_labels_of self l ≠ [] ∨ (∀ i, (i < n)%nat → bernoulli r l i = true) →
  count_class l (train_cycle self r l n)
  = length (filter (λ i, bernoulli r l i = true) (seq 0 n)).
Proof.
  intros Hok. unfold train_cycle, count_class.
  induction n as [|n IH]; [done|].
  rewrite seq_S, fmap_app, !filter_app, !length_app.
  rewrite IH by (destruct Hok as [?|Hall]; [by left|right; intros i Hi; apply Hall; lia]).
  f_equal. csimpl. rewrite !filter_cons, !filter_nil.
  destruct (bernoulli r l n) eqn:Hb.
  - by rewrite !decide_True.
  - destruct Hok as [Hne|Hall]; [|by rewrite Hall in Hb by lia].
    rewrite (decide_False (P := false = true)) by done.
    rewrite decide_False; [done|].
    destruct (other_labels_of_spec self l) as (_ & Hin & _).
    assert (py_getitem (other_labels_of self l)
              (Z.of_nat n `mod` Z.of_nat (length (other_labels_of self l)))
            ∈ other_labels_of self l) as Hmem.
    { apply py_getitem_nonneg. apply Z.mod_pos_bound.
      destruct (other_labels_of self l); [done|]. csimpl. lia. }
    apply Hin in Hmem as [Hne' _]. done.
Qed.



Lemma train_background_label_draws (self : t) (r : rng) l g bl :
  (l, g) ∈ true_partition self →
  train_background_label self r (true_partition self) l = Ok bl →
  other_labels_of self l ≠ [] ∨ (∀ i, (i < length g)%nat → bernoulli r l i = true).
Proof.
  intros Hg Hrun.
  destruct (decide (other_labels_of self l = [])) as [Hnil|Hne]; [right|by left].
  unfold train_background_label in Hrun.
  rewrite (group_of_true_partition _ _ _ Hg) in Hrun.
  fold (other_labels_of self l) in Hrun.
  apply bind_Ok_inv in Hrun as (bl0 & Hc%comprehension_inv & _).
  intros i Hi.
  destruct (Forall2_lookup_l _ _ _ _ _ Hc (lookup_seq_lt 0 _ _ Hi)) as (y & _ & Hy).
  cbn in Hy. destruct (bernoulli r l i); [done|].
  rewrite Hnil in Hy. by cbn in Hy.
Qed.

(** The spurious classes of a group after a construction in training
    mode. *)
Lemma spurious_in_train (self : t) (r : rng) (d : loaded) l g :
  train self = true → load_data self r = Ok d → shuffle_valid self r →
  (l, g) ∈ partition d →
  spurious_in d g ≡ₚ train_cycle self r l (length g)
  ∧ (other_labels_of self l ≠ [] ∨ (∀ i, (i < length g)%nat → bernoulli r l i = true)).
Proof.
  intros Ht Hrun Hsh Hg.
  destruct (load_data_inv _ _ _ Hrun) as (_ & _ & Hp & _ & _ & _ & Hw).
  destruct (Hw l g Hg) as (bl & Hbl & Hwr). rewrite Hp in Hg.
  unfold background_label_of in Hbl. rewrite Ht in Hbl.
  split; [|by eapply train_background_label_draws].
  rewrite (train_background_label_inv _ _ _ _ _ Hg Hbl) in Hwr.
  rewrite (spurious_in_group d g _ (λ i idx Hi, proj1 (Hwr i idx Hi))).
  - apply take_at_perm. unfold train_cycle. rewrite length_fmap, length_seq.
    by apply Hsh.
  - rewrite length_take_at, (Hsh l g Hg). by rewrite length_seq.
Qed.

Lemma load_data_train_total (self : t) (r : rng) :
  train self = true → validate_classes (classes self) = true →
  (0 ≤ spurious_correlation_strength self ∧ spurious_correlation_strength self ≤ 1)%Qc →
  (2 ≤ length (classes self))%nat →
  ∃ d, load_data self r = Ok d.
Proof.
  intros Ht Hv [H0 H1] Hk. apply load_data_total; [done| |].
  { intros _. split; [done|]. apply Qcle_trans with 1%Qc; [done|].
    apply Qclt_le_weak, float32_unit_max_gt_1. }
  intros l ([l' g] & -> & Hg)%list_elem_of_fmap. csimpl.
  unfold background_label_of. rewrite Ht.
  rewrite (train_background_label_cycle _ _ _ g); [by eexists|done|].
  by apply two_classes_other_labels.
Qed.

Lemma count_class_getitem (other : list Z) c jc vs :
  NoDup other → other !! jc = Some c →
  Forall (λ v, 0 ≤ v < Z.of_nat (length other)) vs →
  count_class c (py_getitem other <$> vs) = count_class (Z.of_nat jc) vs.
Proof.
  intros Hnd Hjc Hvs. unfold count_class.
  induction Hvs as [|v vs Hv _ IH]; [done|].
  csimpl. rewrite !filter_cons.
  assert (py_getitem other v = c ↔ v = Z.of_nat jc) as Hiff.
  { unfold py_getitem. rewrite decide_False by lia.
    assert (other !! Z.to_nat v = Some (other !!! Z.to_nat v)) as Hv'
      by (apply list_lookup_lookup_total_lt; lia).
    split.
    - intros Heq. rewrite Heq in Hv'.
      pose proof (NoDup_lookup _ _ _ _ Hnd Hv' Hjc). lia.
    - intros ->. rewrite Nat2Z.id. by apply list_lookup_total_correct. }
  destruct (decide (py_getitem other v = c)) as [H1|H1],
           (decide (v = Z.of_nat jc)) as [H2|H2]; csimpl; try by rewrite IH.
  - by apply Hiff in H1.
  - by apply Hiff in H2.
Qed.

Lemma train_cycle_all_zero (self : t) (r : rng) l n :
  (∀ i, bernoulli r l i = false) →
  train_cycle self r l n
  = py_getitem (other_labels_of self l)
      <$> ((λ i : nat, Z.of_nat i `mod` Z.of_nat (length (other_labels_of self l)))
             <$> seq 0 n).
Proof.
  intros Hb. unfold train_cycle. rewrite <-list_fmap_compose.
  apply list_fmap_ext. intros i j _. cbn. by rewrite Hb.
Qed.

(** Property X4.  In training mode with at least two latent classes, valid classes and
    a correlation strength in [[0, 1]], the construction returns, whatever
    is drawn. *)
Theorem X4_training_returns (self : t) (r : rng) :
  train self = true → validate_classes (classes self) = true →
  (0 ≤ spurious_correlation_strength self ∧ spurious_correlation_strength self ≤ 1)%Qc →
  (2 ≤ length (classes self))%nat →
  ∃ d, load_data self r = Ok d.
Proof. apply load_data_train_total. Qed.

(** Property X5.  After a construction in training mode the spurious classes of a group
    are, up to the shuffle, the label where the Bernoulli draw is one and
    else the other labels taken in turn by position; so the samples of a
    group whose spurious class is their label are as many as the draws
    equal to one. *)
Theorem X5_training_aligned_count (self : t) (r : rng) (d : loaded) l g :
  train self = true → load_data self r = Ok d → shuffle_valid self r →
  (l, g) ∈ partition d →
  spurious_in d g ≡ₚ train_cycle self r l (length g)
  ∧ count_class l (spurious_in d g)
    = length (filter (λ i, bernoulli r l i = true) (seq 0 (length g))).
Proof.
  intros Ht Hrun Hsh Hg.
  destruct (spurious_in_train self r d l g Ht Hrun Hsh Hg) as [Hperm Hok].
  split; [done|].
  rewrite (count_class_perm _ _ _ Hperm). by apply count_class_train_cycle.
Qed.

(** Property X6.  In training mode with correlation strength zero and at least two
    latent classes, no sample receives its own label as spurious class,
    and within a group any two other classes are given to numbers of
    samples that differ by at most one. *)
Theorem X6_zero_strength_anti_aligned (self : t) (r : rng) :
  train self = true → spurious_correlation_strength self = 0%Qc →
  validate_classes (classes self) = true → (2 ≤ length (classes self))%nat →
  shuffle_valid self r → bernoulli_valid (spurious_correlation_strength self) r →
  ∃ d, load_data self r = Ok d
       ∧ ∀ l g, (l, g) ∈ partition d →
           count_class l (spurious_in d g) = 0%nat
           ∧ ∀ c1 c2, c1 ≠ l → c2 ≠ l →
               0 ≤ c1 < Z.of_nat (length (classes self)) →
               0 ≤ c2 < Z.of_nat (length (classes self)) →
               (count_class c1 (spurious_in d g)
                ≤ count_class c2 (spurious_in d g) + 1)%nat.
Proof.
  intros Ht Hs Hv Hk Hsh [_ Hb]. specialize (Hb Hs).
  destruct (load_data_train_total self r Ht Hv) as [d Hrun]; [by rewrite Hs|done|].
  exists d. split; [done|]. intros l g Hg.
  destruct (spurious_in_train self r d l g Ht Hrun Hsh Hg) as [Hperm _].
  pose proof (two_classes_other_labels self l Hk) as Hne.
  split.
  - rewrite (count_class_perm _ _ _ Hperm).
    rewrite count_class_train_cycle by (by left).
    induction (seq 0 (length g)) as [|i ps IH]; [done|].
    rewrite filter_cons, decide_False; [done|]. by rewrite Hb.
  - intros c1 c2 Hc1 Hc2 Hr1 Hr2.
    destruct (other_labels_of_spec self l) as (Hnd & Hin & _).
    assert (0 < Z.of_nat (length (other_labels_of self l))) as Hpos.
    { destruct (other_labels_of self l); [done|]. csimpl. lia. }
    assert (∀ c, c ≠ l → 0 ≤ c < Z.of_nat (length (classes self)) →
              ∃ j, 0 ≤ j < Z.of_nat (length (other_labels_of self l)) ∧
                Z.of_nat (count_class c (spurious_in d g))
                = Z.of_nat (length g) `div` Z.of_nat (length (other_labels_of self l))
                  + (if decide (j < Z.of_nat (length g)
                                      `mod` Z.of_nat (length (other_labels_of self l)))
                     then 1 else 0)) as Hcount.
    { intros c Hc Hr.
      assert (c ∈ other_labels_of self l) as Hmem by (by apply Hin).
      apply list_elem_of_lookup_1 in Hmem as [jc Hjc].
      pose proof (lookup_lt_Some _ _ _ Hjc) as Hlt.
      exists (Z.of_nat jc). split; [lia|].
      rewrite (count_class_perm _ _ _ Hperm), train_cycle_all_zero by done.
      rewrite (count_class_getitem _ c jc) by
        (try done; apply Forall_fmap, Forall_forall; intros i _; cbn;
         apply Z.mod_pos_bound; lia).
      apply count_class_cycle. lia. }
    destruct (Hcount c1 Hc1 Hr1) as (j1 & _ & H1).
    destruct (Hcount c2 Hc2 Hr2) as (j2 & _ & H2).
    repeat case_decide; lia.
Qed.


(** ** The entries of masks and backgrounds *)

Lemma channel_entry_set_eq ch rc :
  (rc.1 < length ch)%nat → Forall (λ row, length row = 28%nat) ch → (rc.2 < 28)%nat →
  channel_entry (set_channel_point ch rc) rc = Some 1%Qc.
Proof.
  destruct rc as [r c]. cbn [fst snd]. intros Hr Hrows Hc.
  unfold channel_entry, set_channel_point. cbn [fst snd].
  rewrite list_lookup_alter_eq.
  destruct (lookup_lt_is_Some_2 ch r Hr) as [row Hrow]. rewrite Hrow.
  cbn [fmap option_fmap option_map mbind option_bind].
  apply list_lookup_insert_eq.
  rewrite Forall_forall in Hrows.
  rewrite (Hrows row (list_elem_of_lookup_2 _ _ _ Hrow)). done.
Qed.

Lemma foldl_set_channel_entry pts ch rc :
  length ch = 28%nat → Forall (λ row, length row = 28%nat) ch →
  (rc.1 < 28)%nat → (rc.2 < 28)%nat →
  channel_entry (foldl set_channel_point ch pts) rc
  = if decide (rc ∈ pts) then Some 1%Qc else channel_entry ch rc.
Proof.
  revert ch. induction pts as [|p pts IH]; intros ch Hlen Hrows Hr Hc.
  - cbn [foldl]. rewrite decide_False; [done|]. by intros ?%elem_of_nil.
  - cbn [foldl]. destruct (shape_set ch p) as [Hlen' Hrows'].
    rewrite IH; [|congruence|by apply Hrows'|done|done].
    destruct (decide (rc ∈ pts)) as [Hin|Hnotin].
    + rewrite decide_True; [done|by right].
    + destruct (decide (p = rc)) as [->|Hne].
      * rewrite decide_True by left.
        apply channel_entry_set_eq; [lia|done|done].
      * rewrite decide_False by (intros [?|?]%elem_of_cons; done).
        by apply channel_entry_set.
Qed.

Lemma entry_channel (a : list (list (list Qc))) c i j :
  entry a c i j = a !! c ≫= λ ch, channel_entry ch (i, j).
Proof. done. Qed.

Lemma entry_compute_mask pts c i j :
  (c < 3)%nat → (i < 28)%nat → (j < 28)%nat →
  entry (compute_mask pts) c i j
  = Some (if decide ((i, j) ∈ pts) then 1%Qc else 0%Qc).
Proof.
  intros Hc Hi Hj. rewrite entry_channel, compute_mask_channels.
  rewrite lookup_replicate_2 by done. cbn [mbind option_bind].
  rewrite foldl_set_channel_entry.
  - case_decide; [done|]. by apply channel_entry_zeros.
  - by rewrite length_replicate.
  - apply Forall_replicate. by rewrite length_replicate.
  - done.
  - done.
Qed.

Lemma entry_tensor_zip_with f a b c i j :
  entry (tensor_zip_with f a b) c i j
  = x ← entry a c i j; y ← entry b c i j; Some (f x y).
Proof.
  unfold entry, tensor_zip_with. rewrite lookup_zip_with.
  destruct (a !! c) as [ca|]; [|done]. destruct (b !! c) as [cb|]; csimpl.
  - rewrite lookup_zip_with.
    destruct (ca !! i) as [ra|]; [|done]. destruct (cb !! i) as [rb|]; csimpl.
    + rewrite lookup_zip_with.
      destruct (ra !! j) as [x|]; [|done]. by destruct (rb !! j) as [y|].
    + by destruct (ra !! j).
  - destruct (ca !! i) as [ra|]; csimpl; [|done]. by destruct (ra !! j).
Qed.

(** Property X7.  The entries of the background of a colour of three
    components within the finite range of single precision: the component
    of the channel, as single precision holds it, at the points that the
    difficulty unmasks, zero at the others.  The four difficulties without
    random draws unmask the top-left square of their side, and the two with
    random draws unmask points of their square only. *)
Theorem X7_background_entries (d : SpuriousFeatureDifficulty) (rgb : list Qc)
    (randperm : list nat) (c i j : nat) (v : Qc) :
  mask_randperm_valid d randperm →
  length rgb = 3%nat → Forall float32_finite rgb →
  rgb !! c = Some v → (i < 28)%nat → (j < 28)%nat →
  entry (create_background d rgb randperm) c i j
    = Some (if unmasked_at d randperm i j then float32 v else 0%Qc)
  ∧ (unmasked_at d randperm i j = true → (i < grid_side d)%nat ∧ (j < grid_side d)%nat)
  ∧ (d ≠ VARIANCE_MEDIUM → d ≠ VARIANCE_HARD →
     (i < grid_side d)%nat → (j < grid_side d)%nat → unmasked_at d randperm i j = true).
Proof.
  intros Hperm Hlen _ Hv Hi Hj.
  assert (c < 3)%nat as Hc by (rewrite <-Hlen; by eapply lookup_lt_Some).
  pose proof (unmask_points_spec d randperm Hperm) as Hpts.
  unfold create_background, unmasked_at.
  destruct (unmask_points d randperm) as [pts|] eqn:Hu.
  - destruct Hpts as (_ & _ & Hgrid). split_and!.
    + unfold tensor_mul. rewrite entry_tensor_zip_with.
      rewrite entry_rgb_background, Hv by done.
      cbn [fmap option_fmap option_map mbind option_bind].
      rewrite entry_compute_mask by done. cbn [mbind option_bind]. f_equal.
      case_bool_decide.
      * rewrite decide_True by done. ring.
      * rewrite decide_False by done. ring.
    + intros Hin%bool_decide_eq_true. rewrite Forall_forall in Hgrid.
      by apply (Hgrid (i, j)).
    + intros Hm Hh Hgi Hgj. apply bool_decide_eq_true.
      destruct d; try done; cbn [unmask_points] in Hu; simplify_eq;
        by apply elem_of_product_range.
  - subst d. split_and!; [|done|done].
    by rewrite entry_rgb_background, Hv.
Qed.


(** ** Compositing twice, and the black background *)

Lemma zip_with_idemp {A B} (f : A → B → B) (a : list A) (b : list B) :
  (∀ x y, f x (f x y) = f x y) → zip_with f a (zip_with f a b) = zip_with f a b.
Proof.
  intros Hf. revert b. induction a as [|x a IH]; intros [|y b]; csimpl; [done..|].
  by rewrite Hf, IH.
Qed.

Lemma composite_pixel_idemp b v :
  composite_pixel b (composite_pixel b v) = composite_pixel b v.
Proof.
  destruct (decide (v = 0%Qc)) as [->|Hv].
  - rewrite composite_pixel_zero. destruct (decide (b = 0%Qc)) as [->|Hb].
    + apply composite_pixel_zero.
    + by apply composite_pixel_nonzero.
  - rewrite (composite_pixel_nonzero b v) by done. by apply composite_pixel_nonzero.
Qed.

(** Property X8.  Compositing the same background a second time changes nothing. *)
Theorem X8_composite_idempotent (background x : list (list (list Qc))) :
  composite background (composite background x) = composite background x.
Proof.
  rewrite !composite_channels. apply zip_with_idemp. intros cb cx.
  unfold composite_channel. apply zip_with_idemp. intros rb rx.
  unfold composite_row. apply zip_with_idemp. apply composite_pixel_idemp.
Qed.

Lemma Forall_zip_with_l {A B C} (P : A → Prop) (Q : C → Prop) (f : A → B → C) a b :
  (∀ x y, P x → Q (f x y)) → Forall P a → Forall Q (zip_with f a b).
Proof.
  intros Hf Ha. revert b. induction Ha as [|x a Hx _ IH]; intros [|y b]; csimpl;
    constructor; auto.
Qed.

Lemma composite_zero_background background x :
  same_shape background x → all_zero background → composite background x = x.
Proof.
  rewrite composite_channels. unfold same_shape, all_zero.
  induction 1 as [|cb cx bg x Hc _ IH]; intros Hz; [done|].
  apply Forall_cons in Hz as [Hcb Hz]. csimpl. f_equal; [|by apply IH].
  clear -Hc Hcb. unfold composite_channel.
  induction Hc as [|rb rx cb cx Hr _ IH]; [done|].
  apply Forall_cons in Hcb as [Hrb Hcb]. csimpl. f_equal; [|by apply IH].
  clear -Hr Hrb. unfold composite_row. revert rx Hr.
  induction Hrb as [|b rb -> _ IH]; intros [|v rx] Hr; try done. csimpl.
  f_equal; [unfold composite_pixel; ring|]. apply IH. by injection Hr.
Qed.

Lemma black_background_zero d randperm :
  all_zero (create_background d [0; 0; 0]%Qc randperm).
Proof.
  assert (all_zero (rgb_to_mnist_background [0; 0; 0]%Qc)) as Hz.
  { unfold all_zero, rgb_to_mnist_background.
    apply Forall_fmap, Forall_forall. intros v Hv. cbn beta.
    unfold compose. apply Forall_replicate, Forall_replicate.
    by repeat (apply elem_of_cons in Hv as [->|Hv]; [apply float32_0|]);
      apply elem_of_nil in Hv. }
  unfold create_background. destruct (unmask_points d randperm) as [pts|]; [|done].
  unfold tensor_mul, tensor_zip_with, all_zero.
  eapply Forall_zip_with_l; [|exact Hz]. intros cb cm Hcb.
  eapply Forall_zip_with_l; [|exact Hcb]. intros rb rm Hrb.
  eapply Forall_zip_with_l; [|exact Hrb]. intros b m ->. cbn. ring.
Qed.

(** Property X9.  The black entry of the palette is no spurious feature: its background
    leaves an image unchanged, at every difficulty. *)
Theorem X9_black_background_unchanged (d : SpuriousFeatureDifficulty)
    (randperm : list nat) (x : list (list (list Qc))) :
  mask_randperm_valid d randperm → shape_3_28_28 x →
  composite (create_background d [0; 0; 0]%Qc randperm) x = x.
Proof.
  intros Hperm Hx. apply composite_zero_background.
  - apply same_shape_3_28_28; [|done]. by apply create_background_shape.
  - apply black_background_zero.
Qed.



(** ** The images that [load_data] returns *)

Lemma spurious_range (self : t) (r : rng) (d : loaded) :
  load_data self r = Ok d → shuffle_valid self r →
  Forall (λ v, 0 ≤ v < Z.of_nat (length (classes self))) (spurious d).
Proof.
  intros Hrun Hsh.
  destruct (load_data_inv _ _ _ Hrun) as (_ & _ & Hp & Hlab & Hlen & HlenX & _).
  apply Forall_lookup. intros idx v Hv.
  destruct (load_data_sample self r d idx Hrun)
    as (l & g & i & bl & Hg & Hi & _ & Hmk & Hsp & _).
  { rewrite <-Hlen. by eapply lookup_lt_Some. }
  assert (length bl = length g
          ∧ Forall (λ v, 0 ≤ v < Z.of_nat (length (classes self))) bl) as [Hlbl Hr].
  { unfold background_label_of in Hmk. destruct (train self).
    - by eapply train_background_label_range; [|apply Hsh|].
    - rewrite (test_background_label_Ok _ _ _ _ Hg) in Hmk. injection Hmk as <-.
      destruct (true_partition_key _ _ _ Hg) as (_ & Hl & _).
      split.
      + rewrite length_take_at, (Hsh l g Hg). by rewrite length_seq.
      + rewrite take_at_perm.
        * apply Forall_fmap, Forall_forall. intros j _. cbn.
          apply Z.mod_pos_bound. lia.
        * rewrite length_fmap, length_seq. by apply Hsh. }
  assert (v = bl !!! i) as -> by congruence.
  rewrite Forall_forall in Hr.
  apply Hr, list_elem_of_lookup_total_2. rewrite Hlbl. by eapply lookup_lt_Some.
Qed.

Lemma kept_images_elem (self : t) x :
  x ∈ (kept_data self).1 → x ∈ (mnist self).*1.
Proof.
  unfold kept_data.
  pose proof (kept_in_range (classes self) (mnist self).*2) as Hk.
  destruct (get_new_labels _ _) as [labels kept]. cbn [fst snd] in *.
  intros (p & -> & Hp)%elem_of_take_at.
  apply list_elem_of_lookup_total_2.
  rewrite Forall_forall in Hk. specialize (Hk p Hp).
  rewrite length_fmap in Hk. by rewrite length_fmap.
Qed.

Lemma composite_shape background x :
  shape_3_28_28 background → shape_3_28_28 x → shape_3_28_28 (composite background x).
Proof.
  intros [Hla Ha] [Hlb Hb]. rewrite composite_channels. unfold shape_3_28_28.
  rewrite length_zip_with, Hla, Hlb. split; [done|].
  apply Forall_lookup. intros c ch Hch.
  apply lookup_zip_with_Some in Hch as (ca & cb & -> & Hca & Hcb).
  apply list_elem_of_lookup_2 in Hca, Hcb.
  rewrite Forall_forall in Ha, Hb.
  destruct (Ha ca Hca) as [Hlca Hra]. destruct (Hb cb Hcb) as [Hlcb Hrb].
  unfold composite_channel. rewrite length_zip_with, Hlca, Hlcb. split; [done|].
  apply Forall_lookup. intros i row Hrow.
  apply lookup_zip_with_Some in Hrow as (ra & rb & -> & Hra' & Hrb').
  apply list_elem_of_lookup_2 in Hra', Hrb'.
  rewrite Forall_forall in Hra, Hrb.
  unfold composite_row. rewrite length_zip_with, (Hra ra Hra'), (Hrb rb Hrb'). done.
Qed.

(** Property X10.  A construction over images of MNIST, with a palette of colours of
    three components that has an entry for every class and with random
    permutations that are permutations, returns images of the shape
    [3 x 28 x 28]; an entry of a kept image that is not zero is in the
    returned image as it was, and an entry that is zero is replaced by
    the entry of the background of the sample's spurious class. *)
Theorem X10_load_data_keeps_foreground (self : t) (r : rng) (d : loaded) :
  load_data self r = Ok d → shuffle_valid self r →
  (∀ idx, mask_randperm_valid (spurious_feature_difficulty self) (mask_randperm r idx)) →
  Forall shape_3_28_28 (mnist self).*1 →
  Forall (λ rgb, length rgb = 3%nat) (colors self) →
  (length (classes self) < length (colors self))%nat →
  Forall shape_3_28_28 (data_X d)
  ∧ ∀ idx c i j v, (idx < length (data_X d))%nat →
      entry ((kept_data self).1 !!! idx) c i j = Some v →
      entry (data_X d !!! idx) c i j
      = if decide (v = 0%Qc)
        then entry (create_background (spurious_feature_difficulty self)
                      (py_getitem (colors self) (spurious d !!! idx))
                      (mask_randperm r idx)) c i j
        else Some v.
Proof.
  intros Hrun Hsh Hmask Himg Hcol Hk.
  destruct (load_data_inv _ _ _ Hrun) as (_ & _ & _ & Hlab & Hlen & HlenX & _).
  pose proof (spurious_range self r d Hrun Hsh) as Hrange.
  assert (∀ idx, (idx < length (data_X d))%nat →
            ∃ v, spurious d !!! idx = v
                 ∧ data_X d !!! idx
                   = composite (create_background (spurious_feature_difficulty self)
                                  (py_getitem (colors self) v) (mask_randperm r idx))
                       ((kept_data self).1 !!! idx)
                 ∧ shape_3_28_28 (create_background (spurious_feature_difficulty self)
                                    (py_getitem (colors self) v) (mask_randperm r idx))
                 ∧ shape_3_28_28 ((kept_data self).1 !!! idx)) as Hsample.
  { intros idx Hidx.
    destruct (load_data_sample self r d idx Hrun)
      as (l & g & i & bl & _ & _ & _ & _ & Hsp & HX); [by rewrite <-HlenX|].
    exists (bl !!! i). split_and!.
    - by apply list_lookup_total_correct.
    - by apply list_lookup_total_correct.
    - apply create_background_shape; [|done].
      rewrite Forall_forall in Hcol. apply Hcol, py_getitem_nonneg.
      rewrite Forall_forall in Hrange.
      pose proof (Hrange _ (list_elem_of_lookup_2 _ _ _ Hsp)). lia.
    - rewrite Forall_forall in Himg. apply Himg, kept_images_elem.
      apply list_elem_of_lookup_total_2.
      by rewrite kept_data_length, <-Hlab, <-HlenX. }
  split.
  - apply Forall_lookup. intros idx x Hx.
    destruct (Hsample idx (lookup_lt_Some _ _ _ Hx)) as (v & _ & HX & Hbg & Hx0).
    rewrite (list_lookup_total_correct _ _ _ Hx) in HX. subst x.
    by apply composite_shape.
  - intros idx c i j v Hidx Hv.
    destruct (Hsample idx Hidx) as (sp & -> & -> & Hbg & Hx0).
    rewrite entry_composite, Hv.
    destruct (same_shape_entry _ _ _ _ _ _ (same_shape_3_28_28 _ _ Hbg Hx0) Hv) as [b Hb].
    rewrite Hb. cbn [mbind option_bind].
    case_decide as Hz.
    + subst v. by rewrite composite_pixel_zero.
    + by rewrite composite_pixel_nonzero.
Qed.

Lemma channel_ext (ch ch' : list (list Qc)) :
  length ch = 28%nat → Forall (λ row, length row = 28%nat) ch →
  length ch' = 28%nat → Forall (λ row, length row = 28%nat) ch' →
  (∀ rc, (rc.1 < 28)%nat → (rc.2 < 28)%nat → channel_entry ch rc = channel_entry ch' rc) →
  ch = ch'.
Proof.
  intros Hl Hr Hl' Hr' Hent. apply list_eq_same_length with 28%nat; [done|done|].
  intros r row row' Hlt Hrow Hrow'.
  rewrite Forall_forall in Hr, Hr'.
  pose proof (Hr row (list_elem_of_lookup_2 _ _ _ Hrow)) as Hlen.
  pose proof (Hr' row' (list_elem_of_lookup_2 _ _ _ Hrow')) as Hlen'.
  apply list_eq_same_length with 28%nat; [done|done|].
  intros c v v' Hc Hv Hv'.
  specialize (Hent (r, c) Hlt Hc). unfold channel_entry in Hent. cbn [fst snd] in Hent.
  rewrite Hrow, Hrow' in Hent. cbn [mbind option_bind] in Hent. congruence.
Qed.

(** Property X12.  The mask depends on the set of the points only: neither their order
    nor a repeated point changes it. *)
Theorem X12_compute_mask_set (pts pts' : list (nat * nat)) :
  Forall (λ rc, (rc.1 < 28)%nat ∧ (rc.2 < 28)%nat) pts →
  (∀ rc, rc ∈ pts ↔ rc ∈ pts') →
  compute_mask pts = compute_mask pts'.
Proof.
  intros Hr Hsame. rewrite !compute_mask_channels. f_equal.
  assert (∀ l, let ch := foldl set_channel_point (replicate 28 (replicate 28 0%Qc)) l in
               length ch = 28%nat ∧ Forall (λ row, length row = 28%nat) ch) as Hshape.
  { intros l. cbv zeta.
    assert (∀ ch, length ch = 28%nat → Forall (λ row, length row = 28%nat) ch →
              length (foldl set_channel_point ch l) = 28%nat
              ∧ Forall (λ row, length row = 28%nat) (foldl set_channel_point ch l)) as Hgen.
    { induction l as [|p l IH]; intros ch Hl Hrows; [done|]. cbn [foldl].
      destruct (shape_set ch p) as [Hl' Hrows']. apply IH; [congruence|by apply Hrows']. }
    apply Hgen; [by rewrite length_replicate|].
    apply Forall_replicate. by rewrite length_replicate. }
  destruct (Hshape pts) as [Hl Hrows]. destruct (Hshape pts') as [Hl' Hrows'].
  apply channel_ext; [done..|]. intros rc H1 H2.
  rewrite !foldl_set_channel_entry;
    try done; try (by rewrite length_replicate);
    try (apply Forall_replicate; by rewrite length_replicate).
  destruct (decide (rc ∈ pts)) as [Hin|Hnotin].
  - rewrite decide_True; [done|by apply Hsame].
  - rewrite decide_False; [done|]. by rewrite <-Hsame.
Qed.

(** ** EIIL: the groups *)

Section EIIL_extras.
Context {F : Type}.
Context (one : F).
Context (d_npenalty_d_env_w : list (list F) → list Z → F → list F → nat → F).
Context (d_npenalty_d_scale : list (list F) → list Z → F → list F → F).
Context (fadd : F → F → F).
Context (adam_entry : F → nat → F * F → F → F → F * F * F).
Context (adam_zero : F * F).
Context (sigmoid_gt_half : F → bool).

Lemma refine_elem (gs ls : list Z) v :
  v ∈ refine gs ls →
  ∃ g l, g ∈ gs ∧ l ∈ ls ∧ v = if decide (l = 1) then g + 2 else g.
Proof.
  unfold refine. intros (g & l & -> & Hg & Hl)%elem_of_zip_with. by exists g, l.
Qed.

Lemma harden_elem (w : list F) g :
  g ∈ harden sigmoid_gt_half w → g = 0 ∨ g = 1.
Proof.
  unfold harden. intros (x & -> & _)%list_elem_of_fmap.
  destruct (sigmoid_gt_half x); auto.
Qed.

Lemma group_partition_keys (labels : list Z) l g :
  (l, g) ∈ group_partition labels → g ≠ [] ∧ l ∈ labels.
Proof.
  intros Hg. destruct (group_partition_spec labels) as (_ & _ & Hlab & Hne & _).
  cbv zeta in *. split; [by eapply Hne|].
  destruct g as [|i g]; [by exfalso; eapply Hne|].
  eapply list_elem_of_lookup_2, Hlab; [done|left].
Qed.

(** Property X13.  The ids of the groups that [infer_groups] returns are among 0, 1, 2,
    3, no group is empty, and there are four groups at most.  Without a
    label equal to 1 the ids are 0 and 1 only; when every label is 1 they
    are 2 and 3 only. *)
Theorem X13_infer_groups_ids (logits : list (list F)) (labels : list Z)
    (num_steps : nat) (learning_rate : F) (randn : nat → F) :
  let p := infer_groups one d_npenalty_d_env_w d_npenalty_d_scale fadd adam_entry
             adam_zero sigmoid_gt_half logits labels num_steps learning_rate randn in
  (∀ l g, (l, g) ∈ p → (l = 0 ∨ l = 1 ∨ l = 2 ∨ l = 3) ∧ g ≠ [])
  ∧ (length p ≤ 4)%nat
  ∧ (1 ∉ labels → ∀ l g, (l, g) ∈ p → l = 0 ∨ l = 1)
  ∧ (Forall (λ l, l = 1) labels → ∀ l g, (l, g) ∈ p → l = 2 ∨ l = 3).
Proof.
  cbv zeta. unfold infer_groups, group_labels_of.
  set (w := data (leaves (train_assignment one d_npenalty_d_env_w d_npenalty_d_scale
                            fadd adam_entry adam_zero logits labels num_steps
                            learning_rate randn) env_w)).
  assert (∀ l g, (l, g) ∈ group_partition (refine (harden sigmoid_gt_half w) labels) →
            g ≠ [] ∧ ∃ raw lab, (raw = 0 ∨ raw = 1) ∧ lab ∈ labels
                                ∧ l = if decide (lab = 1) then raw + 2 else raw) as Hkey.
  { intros l g [Hne Hl]%group_partition_keys. split; [done|].
    apply refine_elem in Hl as (raw & lab & Hraw%harden_elem & Hlab & ->).
    by exists raw, lab. }
  split_and!.
  - intros l g (Hne & raw & lab & Hraw & _ & ->)%Hkey. split; [|done].
    case_decide; lia.
  - rewrite <-(length_fmap fst).
    transitivity (length [0; 1; 2; 3]); [|done].
    apply submseteq_length, NoDup_submseteq.
    + apply group_partition_spec.
    + intros l ([l' g] & -> & (_ & raw & lab & Hraw & _ & ->)%Hkey)%list_elem_of_fmap.
      cbn [fst]. rewrite !elem_of_cons. case_decide; lia.
  - intros Hno l g (_ & raw & lab & Hraw & Hlab & ->)%Hkey.
    rewrite decide_False by (by intros ->). done.
  - intros Hall l g (_ & raw & lab & Hraw & Hlab & ->)%Hkey.
    rewrite Forall_forall in Hall. rewrite decide_True by (by apply Hall). lia.
Qed.

End EIIL_extras.



(** ** The further properties at concrete inputs *)

(** The new labels of the example dataset. *)
Lemma X3_witness :
  (kept_data (example_dataset false unset_strength)).2 = [0; 1; 1; 0].
Proof.
  destruct (X3_kept_data_stable_filter (example_dataset false unset_strength) eq_refl)
    as (_ & -> & _).
  reflexivity.
Defined.

(** The example dataset in training mode with strength one half. *)
Lemma X4_witness :
  ∃ d, load_data (example_dataset true (Q2Qc (1 # 2))) (example_rng false) = Ok d.
Proof.
  apply (X4_training_returns (example_dataset true (Q2Qc (1 # 2))) (example_rng false)).
  - reflexivity.
  - reflexivity.
  - split; by vm_compute.
  - vm_compute. lia.
Defined.

(** With every draw zero no sample of the first group keeps its label. *)
Lemma X5_witness :
  match load_data (example_dataset true (Q2Qc (1 # 2))) (example_rng false) with
  | Ok d => count_class 0 (spurious_in d [0; 3]%nat) = 0%nat
  | Err _ => False
  end.
Proof.
  destruct (load_data (example_dataset true (Q2Qc (1 # 2))) (example_rng false))
    as [d|e] eqn:Hd.
  - destruct (X5_training_aligned_count (example_dataset true (Q2Qc (1 # 2)))
                (example_rng false) d 0 [0; 3]%nat eq_refl Hd) as [_ ->].
    + apply example_shuffle_valid.
    + destruct (load_data_inv _ _ _ Hd) as (_ & _ & -> & _).
      rewrite example_true_partition. left.
    + reflexivity.
  - vm_compute in Hd. discriminate Hd.
Defined.

(** The example dataset in training mode with strength zero. *)
Lemma X6_witness :
  ∃ d, load_data (example_dataset true 0%Qc) (example_rng false) = Ok d
       ∧ ∀ l g, (l, g) ∈ partition d → count_class l (spurious_in d g) = 0%nat.
Proof.
  destruct (X6_zero_strength_anti_aligned (example_dataset true 0%Qc) (example_rng false))
    as (d & Hd & Hall).
  - reflexivity.
  - reflexivity.
  - reflexivity.
  - vm_compute. lia.
  - apply example_shuffle_valid.
  - split; [|reflexivity]. intros H01. exfalso. by apply Q_apart_0_1.
  - exists d. split; [exact Hd|]. intros l g Hg. by apply Hall.
Defined.

(** A point of the corner and a red background of [MAGNITUDE_MEDIUM]. *)
Lemma X7_witness :
  entry (create_background MAGNITUDE_MEDIUM [Q2Qc (1 # 10); 0; 1]%Qc []) 0 1 2
  = Some (if unmasked_at MAGNITUDE_MEDIUM [] 1 2 then float32 (Q2Qc (1 # 10)) else 0%Qc).
Proof.
  apply (X7_background_entries MAGNITUDE_MEDIUM [Q2Qc (1 # 10); 0; 1]%Qc [] 0 1 2
           (Q2Qc (1 # 10))).
  - exact I.
  - reflexivity.
  - repeat constructor.
  - reflexivity.
  - lia.
  - lia.
Defined.

(** The black background of [VARIANCE_EASY] on a white image. *)
Lemma X9_witness :
  composite (create_background VARIANCE_EASY [0; 0; 0]%Qc []) (example_image 1)
  = example_image 1.
Proof.
  apply (X9_black_background_unchanged VARIANCE_EASY [] (example_image 1)).
  - exact I.
  - unfold shape_3_28_28. apply (bool_decide_unpack _). by vm_compute.
Defined.

(** The images of the example dataset in evaluation mode. *)
Lemma X10_witness :
  match load_data (example_dataset false unset_strength) (example_rng true) with
  | Ok d => Forall shape_3_28_28 (data_X d)
  | Err _ => False
  end.
Proof.
  destruct (load_data (example_dataset false unset_strength) (example_rng true))
    as [d|e] eqn:Hd.
  - apply (X10_load_data_keeps_foreground (example_dataset false unset_strength)
             (example_rng true) d Hd).
    + apply example_shuffle_valid.
    + intros idx. exact I.
    + unfold shape_3_28_28. apply (bool_decide_unpack _). by vm_compute.
    + apply (bool_decide_unpack _). by vm_compute.
    + vm_compute. lia.
  - vm_compute in Hd. discriminate Hd.
Defined.

(** A repeated point and another order. *)
Lemma X12_witness :
  compute_mask [(0, 0); (1, 1); (0, 0)]%nat = compute_mask [(1, 1); (0, 0)]%nat.
Proof.
  apply X12_compute_mask_set.
  - repeat constructor.
  - intros rc. rewrite !elem_of_cons, !elem_of_nil. tauto.
Defined.

